(** * Request-orchestration layer of the AI image generator

    A shallow embedding of the rate limiter ([utils/rateLimiter.js]), the
    error classifier and retry executors ([hooks/useErrorHandler.js],
    [utils/api.js]), the generation hook ([hooks/useImageGeneration.js]),
    the memoization and request de-duplication helpers
    ([utils/performance.js]), the validators ([utils/validation.js]), the
    configuration checks ([utils/config.js]) and the two API handlers
    ([src/pages/api/generate-image.js] and [pages/api/generate-image.js]).

    Conventions.  JavaScript numbers that hold integers (timestamps in
    milliseconds, token counts, seeds, HTTP statuses) are modelled as [Z];
    where the code adds to a number that a client chooses (a seed), the sum
    is rounded as a double ([Js.add]).  Delays that involve [Math.random()]
    are modelled as exact rationals [Q].  Strings are sequences of 8-bit
    characters; [JsString.toLowerCase], [JsString.trim] and [String.length]
    are those of JavaScript on strings of ASCII characters
    ([JsString.isAscii]).  [Date.now()], [Math.random()] and the replies
    of the network are inputs of the model: the code reads them from its
    environment.  Calls of the hook that overlap are modelled by the
    histories of [Interleaving]: a call runs from one [await] to the next,
    and between two of them any other call may run. *)

From Stdlib Require Import ZArith QArith Qminmax Qpower Lqa String Ascii List Lia.
From stdpp Require Import base option list gmap strings pretty.

Local Open Scope Z_scope.

(** ** JavaScript string helpers *)

Module JsString.

(** [String.prototype.toLowerCase], on ASCII letters. *)
Definition lower_ascii (c : ascii) : ascii :=
  let n := nat_of_ascii c in
  if (Nat.leb 65 n && Nat.leb n 90)%bool then ascii_of_nat (n + 32) else c.

Fixpoint toLowerCase (s : string) : string :=
  match s with
  | EmptyString => EmptyString
  | String c s' => String (lower_ascii c) (toLowerCase s')
  end.

(** White space removed by [trim]: TAB, LF, VT, FF, CR and SPACE. *)
Definition is_space (c : ascii) : bool :=
  let n := nat_of_ascii c in
  ((Nat.leb 9 n && Nat.leb n 13) || Nat.eqb n 32)%bool.

Fixpoint trimStart (s : string) : string :=
  match s with
  | EmptyString => EmptyString
  | String c s' => if is_space c then trimStart s' else s
  end.

(** [trimEnd] drops a character when it is a space and everything after it
    has been dropped as well. *)
Fixpoint trimEnd (s : string) : string :=
  match s with
  | EmptyString => EmptyString
  | String c s' =>
      match trimEnd s' with
      | EmptyString => if is_space c then EmptyString else String c EmptyString
      | r => String c r
      end
  end.

Definition trim (s : string) : string := trimEnd (trimStart s).

(** [s.startsWith(p)] *)
Fixpoint startsWith (p s : string) : bool :=
  match p, s with
  | EmptyString, _ => true
  | String a p', String b s' => if Ascii.eqb a b then startsWith p' s' else false
  | String _ _, EmptyString => false
  end.

(** [s.includes(p)] *)
Fixpoint includes (s p : string) : bool :=
  if startsWith p s then true
  else match s with
       | EmptyString => false
       | String _ s' => includes s' p
       end.

(** [s.split(',')[0]]: the part of [s] before the first comma. *)
Fixpoint beforeComma (s : string) : string :=
  match s with
  | EmptyString => EmptyString
  | String c s' => if Ascii.eqb c ","%char then EmptyString else String c (beforeComma s')
  end.

(** Truthiness of an optional string: [undefined] and [''] are falsy. *)
Definition truthy (o : option string) : option string :=
  match o with
  | Some EmptyString => None
  | other => other
  end.

(** The strings made of ASCII characters (codes below 128).  On them
    [toLowerCase], [trim] and [String.length] above are the built-ins of
    the engine: one character is one UTF-16 code unit, the white space of
    [trim] in this range is TAB, LF, VT, FF, CR and SPACE, and only the
    letters A to Z have a lower case of their own. *)
Fixpoint isAscii (s : string) : bool :=
  match s with
  | EmptyString => true
  | String c s' => Nat.ltb (nat_of_ascii c) 128 && isAscii s'
  end.

End JsString.

(** ** utils/rateLimiter.js *)

Module RateLimiter.

(** A bucket of the module-level [rateLimitStore]. *)
Record Bucket := mkBucket { tokens : Z; lastRefill : Z }.

(** The fields of a [RateLimiter] instance that [checkRateLimit] reads. *)
Record Limiter := mkLimiter { maxRequests : Z; windowMs : Z }.

(** [opt || dflt] on an optional number: [undefined] and [0] are falsy. *)
Definition js_or (opt : option Z) (dflt : Z) : Z :=
  match opt with
  | Some v => if v =? 0 then dflt else v
  | None => dflt
  end.

(** The constructor: [options.maxRequests || config.app.rateLimitPerMinute]
    and [options.windowMs || 60000]. *)
Definition constructor (optMaxRequests optWindowMs : option Z)
    (rateLimitPerMinute : Z) : Limiter :=
  {| maxRequests := js_or optMaxRequests rateLimitPerMinute;
     windowMs := js_or optWindowMs 60000 |}.

(** The parts of a request that [defaultKeyGenerator] looks at. *)
Record Request := mkRequest {
  x_forwarded_for : option string;
  ip : option string;
  connection_remoteAddress : option string;
  socket_remoteAddress : option string
}.

Definition defaultKeyGenerator (req : Request) : string :=
  match JsString.truthy
          (option_map (fun h => JsString.trim (JsString.beforeComma h))
                      (x_forwarded_for req)) with
  | Some k => k
  | None =>
    match JsString.truthy (ip req) with
    | Some k => k
    | None =>
      match JsString.truthy (connection_remoteAddress req) with
      | Some k => k
      | None =>
        match JsString.truthy (socket_remoteAddress req) with
        | Some k => k
        | None => "unknown"%string
        end
      end
    end
  end.

(** The object returned by [checkRateLimit]; [retryAfter] is present only
    on a denial. *)
Record Result := mkResult {
  allowed : bool;
  remaining : Z;
  resetTime : Z;
  limit : Z;
  retryAfter : option Z
}.

(** [Math.ceil(a / b)] for integers [a] and [b]. *)
Definition ceil_div (a b : Z) : Z := - ((- a) / b).

(** Lines 57-64: the refill step.  [Math.floor(x / w)] is [Z.div] for a
    window [w] other than 0, and the constructor never leaves the window
    at 0. *)
Definition refill (L : Limiter) (now : Z) (b : Bucket) : Bucket :=
  let timePassed := now - lastRefill b in
  let tokensToAdd := (timePassed / windowMs L) * maxRequests L in
  if 0 <? tokensToAdd
  then {| tokens := Z.min (maxRequests L) (tokens b + tokensToAdd);
          lastRefill := now |}
  else b.

(** Lines 47-55: get the bucket of the key, or create a full one. *)
Definition getOrCreate (L : Limiter) (now : Z) (key : string)
    (store : gmap string Bucket) : Bucket :=
  match store !! key with
  | Some b => b
  | None => {| tokens := maxRequests L; lastRefill := now |}
  end.

(** [checkRateLimit] with the key already generated and [Date.now()] as
    an input.  The bucket object is mutated in place in the source; here
    the new bucket is written back to the store. *)
Definition checkKey (L : Limiter) (key : string) (now : Z)
    (store : gmap string Bucket) : Result * gmap string Bucket :=
  let bucket := refill L now (getOrCreate L now key store) in
  if 0 <? tokens bucket then
    let bucket' := {| tokens := tokens bucket - 1; lastRefill := lastRefill bucket |} in
    ({| allowed := true;
        remaining := tokens bucket';
        resetTime := lastRefill bucket' + windowMs L;
        limit := maxRequests L;
        retryAfter := None |},
     <[key := bucket']> store)
  else
    ({| allowed := false;
        remaining := 0;
        resetTime := lastRefill bucket + windowMs L;
        limit := maxRequests L;
        retryAfter := Some (ceil_div (lastRefill bucket + windowMs L - now) 1000) |},
     <[key := bucket]> store).

Definition checkRateLimit (L : Limiter) (keyGenerator : Request -> string)
    (req : Request) (now : Z) (store : gmap string Bucket)
    : Result * gmap string Bucket :=
  checkKey L (keyGenerator req) now store.

(** A finite sequence of calls, each with its key and its clock reading;
    [run] gives the store after the last call and [trace] the stores after
    each call. *)
Fixpoint run (L : Limiter) (calls : list (string * Z))
    (store : gmap string Bucket) : gmap string Bucket :=
  match calls with
  | [] => store
  | (key, now) :: rest => run L rest (snd (checkKey L key now store))
  end.

Fixpoint trace (L : Limiter) (calls : list (string * Z))
    (store : gmap string Bucket) : list (gmap string Bucket) :=
  match calls with
  | [] => []
  | (key, now) :: rest =>
      let store' := snd (checkKey L key now store) in
      store' :: trace L rest store'
  end.

(** The results returned by the calls of a sequence, in order. *)
Fixpoint results (L : Limiter) (calls : list (string * Z))
    (store : gmap string Bucket) : list Result :=
  match calls with
  | [] => []
  | (key, now) :: rest =>
      let (r, store') := checkKey L key now store in
      r :: results L rest store'
  end.

(** The data-model invariant of a bucket and of a store. *)
Definition bucket_ok (L : Limiter) (b : Bucket) : Prop :=
  0 <= tokens b <= maxRequests L.

Definition store_ok (L : Limiter) (store : gmap string Bucket) : Prop :=
  forall key b, store !! key = Some b -> bucket_ok L b.

End RateLimiter.

(** ** utils/config.js: [DEFAULT_CONFIG] *)

Module Config.
Definition fal_timeout : Z := 30000.
Definition fal_retryAttempts : nat := 3.
Definition app_imagesPerGeneration : Z := 4.
Definition app_rateLimitPerMinute : Z := 10.
End Config.

(** ** JavaScript values that are thrown *)

Module Js.

(** The properties of an error object that the classifiers read.
    [apiRetryable] is [Some r] exactly for instances of [ApiError]
    ([utils/api.js]), whose constructor stores [retryable]. *)
Record ErrorObj := mkErrorObj {
  message : option string;
  name : option string;
  status : option Z;
  code : option string;
  apiRetryable : option bool
}.

(** What a rejected promise can carry. *)
Inductive Thrown :=
| ThrownString (s : string)      (* typeof e === 'string' *)
| ThrownError (e : ErrorObj)     (* e instanceof Error *)
| ThrownObject (o : ErrorObj)    (* a plain, non-null object *)
| ThrownNull.                    (* null or undefined *)

(** [new Error(msg)] *)
Definition newError (msg : string) : ErrorObj :=
  {| message := Some msg; name := Some "Error"%string; status := None;
     code := None; apiRetryable := None |}.

(** [opt || ''] for an optional string. *)
Definition orEmpty (o : option string) : string :=
  match o with Some s => s | None => EmptyString end.

(** [x === n] for an optional number. *)
Definition status_is (o : option Z) (n : Z) : bool :=
  match o with Some v => v =? n | None => false end.

(** [lo <= x && x < hi] for an optional number ([undefined] compares false). *)
Definition status_in (o : option Z) (lo hi : Z) : bool :=
  match o with Some v => (lo <=? v) && (v <? hi) | None => false end.

(** The double that is nearest to the integer [x], ties going to the even
    significand.  An integer of absolute value up to 2^53 is a double; a
    larger one between 2^e and 2^(e+1) is rounded to a multiple of
    2^(e-52). *)
Definition roundDouble (x : Z) : Z :=
  let a := Z.abs x in
  if a <? 9007199254740992 then x
  else
    let ulp := 2 ^ (Z.log2 a - 52) in
    let q := a / ulp in
    let r := a mod ulp in
    let q' := if 2 * r <? ulp then q
              else if ulp <? 2 * r then q + 1
              else if Z.even q then q else q + 1 in
    Z.sgn x * (q' * ulp).

(** [a + b] for two numbers that hold integers: the sum is rounded to a
    double. *)
Definition add (a b : Z) : Z := roundDouble (a + b).

End Js.

(** ** hooks/useErrorHandler.js *)

Module ErrorHandler.
Import Js.

Inductive Category :=
| configuration | validation | authentication | rate_limit
| network | server | client | unknown.

Definition Category_eqb (a b : Category) : bool :=
  match a, b with
  | configuration, configuration | validation, validation
  | authentication, authentication | rate_limit, rate_limit
  | network, network | server, server | client, client
  | unknown, unknown => true
  | _, _ => false
  end.

(** Lines 241-299. *)
Definition categorizeError (error : ErrorObj) : Category :=
  let message := JsString.toLowerCase (orEmpty (Js.message error)) in
  let name := JsString.toLowerCase (orEmpty (Js.name error)) in
  let has := JsString.includes message in
  if has "configuration" || has "api key" || has "not configured"
     || has "missing credentials"
  then configuration
  else if has "validation" || has "invalid" || has "required"
          || has "bad request" || status_is (status error) 400
  then validation
  else if has "unauthorized" || has "authentication"
          || status_is (status error) 401 || status_is (status error) 403
  then authentication
  else if has "rate limit" || has "too many requests"
          || status_is (status error) 429
  then rate_limit
  else if has "network" || has "connection" || has "timeout"
          || JsString.includes name "network" || status_is (status error) 0
  then network
  else if has "server" || has "internal" || status_in (status error) 500 600
  then server
  else if status_in (status error) 400 500
  then client
  else unknown.

(** Lines 306-309: membership in [['network','server','rate_limit','unknown']]. *)
Definition getRetryabilityForCategory (c : Category) : bool :=
  existsb (Category_eqb c) [network; server; rate_limit; unknown].

(** The classified error built by [processError]. *)
Record ProcessedError := mkProcessed {
  p_message : option string;
  p_category : Category;
  p_retryable : bool;
  p_status : option Z
}.

(** Lines 189-222: the object that is categorized.  A string becomes the
    message; of an [Error] instance only message, name and stack are
    copied; a plain object is spread over the base error. *)
Definition mergedError (errorInput : Thrown) : ErrorObj :=
  let baseMessage := Some "An unexpected error occurred"%string in
  match errorInput with
  | ThrownString s =>
      {| message := Some s; name := None; status := None; code := None;
         apiRetryable := None |}
  | ThrownError e =>
      {| message := Js.message e; name := Js.name e; status := None;
         code := None; apiRetryable := None |}
  | ThrownObject o =>
      {| message := match Js.message o with Some m => Some m | None => baseMessage end;
         name := Js.name o; status := status o; code := code o;
         apiRetryable := None |}
  | ThrownNull =>
      {| message := baseMessage; name := None; status := None; code := None;
         apiRetryable := None |}
  end.

(** Lines 189-234. *)
Definition processError (errorInput : Thrown) : ProcessedError :=
  let error := mergedError errorInput in
  let category := categorizeError error in
  {| p_message := Js.message error;
     p_category := category;
     p_retryable := getRetryabilityForCategory category;
     p_status := status error |}.

(** Lines 382-387, with the value of [Math.random()] as the input
    [random]. *)
Definition calculateBackoffDelay (attempt : Z) (baseDelay random : Q) : Q :=
  let exponentialDelay := (baseDelay * 2 ^ (attempt - 1))%Q in
  let jitter := (random * (1 # 10) * exponentialDelay)%Q in
  Qmin (exponentialDelay + jitter) 30000.

(** What the executor does, in order. *)
Inductive Event :=
| EvOnRetry (attempt maxRetries : nat)
| EvCall
| EvOnSuccess (attempts : nat)
| EvOnError (e : ProcessedError)
| EvSleep (delay : Q).

Inductive Outcome (A : Type) :=
| Resolved (result : A)
| Rejected (e : ProcessedError)
| ReturnedUndefined.
Arguments Resolved {A} _.
Arguments Rejected {A} _.
Arguments ReturnedUndefined {A}.

Section Execute.
(** The operation is an effectful function on a world [W]; each
    invocation either resolves or rejects and changes the world. *)
Context {W A : Type}.
Variable operation : W -> (Thrown + A) * W.
Variable maxRetries : nat.
Variable autoRetry : bool.
Variable baseDelay : Q.
(** [random k] is the value of the [k]-th call of [Math.random()]. *)
Variable random : nat -> Q.

(** Lines 85-125.  [remaining] is [maxRetries + 1 - currentAttempt]:
    the loop condition [currentAttempt <= maxRetries] holds exactly
    when it is not [0]. *)
Fixpoint loop (remaining currentAttempt : nat) (w : W)
    : Outcome A * list Event * W :=
  match remaining with
  | O => (ReturnedUndefined, [], w)
  | S remaining' =>
      let pre := if (0 <? currentAttempt)%nat
                 then [EvOnRetry currentAttempt maxRetries] else [] in
      match operation w with
      | (inr result, w') =>
          (Resolved result, pre ++ [EvCall; EvOnSuccess currentAttempt], w')
      | (inl error, w') =>
          let currentAttempt' := S currentAttempt in
          let processedError := processError error in
          if (maxRetries <? currentAttempt')%nat
             || negb (p_retryable processedError) || negb autoRetry
          then (Rejected processedError,
                pre ++ [EvCall; EvOnError processedError], w')
          else
            let delay := calculateBackoffDelay (Z.of_nat currentAttempt')
                           baseDelay (random currentAttempt') in
            match loop remaining' currentAttempt' w' with
            | (out, evs, w'') => (out, pre ++ EvCall :: EvSleep delay :: evs, w'')
            end
      end
  end.

Definition executeWithErrorHandling (w : W) : Outcome A * list Event * W :=
  loop (S maxRetries) 0%nat w.
End Execute.

(** Number of times the operation was invoked. *)
Definition invocations (evs : list Event) : nat :=
  List.length (List.filter (fun e => match e with EvCall => true | _ => false end) evs).

(** The events of a run of the executor. *)
Definition hook_events {W A : Type} (r : Outcome A * list Event * W)
    : list Event := snd (fst r).

End ErrorHandler.

(** ** utils/api.js *)

Module Api.
Import Js.

(** Lines 86-88. *)
Definition calculateBackoffDelay (attempt : Z) (baseDelay : Q) : Q :=
  Qmin (baseDelay * 2 ^ (attempt - 1)) 30000.

Definition retryableStatuses : list Z := [408; 429; 500; 502; 503; 504].

(** Lines 95-112 on an object; a truthy [status] is a non-zero one. *)
Definition isRetryableObj (error : ErrorObj) : bool :=
  match apiRetryable error with
  | Some r => r
  | None =>
      if match code error with
         | Some c => String.eqb c "ECONNRESET" || String.eqb c "ETIMEDOUT"
                     || String.eqb c "ENOTFOUND"
         | None => false
         end
      then true
      else match status error with
           | Some s => if s =? 0 then false else existsb (Z.eqb s) retryableStatuses
           | None => false
           end
  end.

(** [isRetryableError]: a string has no [code] and no [status]; reading
    a property of [null] throws a [TypeError], which is [None] here. *)
Definition isRetryableError (error : Thrown) : option bool :=
  match error with
  | ThrownString _ => Some false
  | ThrownError e => Some (isRetryableObj e)
  | ThrownObject o => Some (isRetryableObj {| message := message o; name := name o;
                                              status := status o; code := code o;
                                              apiRetryable := None |})
  | ThrownNull => None
  end.

Definition typeError : Thrown :=
  ThrownError {| message := Some "Cannot read properties of null"%string;
                 name := Some "TypeError"%string; status := None; code := None;
                 apiRetryable := None |}.

Inductive Event := EvCall | EvSleep (delay : Q).

Inductive Outcome (A : Type) :=
| Resolved (result : A)
| Rejected (e : Thrown)
| RejectedUndefined.     (* [throw lastError] with [lastError] never set *)
Arguments Resolved {A} _.
Arguments Rejected {A} _.
Arguments RejectedUndefined {A}.

Section Retry.
Context {W A : Type}.
Variable fn : W -> (Thrown + A) * W.
Variable maxAttempts : nat.
Variable baseDelay : Q.

(** Lines 122-141.  [remaining] is [maxAttempts + 1 - attempt]: the loop
    condition [attempt <= maxAttempts] holds exactly when it is not [0];
    on leaving the loop [lastError] is thrown. *)
Fixpoint loop (remaining attempt : nat) (lastError : option Thrown) (w : W)
    : Outcome A * list Event * W :=
  match remaining with
  | O => (match lastError with
          | Some e => Rejected e
          | None => RejectedUndefined
          end, [], w)
  | S remaining' =>
      match fn w with
      | (inr result, w') => (Resolved result, [EvCall], w')
      | (inl error, w') =>
          match isRetryableError error with
          | None => (Rejected typeError, [EvCall], w')
          | Some retryable =>
              if negb retryable || (attempt =? maxAttempts)%nat
              then (Rejected error, [EvCall], w')
              else
                let delay := calculateBackoffDelay (Z.of_nat attempt) baseDelay in
                match loop remaining' (S attempt) (Some error) w' with
                | (out, evs, w'') => (out, EvCall :: EvSleep delay :: evs, w'')
                end
          end
      end
  end.

Definition retryWithBackoff (w : W) : Outcome A * list Event * W :=
  loop maxAttempts 1%nat None w.
End Retry.

Definition invocations (evs : list Event) : nat :=
  List.length (List.filter (fun e => match e with EvCall => true | _ => false end) evs).

(** The events of a run of [retryWithBackoff]. *)
Definition api_events {W A : Type} (r : Outcome A * list Event * W)
    : list Event := snd (fst r).

End Api.

(** ** The fan-out of the API handlers *)

Module GenerateImage.
Import Js.

(** The reply of the provider, as far as the handlers inspect it:
    [result.images[0].url]. *)
Record Image := mkImage { url : option string }.
Record FalResult := mkFalResult { images : option (list Image) }.

Inductive Settled :=
| Fulfilled (result : option FalResult)      (* [None] is a null result *)
| RejectedWith (error : Thrown).

(** A promise of a sub-call seen from outside: how it settles and how many
    milliseconds after the fan-out started. *)
Record Promise := mkPromise { settledAt : Z; settled : Settled }.

Record ImageSize := mkImageSize { width : Z; height : Z }.

Record FalInput := mkFalInput {
  prompt : string;
  seed : Z;
  num_images : Z;
  image_size : ImageSize;
  enable_safety_checker : bool;
  scheduler : string
}.

(** [request.options] after validation. *)
Record Options := mkOptions {
  opt_seed : option Z;
  opt_num_images : option Z;
  opt_image_size : option ImageSize
}.

(** The environment: [fal_run k input] is the promise returned by the
    [k]-th call of [fal.run], [random k] is the value of
    [Math.floor(Math.random() * 1000000)] at the [k]-th draw. *)
Record Env := mkEnv {
  fal_run : nat -> FalInput -> Promise;
  random : nat -> Z
}.

(** What has been consumed so far: the inputs passed to [fal.run], in
    order, and the number of random draws. *)
Record World := mkWorld { calls : list FalInput; draws : nat }.

Definition world0 : World := {| calls := []; draws := 0 |}.

(** The check of lines 92-96 (261-265 in the current handler). *)
Definition extractUrl (result : option FalResult) : option string :=
  match result with
  | None => None
  | Some r =>
      match images r with
      | Some (img :: _) => JsString.truthy (url img)
      | _ => None
      end
  end.

(** [results.map(...).filter(Boolean)] *)
Definition imageUrls (results : list (option FalResult)) : list string :=
  omap extractUrl results.

(** [Promise.all]: the rejection that happens first, if any (the lower
    index wins a tie). *)
Fixpoint first_rejection (ps : list Promise) : option (Z * Thrown) :=
  match ps with
  | [] => None
  | p :: rest =>
      match settled p, first_rejection rest with
      | RejectedWith e, Some (t, e') =>
          if t <? settledAt p then Some (t, e') else Some (settledAt p, e)
      | RejectedWith e, None => Some (settledAt p, e)
      | Fulfilled _, r => r
      end
  end.

Definition fulfilled_value (p : Promise) : option FalResult :=
  match settled p with
  | Fulfilled r => r
  | RejectedWith _ => None
  end.

(** The time at which the last promise settles. *)
Definition last_settled (ps : list Promise) : Z :=
  foldr Z.max 0 (settledAt <$> ps).

(** [Promise.all(ps)]: when it settles, and with what.  It rejects as
    soon as one promise rejects and otherwise fulfils with all values
    once the last promise has fulfilled. *)
Definition promise_all (ps : list Promise)
    : Z * (Thrown + list (option FalResult)) :=
  match first_rejection ps with
  | Some (t, e) => (t, inl e)
  | None => (last_settled ps, inr (fulfilled_value <$> ps))
  end.

(** A sub-call fails when its promise rejects or when its result carries
    no URL. *)
Definition sub_rejected (p : Promise) : bool :=
  match settled p with
  | RejectedWith _ => true
  | Fulfilled _ => false
  end.

Definition sub_failed (p : Promise) : bool :=
  match settled p with
  | RejectedWith _ => true
  | Fulfilled r => match extractUrl r with
                   | Some _ => false
                   | None => true
                   end
  end.

Definition count_failed (ps : list Promise) : nat :=
  List.length (List.filter sub_failed ps).

(** [Promise.race([p, timeoutPromise])] *)
Definition race_timeout (timeout : Z) (p : Promise) : Promise :=
  if settledAt p <? timeout then p
  else {| settledAt := timeout;
          settled := RejectedWith (ThrownError (newError "Request timeout")) |}.

Section FanOut.
Variable env : Env.
(** The seed of the sub-call [index], and the input built from it. *)
Variable seedFor : Z -> World -> Z * World.
Variable inputFor : Z -> FalInput.
Variable wrap : Promise -> Promise.

(** [Array.from({ length: n }, (_, index) => ...)]: the callbacks run in
    index order; each one computes its seed and calls [fal.run]. *)
Fixpoint fanOut (n : nat) (index : Z) (w : World) : list Promise * World :=
  match n with
  | O => ([], w)
  | S n' =>
      let (seed, w1) := seedFor index w in
      let input := inputFor seed in
      let p := wrap (fal_run env (List.length (calls w1)) input) in
      let w2 := {| calls := calls w1 ++ [input]; draws := draws w1 |} in
      let (ps, w3) := fanOut n' (index + 1) w2 in
      (p :: ps, w3)
  end.
End FanOut.

(** [Math.floor(Math.random() * 1000000) + index] *)
Definition randomSeed (env : Env) (index : Z) (w : World) : Z * World :=
  (Js.add (random env (draws w)) index,
   {| calls := calls w; draws := S (draws w) |}).

(** [e.message] of a thrown value; [None] models the [TypeError] of
    reading a property of [null]. *)
Definition messageOf (e : Thrown) : option (option string) :=
  match e with
  | ThrownString _ => Some None
  | ThrownError o | ThrownObject o => Some (message o)
  | ThrownNull => None
  end.

Definition statusOf (e : Thrown) : option Z :=
  match e with
  | ThrownError o | ThrownObject o => status o
  | _ => None
  end.

(** *** src/pages/api/generate-image.js *)

Module Legacy.

Inductive Body :=
| BodyEnd
| BodyError (error : string) (details : option string)
| BodyImages (imageUrls : list string).

Record Response := mkResponse { statusCode : Z; body : Body }.

Record Request := mkRequest {
  method : string;
  body_prompt : option string
}.

Definition inputFor (prompt : string) (seed : Z) : FalInput :=
  {| prompt := prompt; seed := seed; num_images := 1;
     image_size := {| width := 1024; height := 1024 |};
     enable_safety_checker := true; scheduler := "euler" |}.

(** Lines 69-89: the four sub-calls and [Promise.all]. *)
Definition fanOut4 (env : Env) (prompt : string) (w : World)
    : list Promise * World :=
  fanOut env (randomSeed env) (inputFor prompt) (fun p => p) 4 0 w.

(** Lines 65-112: the [try] block and its [catch].  [None] is the
    handler itself rejecting (the [catch] block reads [error.message]). *)
Definition generate (env : Env) (prompt : string) (w : World)
    : option Response * World :=
  let (ps, w') := fanOut4 env prompt w in
  let failed (details : option string) :=
    {| statusCode := 500;
       body := BodyError "Failed to generate images" details |} in
  match snd (promise_all ps) with
  | inl e => (failed <$> messageOf e, w')
  | inr results =>
      let urls := imageUrls results in
      if (List.length urls =? 0)%nat
      then (Some (failed (Some "No images were generated"%string)), w')
      else (Some {| statusCode := 200; body := BodyImages urls |}, w')
  end.

(** Lines 36-112; [falKey] is [process.env.FAL_KEY]. *)
Definition handler (env : Env) (falKey : option string) (req : Request)
    (w : World) : option Response * World :=
  if String.eqb (method req) "OPTIONS"
  then (Some {| statusCode := 200; body := BodyEnd |}, w)
  else if negb (String.eqb (method req) "POST")
  then (Some {| statusCode := 405; body := BodyError "Method not allowed" None |}, w)
  else match JsString.truthy falKey with
       | None => (Some {| statusCode := 500;
                          body := BodyError "Server configuration error" None |}, w)
       | Some _ =>
           match JsString.truthy (body_prompt req) with
           | None => (Some {| statusCode := 400;
                              body := BodyError "Prompt is required" None |}, w)
           | Some prompt => generate env prompt w
           end
       end.

End Legacy.

(** *** pages/api/generate-image.js *)

Definition defaultImageSize : ImageSize := {| width := 1024; height := 1024 |}.

(** Line 231 *)
Definition seedFor (env : Env) (options : Options) (index : Z) (w : World)
    : Z * World :=
  match opt_seed options with
  | Some s => (Js.add s index, w)
  | None => randomSeed env index w
  end.

(** Lines 234-244 *)
Definition falInput (prompt : string) (options : Options) (seed : Z) : FalInput :=
  {| prompt := prompt; seed := seed; num_images := 1;
     image_size := match opt_image_size options with
                   | Some sz => sz
                   | None => defaultImageSize
                   end;
     enable_safety_checker := true; scheduler := "euler" |}.

(** Line 229: [options.num_images || config.app.imagesPerGeneration] *)
Definition numImages (options : Options) (imagesPerGeneration : Z) : Z :=
  RateLimiter.js_or (opt_num_images options) imagesPerGeneration.

(** Lines 302-318; [None] is the [TypeError] of reading [null.message]. *)
Definition isNonRetryableError (error : Thrown) : option bool :=
  match messageOf error with
  | None => None
  | Some m =>
      let message := JsString.toLowerCase (orEmpty m) in
      let has := JsString.includes message in
      Some (has "invalid" || has "unauthorized" || has "forbidden"
            || has "rate limit" || has "quota" || has "billing"
            || status_is (statusOf error) 400 || status_is (statusOf error) 401
            || status_is (statusOf error) 403 || status_is (statusOf error) 429)
  end.

Definition typeError : Thrown :=
  ThrownError {| message := Some "Cannot read properties of null"%string;
                 name := Some "TypeError"%string; status := None; code := None;
                 apiRetryable := None |}.

Section GenerateImagesWithRetry.
Variable env : Env.
Variable prompt : string.
Variable maxRetries : nat.
Variable timeout : Z.
Variable options : Options.
Variable imagesPerGeneration : Z.

(** Lines 229-258: one fan-out. *)
Definition attemptFanOut (w : World) : list Promise * World :=
  fanOut env (seedFor env options) (falInput prompt options)
         (race_timeout timeout)
         (Z.to_nat (numImages options imagesPerGeneration)) 0 w.

(** Lines 258-276: the outcome of one attempt. *)
Definition attemptOutcome (ps : list Promise) : Thrown + list string :=
  match snd (promise_all ps) with
  | inl e => inl e
  | inr results =>
      let urls := imageUrls results in
      if (List.length urls =? 0)%nat
      then inl (ThrownError (newError "No images were generated successfully"))
      else inr urls
  end.

(** Lines 219-294.  [remaining] is [maxRetries + 1 - attempt]; the list
    holds the delays slept before the retries. *)
Fixpoint loop (remaining attempt : nat) (lastError : option Thrown) (w : World)
    : (option Thrown + list string) * list Z * World :=
  match remaining with
  | O => (inl lastError, [], w)
  | S remaining' =>
      let slept := if (0 <? attempt)%nat
                   then [Z.min (1000 * 2 ^ (Z.of_nat attempt - 1)) 5000] else [] in
      let (ps, w') := attemptFanOut w in
      match attemptOutcome ps with
      | inr urls => (inr urls, slept, w')
      | inl error =>
          match isNonRetryableError error with
          | None => (inl (Some typeError), slept, w')
          | Some true => (inl (Some error), slept, w')
          | Some false =>
              if (attempt =? maxRetries)%nat
              then (inl (Some error), slept, w')
              else match loop remaining' (S attempt) (Some error) w' with
                   | (out, delays, w'') => (out, slept ++ delays, w'')
                   end
          end
      end
  end.

Definition generateImagesWithRetry (w : World)
    : (option Thrown + list string) * list Z * World :=
  loop (S maxRetries) 0%nat None w.
End GenerateImagesWithRetry.

(** Lines 325-398: the classifier of the handler. *)
Inductive ApiCategory :=
| api_network | api_authentication | api_rate_limit | api_validation
| api_generation | api_server.

Record ApiError := mkApiError {
  api_category : ApiCategory;
  api_retryable : bool;
  api_status : Z
}.

Definition processApiError (error : ErrorObj) : ApiError :=
  let lowerMessage := JsString.toLowerCase (orEmpty (message error)) in
  let has := JsString.includes lowerMessage in
  if has "timeout" || has "network"
  then {| api_category := api_network; api_retryable := true; api_status := 408 |}
  else if has "unauthorized" || has "api key"
  then {| api_category := api_authentication; api_retryable := false; api_status := 401 |}
  else if has "rate limit" || has "quota"
  then {| api_category := api_rate_limit; api_retryable := true; api_status := 429 |}
  else if has "invalid" || has "validation"
  then {| api_category := api_validation; api_retryable := true; api_status := 400 |}
  else if has "no images" || has "generation failed"
  then {| api_category := api_generation; api_retryable := true; api_status := 422 |}
  else {| api_category := api_server; api_retryable := true;
          api_status := RateLimiter.js_or (status error) 500 |}.

End GenerateImage.

(** ** hooks/useImageGeneration.js *)

Module ImageGeneration.
Import Js.

(** [result.metadata || { prompt, generation_time: Date.now(), ... }] *)
Inductive Metadata :=
| MetaGiven (json : string)
| MetaDefault (prompt : string) (generation_time : Z).

(** [result.generationId || `gen_${Date.now()}`] *)
Inductive GenerationId :=
| IdGiven (id : string)
| IdGen (time : Z).

Record GenerationResult := mkResult {
  images : list string;
  metadata : Metadata;
  generationId : GenerationId
}.

(** An entry of [generationHistoryRef]: the result spread, plus
    [timestamp]. *)
Record CacheEntry := mkEntry { entry_result : GenerationResult; timestamp : Z }.

(** [generationOptions] *)
Record GenOptions := mkGenOptions { forceRegenerate : bool }.

(** The React state of the hook. *)
Record Ui := mkUi {
  ui_prompt : string;
  ui_images : list string;
  ui_metadata : option Metadata;
  ui_generationId : option GenerationId;
  ui_loading : bool
}.

(** A call of [fetch('/api/generate-image', ...)]: the body that is sent
    and the abort controller whose signal it carries. *)
Record FetchCall := mkFetchCall {
  fc_prompt : string;
  fc_options : GenOptions;
  fc_controller : nat
}.

(** The refs and states of one mounted hook.  Abort controllers are
    numbered in the order of their creation; [aborted] lists the
    controllers on which [abort()] was called. *)
Record HookState := mkHook {
  history : gmap string CacheEntry;
  currentRequest : option nat;
  nextController : nat;
  aborted : list nat;
  fetches : list FetchCall;
  ui : Ui;
  error : option ErrorHandler.ProcessedError
}.

Definition initialUi : Ui :=
  {| ui_prompt := ""; ui_images := []; ui_metadata := None;
     ui_generationId := None; ui_loading := false |}.

Definition initialState : HookState :=
  {| history := ∅; currentRequest := None; nextController := 0;
     aborted := []; fetches := []; ui := initialUi; error := None |}.

(** The parsed body of a successful response; [body_imageUrls] is [None]
    when the field is missing or is not an array. *)
Record ResponseBody := mkBody {
  body_imageUrls : option (list string);
  body_metadata : option string;
  body_generationId : option string
}.

(** How a call of [fetch] ends. *)
Inductive FetchReply :=
| Throws (e : Thrown)            (* [fetch] or [response.json()] rejects *)
| NotOk (status : Z) (statusText : string) (errorField : option string)
| Ok (body : ResponseBody).

(** The environment: the reply to the [k]-th call of [fetch] and the
    reading of [Date.now()] when the reply is handled. *)
Definition Env : Type := nat -> FetchReply * Z.

Definition normalize (prompt : string) : string :=
  JsString.toLowerCase (JsString.trim prompt).

(** Lines 81-90 *)
Definition getCachedResult (prompt : string) (now : Z)
    (h : gmap string CacheEntry) : option CacheEntry :=
  match h !! normalize prompt with
  | Some cached => if now - timestamp cached <? 300000 then Some cached else None
  | None => None
  end.

(** Lines 97-103 *)
Definition cacheResult (prompt : string) (result : GenerationResult) (now : Z)
    (h : gmap string CacheEntry) : gmap string CacheEntry :=
  <[normalize prompt := {| entry_result := result; timestamp := now |}]> h.

(** Lines 110-135: [None] is [{ valid: true }], [Some msg] the error. *)
Definition validatePrompt (prompt : string) : option string :=
  let trimmedPrompt := JsString.trim prompt in
  if (String.length trimmedPrompt =? 0)%nat
  then Some "Please enter a prompt to generate images"%string
  else if (String.length trimmedPrompt <? 3)%nat
  then Some "Prompt must be at least 3 characters long"%string
  else if (500 <? String.length trimmedPrompt)%nat
  then Some "Prompt must be less than 500 characters"%string
  else None.

(** Lines 177-197: [generateFn] up to [await fetch(...)].  A request that
    is still pending is aborted, a new controller is created and [fetch]
    is called. *)
Definition generateFn_start (promptToUse : string) (opts : GenOptions)
    (st : HookState) : nat * HookState :=
  let aborted' := match currentRequest st with
                  | Some previous => aborted st ++ [previous]
                  | None => aborted st
                  end in
  let abortController := nextController st in
  (abortController,
   {| history := history st;
      currentRequest := Some abortController;
      nextController := S abortController;
      aborted := aborted';
      fetches := fetches st ++ [{| fc_prompt := promptToUse; fc_options := opts;
                                   fc_controller := abortController |}];
      ui := ui st;
      error := error st |}).

(** Lines 235-240: the [finally] block. *)
Definition finally (abortController : nat) (st : HookState) : HookState :=
  match currentRequest st with
  | Some c =>
      if (c =? abortController)%nat
      then {| history := history st; currentRequest := None;
              nextController := nextController st; aborted := aborted st;
              fetches := fetches st; ui := ui st; error := error st |}
      else st
  | None => st
  end.

Definition httpMessage (status : Z) (statusText : string) : string :=
  ("HTTP " +:+ pretty status +:+ ": " +:+ statusText)%string.

(** Lines 199-240: [generateFn] after the reply has arrived; [now] is the
    reading of [Date.now()] in this block. *)
Definition generateFn_finish (promptToUse : string) (abortController : nat)
    (reply : FetchReply) (now : Z) (st : HookState)
    : (Thrown + GenerationResult) * HookState :=
  match reply with
  | Throws e => (inl e, finally abortController st)
  | NotOk status statusText errorField =>
      let msg := match JsString.truthy errorField with
                 | Some m => m
                 | None => httpMessage status statusText
                 end in
      (inl (ThrownError (newError msg)), finally abortController st)
  | Ok body =>
      match body_imageUrls body with
      | None =>
          (inl (ThrownError
                  (newError "Invalid response format from image generation API")),
           finally abortController st)
      | Some urls =>
          let generationResult :=
            {| images := urls;
               metadata := match JsString.truthy (body_metadata body) with
                           | Some m => MetaGiven m
                           | None => MetaDefault promptToUse now
                           end;
               generationId := match JsString.truthy (body_generationId body) with
                               | Some id => IdGiven id
                               | None => IdGen now
                               end |} in
          let st' :=
            {| history := cacheResult promptToUse generationResult now (history st);
               currentRequest := currentRequest st;
               nextController := nextController st;
               aborted := aborted st;
               fetches := fetches st;
               ui := {| ui_prompt := ui_prompt (ui st);
                        ui_images := images generationResult;
                        ui_metadata := Some (metadata generationResult);
                        ui_generationId := Some (generationId generationResult);
                        ui_loading := false |};
               error := error st |} in
          (inr generationResult, finally abortController st')
      end
  end.

(** [generateFn] run from its call to its end, with the reply of the
    environment to this call of [fetch]. *)
Definition generateFn (env : Env) (promptToUse : string) (opts : GenOptions)
    (st : HookState) : (Thrown + GenerationResult) * HookState :=
  let (reply, now) := env (List.length (fetches st)) in
  let (abortController, st') := generateFn_start promptToUse opts st in
  generateFn_finish promptToUse abortController reply now st'.

Definition setError (e : option ErrorHandler.ProcessedError) (loading : bool)
    (st : HookState) : HookState :=
  {| history := history st; currentRequest := currentRequest st;
     nextController := nextController st; aborted := aborted st;
     fetches := fetches st;
     ui := {| ui_prompt := ui_prompt (ui st); ui_images := ui_images (ui st);
              ui_metadata := ui_metadata (ui st);
              ui_generationId := ui_generationId (ui st);
              ui_loading := loading |};
     error := e |}.

Definition setUi (u : Ui) (st : HookState) : HookState :=
  {| history := history st; currentRequest := currentRequest st;
     nextController := nextController st; aborted := aborted st;
     fetches := fetches st; ui := u; error := error st |}.

(** Line 144: [promptOverride || state.prompt] *)
Definition promptToUse (promptOverride : option string) (st : HookState)
    : string :=
  match JsString.truthy promptOverride with
  | Some p => p
  | None => ui_prompt (ui st)
  end.

(** What the promise returned by [generateImages] carries. *)
Inductive Returned :=
| RetUndefined                                  (* validation failed *)
| RetCached (cached : CacheEntry)
| RetExecuted (out : ErrorHandler.Outcome GenerationResult).

(** Lines 144-171: what [generateImages] does before it builds
    [generateFn]: [inl] is an early return, [inr] the prompt to generate
    for. *)
Definition precheck (promptOverride : option string) (opts : GenOptions)
    (now : Z) (st : HookState) : (Returned + string) * HookState :=
  let promptToUse := promptToUse promptOverride st in
  match validatePrompt promptToUse with
  | Some msg =>
      (inl RetUndefined,
       setError (Some (ErrorHandler.processError (ThrownString msg))) false st)
  | None =>
      match getCachedResult promptToUse now (history st) with
      | Some cached =>
          if negb (forceRegenerate opts)
          then (inl (RetCached cached),
                setUi {| ui_prompt := promptToUse;
                         ui_images := images (entry_result cached);
                         ui_metadata := Some (metadata (entry_result cached));
                         ui_generationId := Some (generationId (entry_result cached));
                         ui_loading := ui_loading (ui st) |} st)
          else (inr promptToUse,
                setError None true
                  (setUi {| ui_prompt := promptToUse; ui_images := ui_images (ui st);
                            ui_metadata := ui_metadata (ui st);
                            ui_generationId := ui_generationId (ui st);
                            ui_loading := true |} st))
      | None =>
          (inr promptToUse,
           setError None true
             (setUi {| ui_prompt := promptToUse; ui_images := ui_images (ui st);
                       ui_metadata := ui_metadata (ui st);
                       ui_generationId := ui_generationId (ui st);
                       ui_loading := true |} st))
      end
  end.

Section Hook.
(** The options of the hook and its environment. *)
Variable maxRetries : nat.
Variable baseDelay : Q.
Variable random : nat -> Q.
Variable env : Env.

(** Lines 143-254, run from the call to the settling of the returned
    promise, with no other call interleaved. *)
Definition generateImages (promptOverride : option string) (opts : GenOptions)
    (now : Z) (st : HookState)
    : Returned * list ErrorHandler.Event * HookState :=
  match precheck promptOverride opts now st with
  | (inl ret, st') => (ret, [], st')
  | (inr promptToUse, st') =>
      match ErrorHandler.executeWithErrorHandling
              (generateFn env promptToUse opts) maxRetries true baseDelay random st'
      with
      | (ErrorHandler.Rejected e, evs, st'') =>
          (RetExecuted (ErrorHandler.Rejected e), evs, setError (Some e) false st'')
      | (out, evs, st'') =>
          (RetExecuted out, evs, setError None (ui_loading (ui st'')) st'')
      end
  end.
End Hook.

(** The synchronous part of a call of [generateImages]: everything up to
    the first [await], which is the call of [fetch] inside [generateFn]
    (first iteration of the retry loop).  [inr c] is a call left pending
    on the fetch with controller [c]. *)
Definition generateImages_begin (promptOverride : option string)
    (opts : GenOptions) (now : Z) (st : HookState)
    : (Returned + nat) * HookState :=
  match precheck promptOverride opts now st with
  | (inl ret, st') => (inl ret, st')
  | (inr promptToUse, st') =>
      let (c, st'') := generateFn_start promptToUse opts st' in (inr c, st'')
  end.

End ImageGeneration.

(** ** utils/performance.js: [deduplicateRequests] *)

Module Performance.

Section Deduplicate.
Context {Args : Type}.
Variable keyGenerator : Args -> string.

(** The closure state of one wrapped function: the map of pending
    promises, and the calls of [requestFn] made so far.  A promise is
    named by the index of the call of [requestFn] that created it. *)
Record State := mkState {
  pendingRequests : gmap string nat;
  requests : list Args
}.

Definition empty : State := {| pendingRequests := ∅; requests := [] |}.

(** Lines 190-209: the promise handed to the caller follows the one
    returned here. *)
Definition deduplicatedRequest (args : Args) (st : State) : nat * State :=
  let key := keyGenerator args in
  match pendingRequests st !! key with
  | Some requestPromise => (requestPromise, st)
  | None =>
      let requestPromise := List.length (requests st) in
      (requestPromise,
       {| pendingRequests := <[key := requestPromise]> (pendingRequests st);
          requests := requests st ++ [args] |})
  end.

(** Lines 200-203: the [finally] callback of the request made for
    [args], run when it settles. *)
Definition settled (args : Args) (st : State) : State :=
  {| pendingRequests := delete (keyGenerator args) (pendingRequests st);
     requests := requests st |}.
End Deduplicate.

End Performance.

(** ** utils/rateLimiter.js: maintenance of the store *)

Module RateLimiterOps.
Import RateLimiter.

(** Line 95: [now - bucket.lastRefill > this.windowMs * 2] *)
Definition expired (L : Limiter) (now : Z) (b : Bucket) : bool :=
  windowMs L * 2 <? now - lastRefill b.

(** Lines 89-101: [cleanup] deletes the buckets that are expired. *)
Definition cleanup (L : Limiter) (now : Z) (store : gmap string Bucket)
    : gmap string Bucket :=
  filter (fun entry => expired L now (snd entry) = false) store.

(** Lines 160-162 *)
Definition resetRateLimit (key : string) (store : gmap string Bucket)
    : gmap string Bucket :=
  delete key store.

(** Lines 169-171: [None] is [null]. *)
Definition getRateLimitStatus (key : string) (store : gmap string Bucket)
    : option Bucket :=
  store !! key.

(** The number of calls of a sequence that were allowed. *)
Definition count_allowed (rs : list Result) : nat :=
  List.length (List.filter allowed rs).

End RateLimiterOps.

(** ** utils/api.js: the sliding-window limiter *)

Module ApiLimiter.

(** Lines 35-57: [isRateLimited]; the map holds, per identifier, the
    timestamps of the admitted requests. *)
Definition isRateLimited (identifier : string) (limit : Z) (now : Z)
    (requests : gmap string (list Z)) : bool * gmap string (list Z) :=
  let windowStart := now - 60000 in
  let userRequests := default [] (requests !! identifier) in
  let recentRequests :=
    List.filter (fun timestamp => windowStart <? timestamp) userRequests in
  if limit <=? Z.of_nat (List.length recentRequests)
  then (true, <[identifier := recentRequests]> requests)
  else (false, <[identifier := recentRequests ++ [now]]> requests).

(** The parts of a request that [getClientIdentifier] looks at. *)
Record Request := mkRequest {
  x_forwarded_for : option string;
  x_real_ip : option string;
  connection_remoteAddress : option string;
  socket_remoteAddress : option string
}.

(** Lines 234-245 *)
Definition getClientIdentifier (req : Request) : string :=
  match JsString.truthy (x_forwarded_for req) with
  | Some forwarded => JsString.trim (JsString.beforeComma forwarded)
  | None =>
    match JsString.truthy (x_real_ip req) with
    | Some realIp => realIp
    | None =>
      match JsString.truthy (connection_remoteAddress req) with
      | Some remoteAddress => remoteAddress
      | None =>
        match JsString.truthy (socket_remoteAddress req) with
        | Some remoteAddress => remoteAddress
        | None => "unknown"%string
        end
      end
    end
  end.

(** Lines 223-227 *)
Definition checkRateLimit (req : Request) (now : Z)
    (requests : gmap string (list Z)) : bool * gmap string (list Z) :=
  isRateLimited (getClientIdentifier req) Config.app_rateLimitPerMinute now requests.

(** A sequence of calls for one identifier with one limit: the answers,
    and the map after the last call. *)
Fixpoint answers (identifier : string) (limit : Z) (times : list Z)
    (requests : gmap string (list Z)) : list bool * gmap string (list Z) :=
  match times with
  | [] => ([], requests)
  | now :: rest =>
      let (limited, requests') := isRateLimited identifier limit now requests in
      let (bs, requests'') := answers identifier limit rest requests' in
      (limited :: bs, requests'')
  end.

End ApiLimiter.

(** ** utils/api.js: the HTTP client *)

Module ApiClient.
Import Js.

(** How a call of [fetch] ends, as far as [makeRequest] looks at it.  For
    a response that is not ok, [errorData] is the parsed body, or [{}]
    when the body cannot be parsed: [NotOk] carries what
    [errorData.error] (when truthy, as the message that the [Error]
    constructor makes of it) and [errorData.code] are, for any body other
    than [null]; [NotOkNull] is a body that parses to [null]. *)
Inductive Reply (A : Type) :=
| FetchRejects (e : ErrorObj)          (* [fetch] rejects with an [Error] *)
| NotOk (status : Z) (statusText : string)
        (errorField codeField : option string)
| NotOkNull (status : Z) (statusText : string)
| OkJson (data : A)
| OkBadJson (e : ErrorObj).            (* [response.json()] rejects *)
Arguments FetchRejects {A} _.
Arguments NotOk {A} _ _ _ _.
Arguments NotOkNull {A} _ _.
Arguments OkJson {A} _.
Arguments OkBadJson {A} _.

(** [new ApiError(message, status, code, retryable)] *)
Definition newApiError (message : string) (status : Z) (code : option string)
    (retryable : bool) : ErrorObj :=
  {| message := Some message; name := Some "ApiError"%string;
     status := Some status; code := code; apiRetryable := Some retryable |}.

(** [`${error.message}`] *)
Definition messageText (e : ErrorObj) : string :=
  match message e with Some m => m | None => "undefined"%string end.

(** Lines 184-190: the wrapping of an error that is not an [ApiError]. *)
Definition networkError (e : ErrorObj) : ErrorObj :=
  newApiError ("Network error: " +:+ messageText e) 0 (code e) true.

(** The [TypeError] thrown by [errorData.error] (line 171) when
    [errorData] is [null], with the message that V8 gives it. *)
Definition nullErrorData : ErrorObj :=
  {| message := Some "Cannot read properties of null (reading 'error')"%string;
     name := Some "TypeError"%string; status := None; code := None;
     apiRetryable := None |}.

(** Lines 150-192.  The [TypeError] of a [null] body is thrown inside the
    [try] block, so the [catch] block wraps it like a network error. *)
Definition makeRequest {A : Type} (reply : Reply A) : Thrown + A :=
  match reply with
  | FetchRejects e => inl (ThrownError (networkError e))
  | NotOkNull _ _ => inl (ThrownError (networkError nullErrorData))
  | NotOk status statusText errorField codeField =>
      let msg := match JsString.truthy errorField with
                 | Some m => m
                 | None => ImageGeneration.httpMessage status statusText
                 end in
      inl (ThrownError
             (newApiError msg status codeField
                (Api.isRetryableObj
                   {| message := None; name := None; status := Some status;
                      code := None; apiRetryable := None |})))
  | OkJson data => inr data
  | OkBadJson e => inl (ThrownError (networkError e))
  end.

(** Lines 208-213: [generateFn]; the world is the number of requests made
    so far and [env k] is the reply to request number [k]. *)
Definition generateFn {A : Type} (env : nat -> Reply A) (sent : nat)
    : (Thrown + A) * nat :=
  (makeRequest (env sent), S sent).

(** Lines 200-216: [generateImages], with [config.fal.retryAttempts]
    attempts and the default base delay. *)
Definition generateImages {A : Type} (env : nat -> Reply A) (sent : nat)
    : Api.Outcome A * list Api.Event * nat :=
  Api.retryWithBackoff (generateFn env) Config.fal_retryAttempts 1000%Q sent.

(** The delays of a run, in order. *)
Definition sleeps (evs : list Api.Event) : list Q :=
  omap (fun e => match e with Api.EvSleep d => Some d | Api.EvCall => None end) evs.

End ApiClient.

(** ** hooks/useErrorHandler.js: what a run slept *)

Module ErrorHandlerOps.

Definition sleeps (evs : list ErrorHandler.Event) : list Q :=
  omap (fun e => match e with ErrorHandler.EvSleep d => Some d | _ => None end) evs.

(** The attempts announced to [onRetry], in order. *)
Definition retries (evs : list ErrorHandler.Event) : list (nat * nat) :=
  omap (fun e => match e with
                 | ErrorHandler.EvOnRetry attempt maxRetries => Some (attempt, maxRetries)
                 | _ => None
                 end) evs.

(** An operation on a call counter whose outcome at call [k] is
    [script k]. *)
Definition scripted {A : Type} (script : nat -> Js.Thrown + A) (calls : nat)
    : (Js.Thrown + A) * nat :=
  (script calls, S calls).

(** The invocations of the operation and the sleeps of a run, in the
    order in which they happen. *)
Inductive Tick :=
| Invoke
| Sleep (delay : Q).

Definition timeline (evs : list ErrorHandler.Event) : list Tick :=
  omap (fun e => match e with
                 | ErrorHandler.EvCall => Some Invoke
                 | ErrorHandler.EvSleep d => Some (Sleep d)
                 | _ => None
                 end) evs.

(** One invocation, then for each delay one sleep followed by one
    invocation. *)
Definition alternating (delays : list Q) : list Tick :=
  Invoke :: flat_map (fun d => [Sleep d; Invoke]) delays.

End ErrorHandlerOps.

(** ** hooks/useImageGeneration.js: the other actions *)

Module HookOps.
Import ImageGeneration.

(** Lines 66-74 *)
Definition clearImages (st : HookState) : HookState :=
  {| history := ∅;
     currentRequest := currentRequest st;
     nextController := nextController st;
     aborted := aborted st;
     fetches := fetches st;
     ui := {| ui_prompt := ui_prompt (ui st); ui_images := [];
              ui_metadata := None; ui_generationId := None;
              ui_loading := ui_loading (ui st) |};
     error := error st |}.

(** Lines 286-293; [None] is an argument that is not an array. *)
Definition addImages (newImages : option (list string)) (st : HookState)
    : HookState :=
  match newImages with
  | None => st
  | Some new =>
      setUi {| ui_prompt := ui_prompt (ui st);
               ui_images := ui_images (ui st) ++ new;
               ui_metadata := ui_metadata (ui st);
               ui_generationId := ui_generationId (ui st);
               ui_loading := ui_loading (ui st) |} st
  end.

(** [images.filter((_, i) => i !== index)], with [i] the index of the
    head of the list. *)
Fixpoint filterIndex (i index : Z) (images : list string) : list string :=
  match images with
  | [] => []
  | image :: rest =>
      if i =? index then filterIndex (i + 1) index rest
      else image :: filterIndex (i + 1) index rest
  end.

(** Lines 299-304 *)
Definition removeImage (index : Z) (st : HookState) : HookState :=
  setUi {| ui_prompt := ui_prompt (ui st);
           ui_images := filterIndex 0 index (ui_images (ui st));
           ui_metadata := ui_metadata (ui st);
           ui_generationId := ui_generationId (ui st);
           ui_loading := ui_loading (ui st) |} st.

(** Lines 272-280 *)
Definition cancelGeneration (st : HookState) : HookState :=
  {| history := history st;
     currentRequest := None;
     nextController := nextController st;
     aborted := match currentRequest st with
                | Some c => aborted st ++ [c]
                | None => aborted st
                end;
     fetches := fetches st;
     ui := {| ui_prompt := ui_prompt (ui st); ui_images := ui_images (ui st);
              ui_metadata := ui_metadata (ui st);
              ui_generationId := ui_generationId (ui st);
              ui_loading := false |};
     error := None |}.

(** Lines 330-341 *)
Definition reset (st : HookState) : HookState :=
  let st' := cancelGeneration st in
  {| history := ∅;
     currentRequest := currentRequest st';
     nextController := nextController st';
     aborted := aborted st';
     fetches := fetches st';
     ui := initialUi;
     error := None |}.

(** Lines 310-325: the fields of [getStats] that come from the state. *)
Record Stats := mkStats {
  totalImages : nat;
  currentPrompt : string;
  isGenerating : bool;
  hasError : bool;
  cacheSize : nat
}.

Definition getStats (st : HookState) : Stats :=
  {| totalImages := List.length (ui_images (ui st));
     currentPrompt := ui_prompt (ui st);
     isGenerating := ui_loading (ui st);
     hasError := match error st with Some _ => true | None => false end;
     cacheSize := size (history st) |}.

End HookOps.

(** ** utils/performance.js: [memoize] *)

Module Memoize.

Section Memoize.
Context {Args R : Type}.
Variable fn : Args -> R.
Variable keyGenerator : Args -> string.

(** The closure state: the [Map], as the list of its entries in insertion
    order, and the arguments [fn] was called with. *)
Record State := mkState {
  cache : list (string * R);
  invoked : list Args
}.

Definition empty : State := {| cache := []; invoked := [] |}.

(** [cache.has(key)] and [cache.get(key)] *)
Fixpoint cacheGet (key : string) (entries : list (string * R)) : option R :=
  match entries with
  | [] => None
  | (k, v) :: rest => if String.eqb k key then Some v else cacheGet key rest
  end.

(** Lines 52-69.  The key is new when it is set, so [cache.set] puts the
    entry last; [cache.keys().next().value] is the key of the first
    entry. *)
Definition memoized (args : Args) (st : State) : R * State :=
  let key := keyGenerator args in
  match cacheGet key (cache st) with
  | Some result => (result, st)
  | None =>
      let result := fn args in
      let entries := cache st ++ [(key, result)] in
      let entries' := if (100 <? List.length entries)%nat
                      then List.tl entries else entries in
      (result, {| cache := entries'; invoked := invoked st ++ [args] |})
  end.

(** Every entry of the cache holds the value of [fn] for its key. *)
Definition cache_sound (entries : list (string * R)) : Prop :=
  Forall (fun entry => exists a, keyGenerator a = fst entry /\ snd entry = fn a)
         entries.

(** A sequence of calls. *)
Fixpoint calls (argss : list Args) (st : State) : list R * State :=
  match argss with
  | [] => ([], st)
  | args :: rest =>
      let (r, st') := memoized args st in
      let (rs, st'') := calls rest st' in
      (r :: rs, st'')
  end.
End Memoize.

End Memoize.

(** ** utils/config.js: the checks *)

Module ConfigOps.

(** Lines 26-28: [process.env.FAL_KEY || null] *)
Definition getFalApiKey (envFalKey : option string) : option string :=
  JsString.truthy envFalKey.

(** Lines 34-37 *)
Definition isConfigured (envFalKey : option string) : bool :=
  match getFalApiKey envFalKey with
  | Some apiKey => negb (String.eqb apiKey "your_fal_api_key_here")
  | None => false
  end.

(** [DEFAULT_CONFIG.app.maxPromptLength] *)
Definition app_maxPromptLength : Z := 500.

End ConfigOps.

(** ** utils/api.js: the requests a sequence of calls admitted *)

Module ApiLimiterLog.

(** The timestamps of the calls that were answered [false] (not limited). *)
Fixpoint admitted (times : list Z) (limited : list bool) : list Z :=
  match times, limited with
  | t :: times', b :: limited' =>
      if b then admitted times' limited' else t :: admitted times' limited'
  | _, _ => []
  end.

(** The timestamps of [l] that lie in the minute before [now]. *)
Definition recent (now : Z) (l : list Z) : list Z :=
  List.filter (fun timestamp => now - 60000 <? timestamp) l.

(** The clock readings of a sequence of calls never go back: each is at
    least [t0] and at least the one before. *)
Fixpoint nondecreasing (t0 : Z) (times : list Z) : Prop :=
  match times with
  | [] => True
  | t :: rest => t0 <= t /\ nondecreasing t rest
  end.

End ApiLimiterLog.

(** ** The delays of a retry schedule *)

Module RetrySchedule.

(** The delays of [utils/api.js] before the retries that follow the
    attempts [attempt], [attempt + 1], ... ([k] of them). *)
Definition api_delays (baseDelay : Q) (attempt k : nat) : list Q :=
  map (fun i => Api.calculateBackoffDelay (Z.of_nat (attempt + i)) baseDelay)
      (seq 0 k).

(** The same for the hook, whose attempt counter is incremented before the
    delay is computed and whose jitter is drawn per attempt. *)
Definition hook_delays (baseDelay : Q) (random : nat -> Q) (attempt k : nat)
    : list Q :=
  map (fun i => ErrorHandler.calculateBackoffDelay (Z.of_nat (S (attempt + i)))
                  baseDelay (random (S (attempt + i))))
      (seq 0 k).

(** Lines 106-109 of [utils/api.js] for an object that has only a
    [status]: the status is truthy and is one of the retryable ones. *)
Definition retryable_status (status : Z) : bool :=
  negb (status =? 0) && existsb (Z.eqb status) Api.retryableStatuses.

(** The replies after which [utils/api.js] tries again: a network failure,
    a response that is not ok with the body [null], or a response whose
    status is one of the retryable ones. *)
Definition reply_retryable {A : Type} (reply : ApiClient.Reply A) : bool :=
  match reply with
  | ApiClient.FetchRejects _ | ApiClient.OkBadJson _
  | ApiClient.NotOkNull _ _ => true
  | ApiClient.NotOk status _ _ _ => retryable_status status
  | ApiClient.OkJson _ => false
  end.

(** The words of the first three rules of [categorizeError]
    (configuration, validation, authentication). *)
Definition nonRetryableKeywords : list string :=
  ["configuration"; "api key"; "not configured"; "missing credentials";
   "validation"; "invalid"; "required"; "bad request";
   "unauthorized"; "authentication"]%string.

(** [message] mentions one of them, in any case. *)
Definition mentions (keywords : list string) (message : option string) : bool :=
  existsb (JsString.includes (JsString.toLowerCase (Js.orEmpty message))) keywords.

(** What [onRetry] is told when the loop is entered with the counter at
    [attempt]: nothing for the first attempt. *)
Definition announced (maxRetries attempt : nat) : list (nat * nat) :=
  if (0 <? attempt)%nat then [(attempt, maxRetries)] else [].

(** The announcements to [onRetry] for the attempts after [attempt]. *)
Definition hook_retries (maxRetries attempt k : nat) : list (nat * nat) :=
  map (fun i => (S (attempt + i), maxRetries)) (seq 0 k).

End RetrySchedule.

(** ** pages/api/generate-image.js: the schedule of the retry loop *)

Module ServerRetry.

(** Lines 221-226: what is slept on entering attempt [attempt]. *)
Definition sleepBefore (attempt : nat) : list Z :=
  if (0 <? attempt)%nat
  then [Z.min (1000 * 2 ^ (Z.of_nat attempt - 1)) 5000] else [].

(** The delays slept on entering the attempts [attempt], ..., [attempt + k - 1]. *)
Definition delays (attempt k : nat) : list Z :=
  flat_map sleepBefore (seq attempt k).

(** The promise that [Promise.race] gives when the timeout fires first. *)
Definition timedOut (timeout : Z) : GenerateImage.Promise :=
  {| GenerateImage.settledAt := timeout;
     GenerateImage.settled :=
       GenerateImage.RejectedWith (Js.ThrownError (Js.newError "Request timeout")) |}.

(** The provider answers no sub-call before the timeout. *)
Definition never_in_time (env : GenerateImage.Env) (timeout : Z) : Prop :=
  forall k input, timeout <= GenerateImage.settledAt (GenerateImage.fal_run env k input).

End ServerRetry.

(** ** utils/validation.js *)

Module Validation.

(** The values of a parsed JSON body, as far as the validators tell them
    apart.  [JsObject] is any object or array in a place where a primitive
    is expected.  A number too large for a double is read as [Infinity],
    which the validators treat like any non-zero number that is not an
    integer. *)
Inductive JsValue :=
| JsUndefined
| JsNull
| JsBool (b : bool)
| JsNumber (q : Q)
| JsStr (s : string)
| JsObject.

(** [new ValidationError(message, field, code)] *)
Record ValidationError := mkValidationError {
  v_message : string;
  v_field : option string;
  v_code : string
}.

(** [!v] *)
Definition falsy (v : JsValue) : bool :=
  match v with
  | JsUndefined | JsNull => true
  | JsBool b => negb b
  | JsNumber q => Qnum q =? 0
  | JsStr s => (String.length s =? 0)%nat
  | JsObject => false
  end.

(** [Number.isInteger(v)], with the integer. *)
Definition isInteger (v : JsValue) : option Z :=
  match v with
  | JsNumber q =>
      if Qnum q mod Zpos (Qden q) =? 0 then Some (Qnum q / Zpos (Qden q)) else None
  | _ => None
  end.

(** [\w] *)
Definition is_word (c : ascii) : bool :=
  let n := nat_of_ascii c in
  ((Nat.leb 48 n && Nat.leb n 57) || (Nat.leb 65 n && Nat.leb n 90)
   || (Nat.leb 97 n && Nat.leb n 122) || Nat.eqb n 95)%bool.

Definition wordish (c : option ascii) : bool :=
  match c with
  | Some c => is_word c
  | None => false
  end.

(** [\b] between two neighbouring characters ([None] is an end of the
    input). *)
Definition boundary (before after : option ascii) : bool :=
  xorb (wordish before) (wordish after).

(** [/\b(w1|...|wn)\b/i] matched at the start of [s], where [prev] is the
    character before [s]; the words are in lower case. *)
Definition matchHere (words : list string) (prev : option ascii) (s : string)
    : bool :=
  boundary prev (String.get 0 s) &&
  existsb (fun word =>
             JsString.startsWith word (JsString.toLowerCase s) &&
             boundary (String.get (String.length word - 1) s)
                      (String.get (String.length word) s))
          words.

(** [pattern.test(s)]: a match at some position. *)
Fixpoint test (words : list string) (prev : option ascii) (s : string) : bool :=
  matchHere words prev s ||
  match s with
  | EmptyString => false
  | String c rest => test words (Some c) rest
  end.

(** Lines 63-66 *)
Definition inappropriatePatterns : list (list string) :=
  [ ["nude"; "naked"; "nsfw"; "explicit"; "sexual"];
    ["violence"; "gore"; "blood"; "death"] ]%string.

Definition inappropriate (trimmedPrompt : string) : bool :=
  existsb (fun pattern => test pattern None trimmedPrompt) inappropriatePatterns.

(** The character before the end of [s], or [prev] for the empty string. *)
Fixpoint lastChar (prev : option ascii) (s : string) : option ascii :=
  match s with
  | EmptyString => prev
  | String c rest => lastChar (Some c) rest
  end.

(** All characters of [s] match [\w]. *)
Fixpoint allWord (s : string) : bool :=
  match s with
  | EmptyString => true
  | String c rest => is_word c && allWord rest
  end.

(** The error of lines 70-77. *)
Definition inappropriateContent : ValidationError :=
  mkValidationError "Prompt contains inappropriate content"
    (Some "prompt"%string) "INAPPROPRIATE_CONTENT".

(** Lines 25-85; [maxPromptLength] is [config.app.maxPromptLength]. *)
Definition validatePrompt (maxPromptLength : Z) (prompt : JsValue)
    : ValidationError + string :=
  if falsy prompt
  then inl (mkValidationError "Prompt is required" (Some "prompt"%string) "REQUIRED")
  else match prompt with
       | JsStr s =>
           let trimmedPrompt := JsString.trim s in
           if (String.length trimmedPrompt =? 0)%nat
           then inl (mkValidationError "Prompt cannot be empty"
                       (Some "prompt"%string) "EMPTY")
           else if maxPromptLength <? Z.of_nat (String.length trimmedPrompt)
           then inl (mkValidationError
                       ("Prompt must be " +:+ pretty maxPromptLength
                        +:+ " characters or less")
                       (Some "prompt"%string) "TOO_LONG")
           else if inappropriate trimmedPrompt
           then inl inappropriateContent
           else inr trimmedPrompt
       | _ => inl (mkValidationError "Prompt must be a string"
                     (Some "prompt"%string) "INVALID_TYPE")
       end.

(** [options.image_size]: a falsy value, a truthy primitive, or an object
    with its [width] and [height]. *)
Inductive SizeValue :=
| SizeFalsy
| SizePrimitive
| SizeObject (width height : JsValue).

(** [requestBody.options]: absent, [null], a primitive (truthy or not), or
    an object with the three properties that are read. *)
Inductive OptionsValue :=
| OptUndefined
| OptNull
| OptPrimitive (truthy : bool)
| OptObject (seed num_images : JsValue) (image_size : SizeValue).

(** [requestBody]: an object (or array) with its [prompt] and [options],
    or anything else. *)
Inductive Body :=
| BodyNotObject
| BodyObject (prompt : JsValue) (options : OptionsValue).

Inductive Validated :=
| Invalid (error : ValidationError)
| Valid (prompt : string) (options : GenerateImage.Options).

Definition noOptions : GenerateImage.Options :=
  {| GenerateImage.opt_seed := None; GenerateImage.opt_num_images := None;
     GenerateImage.opt_image_size := None |}.

(** Lines 117-124 *)
Definition validateSeed (seed : JsValue) : ValidationError + option Z :=
  match seed with
  | JsUndefined => inr None
  | _ => match isInteger seed with
         | Some s => if s <? 0 then inl (mkValidationError
                          "Seed must be a non-negative integer"
                          (Some "options.seed"%string) "INVALID_SEED")
                     else inr (Some s)
         | None => inl (mkValidationError "Seed must be a non-negative integer"
                          (Some "options.seed"%string) "INVALID_SEED")
         end
  end.

(** Lines 127-134 *)
Definition validateNumImages (num_images : JsValue) : ValidationError + option Z :=
  match num_images with
  | JsUndefined => inr None
  | _ => match isInteger num_images with
         | Some n => if (n <? 1) || (10 <? n)
                     then inl (mkValidationError
                                 "Number of images must be between 1 and 10"
                                 (Some "options.num_images"%string) "INVALID_COUNT")
                     else inr (Some n)
         | None => inl (mkValidationError
                          "Number of images must be between 1 and 10"
                          (Some "options.num_images"%string) "INVALID_COUNT")
         end
  end.

(** Lines 137-153 *)
Definition validateImageSize (image_size : SizeValue)
    : ValidationError + option GenerateImage.ImageSize :=
  let dimensions (width height : JsValue) :=
    match isInteger width, isInteger height with
    | Some w, Some h =>
        if (w <? 256) || (2048 <? w) || (h <? 256) || (2048 <? h)
        then inl (mkValidationError
                    "Image dimensions must be between 256 and 2048 pixels"
                    (Some "options.image_size"%string) "INVALID_SIZE")
        else inr (Some (GenerateImage.mkImageSize w h))
    | _, _ => inl (mkValidationError "Image dimensions must be integers"
                     (Some "options.image_size"%string) "INVALID_DIMENSIONS")
    end in
  match image_size with
  | SizeFalsy => inr None
  | SizePrimitive => dimensions JsUndefined JsUndefined
  | SizeObject width height => dimensions width height
  end.

(** Lines 92-162.  [None] is the [TypeError] thrown by line 117 when
    [options] is [null]. *)
Definition validateGenerateImageRequest (maxPromptLength : Z) (requestBody : Body)
    : option Validated :=
  match requestBody with
  | BodyNotObject =>
      Some (Invalid (mkValidationError "Request body must be an object" None
                       "INVALID_BODY"))
  | BodyObject prompt options =>
      match validatePrompt maxPromptLength prompt with
      | inl error => Some (Invalid error)
      | inr data =>
          match options with
          | OptNull => None
          | OptPrimitive true =>
              Some (Invalid (mkValidationError "Options must be an object"
                               (Some "options"%string) "INVALID_TYPE"))
          | OptUndefined | OptPrimitive false => Some (Valid data noOptions)
          | OptObject seed num_images image_size =>
              match validateSeed seed with
              | inl error => Some (Invalid error)
              | inr seed' =>
                  match validateNumImages num_images with
                  | inl error => Some (Invalid error)
                  | inr num_images' =>
                      match validateImageSize image_size with
                      | inl error => Some (Invalid error)
                      | inr image_size' =>
                          Some (Valid data
                                  {| GenerateImage.opt_seed := seed';
                                     GenerateImage.opt_num_images := num_images';
                                     GenerateImage.opt_image_size := image_size' |})
                      end
                  end
              end
          end
      end
  end.

(** Lines 170-183, for [allowedMethods = ['POST']]. *)
Definition validateHttpMethod (method : string) : option ValidationError :=
  if String.eqb method "POST" then None
  else Some (mkValidationError
               ("Method " +:+ method +:+ " not allowed. Allowed methods: POST")
               (Some "method"%string) "METHOD_NOT_ALLOWED").

(** The error thrown by line 117 for [options = null]. *)
Definition typeError : Js.Thrown :=
  Js.ThrownError
    {| Js.message := Some "Cannot read properties of null (reading 'seed')"%string;
       Js.name := Some "TypeError"%string; Js.status := None; Js.code := None;
       Js.apiRetryable := None |}.

End Validation.

(** ** pages/api/generate-image.js: the handler *)

Module Handler.

Record Request := mkRequest {
  method : string;
  client : RateLimiter.Request;
  body : Validation.Body
}.

(** What the handler shares between requests: the store of the rate
    limiter and the provider; [slept] collects the delays of the retry
    loop. *)
Record Server := mkServer {
  store : gmap string RateLimiter.Bucket;
  world : GenerateImage.World;
  slept : list Z
}.

(** The JSON of [sendErrorResponse], without [timestamp], [details] and
    [setup]. *)
Record ErrorJson := mkErrorJson {
  error : string;
  category : string;
  retryable : bool;
  field : option string;
  code : option string;
  retryAfter : option Z;
  resetTime : option Z
}.

Inductive ResponseBody :=
| NoBody
| Failure (json : ErrorJson)
| Success (imageUrls : list string) (prompt : string) (generation_time : Z)
          (images_count : nat).

(** [rateLimit] is the result whose values were written to the
    [X-RateLimit-*] headers, if they were. *)
Record Response := mkResponse {
  statusCode : Z;
  rateLimit : option RateLimiter.Result;
  responseBody : ResponseBody
}.

(** Line 144 of [utils/rateLimiter.js]: [new RateLimiter()] *)
Definition globalRateLimiter : RateLimiter.Limiter :=
  RateLimiter.constructor None None Config.app_rateLimitPerMinute.

Definition categoryName (c : GenerateImage.ApiCategory) : string :=
  match c with
  | GenerateImage.api_network => "network"
  | GenerateImage.api_authentication => "authentication"
  | GenerateImage.api_rate_limit => "rate_limit"
  | GenerateImage.api_validation => "validation"
  | GenerateImage.api_generation => "generation"
  | GenerateImage.api_server => "server"
  end.

(** The message that [processApiError] gives with each category. *)
Definition apiMessage (c : GenerateImage.ApiCategory) (message : option string)
    : string :=
  match c with
  | GenerateImage.api_network => "Request timed out. Please try again."
  | GenerateImage.api_authentication =>
      "Authentication failed. Please check API configuration."
  | GenerateImage.api_rate_limit =>
      "Rate limit exceeded. Please wait before trying again."
  | GenerateImage.api_validation => "Invalid request. Please check your input."
  | GenerateImage.api_generation =>
      "Image generation failed. Please try a different prompt."
  | GenerateImage.api_server =>
      match JsString.truthy message with
      | Some m => m
      | None => "Failed to generate images"
      end
  end%string.

(** The properties that [processApiError] reads from what was thrown.  A
    string, [null] and [undefined] have none; for them the function
    returns the same as for an object without properties. *)
Definition thrownObj (e : option Js.Thrown) : Js.ErrorObj :=
  match e with
  | Some (Js.ThrownError o) | Some (Js.ThrownObject o) => o
  | _ => {| Js.message := None; Js.name := None; Js.status := None;
            Js.code := None; Js.apiRetryable := None |}
  end.

(** Lines 195-202: the [catch] block. *)
Definition catch (headers : option RateLimiter.Result) (e : option Js.Thrown)
    : Response :=
  let o := thrownObj e in
  let processedError := GenerateImage.processApiError o in
  {| statusCode := GenerateImage.api_status processedError;
     rateLimit := headers;
     responseBody :=
       Failure {| error := apiMessage (GenerateImage.api_category processedError)
                             (Js.message o);
                  category := categoryName (GenerateImage.api_category processedError);
                  retryable := GenerateImage.api_retryable processedError;
                  field := None; code := None; retryAfter := None;
                  resetTime := None |} |}.

(** Lines 77-203.  [startTime], [now] and [endTime] are the readings of
    [Date.now()] by the handler, by the rate limiter and after the
    generation; [falKey] is [process.env.FAL_KEY]. *)
Definition handler (env : GenerateImage.Env) (falKey : option string)
    (startTime now endTime : Z) (req : Request) (sv : Server)
    : Response * Server :=
  if String.eqb (method req) "OPTIONS"
  then ({| statusCode := 200; rateLimit := None; responseBody := NoBody |}, sv)
  else
  match Validation.validateHttpMethod (method req) with
  | Some methodError =>
      ({| statusCode := 405; rateLimit := None;
          responseBody :=
            Failure {| error := Validation.v_message methodError;
                       category := "validation"; retryable := false;
                       field := None; code := None; retryAfter := None;
                       resetTime := None |} |}, sv)
  | None =>
      let (rateLimitResult, store') :=
        RateLimiter.checkRateLimit globalRateLimiter
          RateLimiter.defaultKeyGenerator (client req) now (store sv) in
      let sv' := {| store := store'; world := world sv; slept := slept sv |} in
      if negb (RateLimiter.allowed rateLimitResult)
      then ({| statusCode := 429; rateLimit := Some rateLimitResult;
               responseBody :=
                 Failure {| error := "Too many requests. Please wait before trying again.";
                            category := "rate_limit"; retryable := true;
                            field := None; code := None;
                            retryAfter := RateLimiter.retryAfter rateLimitResult;
                            resetTime := Some (RateLimiter.resetTime rateLimitResult) |} |},
            sv')
      else if negb (ConfigOps.isConfigured falKey)
      then ({| statusCode := 500; rateLimit := Some rateLimitResult;
               responseBody :=
                 Failure {| error := "Server not properly configured. Please check API key setup.";
                            category := "configuration"; retryable := false;
                            field := None; code := None; retryAfter := None;
                            resetTime := None |} |}, sv')
      else
      match Validation.validateGenerateImageRequest ConfigOps.app_maxPromptLength
              (body req) with
      | None => (catch (Some rateLimitResult) (Some Validation.typeError), sv')
      | Some (Validation.Invalid inputError) =>
          ({| statusCode := 400; rateLimit := Some rateLimitResult;
              responseBody :=
                Failure {| error := Validation.v_message inputError;
                           category := "validation"; retryable := true;
                           field := JsString.truthy (Validation.v_field inputError);
                           code := JsString.truthy (Some (Validation.v_code inputError));
                           retryAfter := None; resetTime := None |} |}, sv')
      | Some (Validation.Valid prompt options) =>
          match GenerateImage.generateImagesWithRetry env prompt
                  Config.fal_retryAttempts Config.fal_timeout options
                  Config.app_imagesPerGeneration (world sv) with
          | (inr imageUrls, delays, w') =>
              ({| statusCode := 200; rateLimit := Some rateLimitResult;
                  responseBody := Success imageUrls prompt (endTime - startTime)
                                    (List.length imageUrls) |},
               {| store := store'; world := w'; slept := slept sv ++ delays |})
          | (inl thrown, delays, w') =>
              (catch (Some rateLimitResult) thrown,
               {| store := store'; world := w'; slept := slept sv ++ delays |})
          end
      end
  end.

(** The provider calls that a response cost. *)
Definition providerCalls (before after : Server) : nat :=
  (List.length (GenerateImage.calls (world after))
   - List.length (GenerateImage.calls (world before)))%nat.

(** A sequence of requests, each with its three clock readings. *)
Fixpoint serve (env : GenerateImage.Env) (falKey : option string)
    (reqs : list (Z * Z * Z * Request)) (sv : Server) : list Response * Server :=
  match reqs with
  | [] => ([], sv)
  | (startTime, now, endTime, req) :: rest =>
      let (response, sv1) := handler env falKey startTime now endTime req sv in
      let (responses, sv2) := serve env falKey rest sv1 in
      (response :: responses, sv2)
  end.

(** The answers of the handler's own rate limiter: the only ones that
    carry [resetTime]. *)
Definition rateLimited (response : Response) : bool :=
  match responseBody response with
  | Failure json => bool_decide (is_Some (resetTime json))
  | _ => false
  end.

(** The responses that the rate limiter did not turn down. *)
Definition admitted (responses : list Response) : nat :=
  List.length (List.filter (fun response => negb (rateLimited response)) responses).

(** The clock reading of the rate limiter in an entry of [serve]. *)
Definition limiterClock (entry : Z * Z * Z * Request) : Z := snd (fst (fst entry)).

(** An entry of [serve] is a POST of the client with the given key. *)
Definition postFrom (key : string) (entry : Z * Z * Z * Request) : Prop :=
  method (snd entry) = "POST"%string /\
  RateLimiter.defaultKeyGenerator (client (snd entry)) = key.

End Handler.

(** ** utils/performance.js: a history of a deduplicated function *)

Module Deduplicate.

Section Run.
Context {Args : Type}.
Variable keyGenerator : Args -> string.

(** What happens to one wrapped function: it is called, or the request
    made for some arguments settles and its [finally] callback runs. *)
Inductive Event :=
| Call (args : Args)
| Settle (args : Args).

(** The promises handed to the callers, in order, and the final state. *)
Fixpoint run (events : list Event) (st : Performance.State)
    : list nat * Performance.State :=
  match events with
  | [] => ([], st)
  | Call args :: rest =>
      let (requestPromise, st1) :=
        Performance.deduplicatedRequest keyGenerator args st in
      let (promises, st2) := run rest st1 in
      (requestPromise :: promises, st2)
  | Settle args :: rest => run rest (Performance.settled keyGenerator args st)
  end.

(** The arguments of the calls of a history. *)
Fixpoint callArgs (events : list Event) : list Args :=
  match events with
  | [] => []
  | Call args :: rest => args :: callArgs rest
  | Settle _ :: rest => callArgs rest
  end.

(** Every pending promise belongs to a request made for its key. *)
Definition pending_ok (st : Performance.State) : Prop :=
  forall key requestPromise,
    Performance.pendingRequests st !! key = Some requestPromise ->
    exists args, Performance.requests st !! requestPromise = Some args /\
                 keyGenerator args = key.
End Run.

End Deduplicate.

(** ** hooks/useImageGeneration.js: calls of [generateImages] that overlap *)

(** [ImageGeneration.generateImages] runs one call from its start to its
    end.  Here a call is cut at its [await]s (lines 187 and 200-204 of
    [useImageGeneration.js], lines 93 and 121-123 of [useErrorHandler.js]),
    and the pieces of several calls run in any order over the refs that
    the calls share: [generationHistoryRef], [currentRequestRef] and the
    [retryTimeoutRef] of the error handler.  The pieces are those of
    [ImageGeneration]: [precheck], [generateFn_start] and
    [generateFn_finish]. *)

Module Interleaving.
Import Js ImageGeneration.

(** Where a call of [generateImages] stands.  A call runs without
    interruption from one [await] to the next; between two of them any
    other call may run.  [currentAttempt] is the variable of
    [executeWithErrorHandling]. *)
Inductive Call :=
| Fetching (prompt : string) (opts : GenOptions) (currentAttempt : nat)
           (abortController : nat)
    (* inside [generateFn], waiting for [fetch] and for the body *)
| Settled (prompt : string) (opts : GenOptions) (currentAttempt : nat)
          (outcome : Thrown + GenerationResult)
    (* [generateFn] has settled, line 96 or line 104 has not run yet *)
| Sleeping (prompt : string) (opts : GenOptions) (currentAttempt : nat)
           (timer : nat) (delay : Q)
    (* waiting for the timer of line 122 *)
| Finished (returned : Returned).

(** The hook with the refs of its error handler, and the calls made so
    far.  Timers are numbered in the order of their creation; [cleared]
    lists the timers on which [clearTimeout] was called. *)
Record Config := mkConfig {
  hook : HookState;
  retryTimeout : option nat;
  nextTimer : nat;
  cleared : list nat;
  calls : list Call
}.

Definition initial : Config :=
  {| hook := initialState; retryTimeout := None; nextTimer := 0;
     cleared := []; calls := [] |}.

(** What can happen next: a caller calls [generateImages]; the request of
    a call is answered (or fails, for instance because it was aborted);
    the continuation of a call whose [generateFn] has settled runs; the
    retry timer of a call fires.  The other actions of the hook ([retry],
    [cancelGeneration], [reset], ...) are not part of these histories. *)
Inductive Event :=
| Start (promptOverride : option string) (opts : GenOptions) (now : Z)
| Reply (call : nat) (reply : FetchReply) (now : Z)
| Resume (call : nat) (random : Q)
| Fire (call : nat).

(** [useErrorHandler.js] lines 38-42: the part of [clearError] that
    concerns the retry timer. *)
Definition clearRetryTimeout (c : Config) : option nat * list nat :=
  match retryTimeout c with
  | Some timer => (None, cleared c ++ [timer])
  | None => (None, cleared c)
  end.

Section Step.
(** The options of the error handler. *)
Variable maxRetries : nat.
Variable baseDelay : Q.

(** A call from its start to its first [await]: lines 144-173, lines
    78-93 of [executeWithErrorHandling] and lines 177-197 of
    [generateFn]. *)
Definition start (promptOverride : option string) (opts : GenOptions) (now : Z)
    (c : Config) : Config :=
  match precheck promptOverride opts now (hook c) with
  | (inl returned, h) =>
      {| hook := h; retryTimeout := retryTimeout c; nextTimer := nextTimer c;
         cleared := cleared c; calls := calls c ++ [Finished returned] |}
  | (inr prompt, h) =>
      let (abortController, h') := generateFn_start prompt opts h in
      {| hook := h'; retryTimeout := fst (clearRetryTimeout c);
         nextTimer := nextTimer c; cleared := snd (clearRetryTimeout c);
         calls := calls c ++ [Fetching prompt opts 0 abortController] |}
  end.

(** Lines 199-240 of [generateFn], run when its request is answered. *)
Definition reply (call : nat) (r : FetchReply) (now : Z) (c : Config)
    : option Config :=
  match calls c !! call with
  | Some (Fetching prompt opts currentAttempt abortController) =>
      let (outcome, h) := generateFn_finish prompt abortController r now (hook c) in
      Some {| hook := h; retryTimeout := retryTimeout c; nextTimer := nextTimer c;
              cleared := cleared c;
              calls := <[call := Settled prompt opts currentAttempt outcome]> (calls c) |}
  | _ => None
  end.

(** Lines 96-123 of [executeWithErrorHandling] (with [autoRetry] left at
    its default), and the return of [generateImages] when the executor
    returns or throws. *)
Definition resume (call : nat) (random : Q) (c : Config) : option Config :=
  match calls c !! call with
  | Some (Settled prompt opts currentAttempt (inr result)) =>
      Some {| hook := setError None (ui_loading (ui (hook c))) (hook c);
              retryTimeout := fst (clearRetryTimeout c);
              nextTimer := nextTimer c; cleared := snd (clearRetryTimeout c);
              calls := <[call := Finished (RetExecuted (ErrorHandler.Resolved result))]>
                         (calls c) |}
  | Some (Settled prompt opts currentAttempt (inl error)) =>
      let currentAttempt' := S currentAttempt in
      let processedError := ErrorHandler.processError error in
      if (maxRetries <? currentAttempt')%nat
         || negb (ErrorHandler.p_retryable processedError)
      then Some {| hook := setError (Some processedError) false (hook c);
                   retryTimeout := retryTimeout c; nextTimer := nextTimer c;
                   cleared := cleared c;
                   calls := <[call := Finished
                                         (RetExecuted
                                            (ErrorHandler.Rejected processedError))]>
                              (calls c) |}
      else
        let delay := ErrorHandler.calculateBackoffDelay (Z.of_nat currentAttempt')
                       baseDelay random in
        Some {| hook := hook c; retryTimeout := Some (nextTimer c);
                nextTimer := S (nextTimer c); cleared := cleared c;
                calls := <[call := Sleeping prompt opts currentAttempt'
                                     (nextTimer c) delay]> (calls c) |}
  | _ => None
  end.

(** The timer of line 122 fires, unless it was cleared, and the loop
    calls [generateFn] again (lines 85-93 and 177-197). *)
Definition fire (call : nat) (c : Config) : option Config :=
  match calls c !! call with
  | Some (Sleeping prompt opts currentAttempt timer delay) =>
      if bool_decide (timer ∈ cleared c) then None
      else
        let (abortController, h) := generateFn_start prompt opts (hook c) in
        Some {| hook := h; retryTimeout := retryTimeout c; nextTimer := nextTimer c;
                cleared := cleared c;
                calls := <[call := Fetching prompt opts currentAttempt abortController]>
                           (calls c) |}
  | _ => None
  end.

(** One event; [None] when it cannot happen in [c]. *)
Definition step (e : Event) (c : Config) : option Config :=
  match e with
  | Start promptOverride opts now => Some (start promptOverride opts now c)
  | Reply call r now => reply call r now c
  | Resume call random => resume call random c
  | Fire call => fire call c
  end.

(** A history of events. *)
Fixpoint run (events : list Event) (c : Config) : option Config :=
  match events with
  | [] => Some c
  | e :: rest =>
      match step e c with
      | Some c' => run rest c'
      | None => None
      end
  end.

(** What holds of the calls of every configuration that a history
    reaches: the attempt counters are in range, the controller of a
    pending request has been created, and it is the current one or has
    been aborted. *)
Definition call_ok (h : HookState) (call : Call) : Prop :=
  match call with
  | Fetching _ _ currentAttempt abortController =>
      (currentAttempt <= maxRetries)%nat /\
      (abortController < nextController h)%nat /\
      (currentRequest h = Some abortController \/ abortController ∈ aborted h)
  | Settled _ _ currentAttempt _ => (currentAttempt <= maxRetries)%nat
  | Sleeping _ _ currentAttempt _ _ => (1 <= currentAttempt <= maxRetries)%nat
  | Finished _ => True
  end.

(** The calls that are not the owner of [abortController]. *)
Definition other_controller (abortController : nat) (call : Call) : Prop :=
  match call with
  | Fetching _ _ _ c' => c' <> abortController
  | _ => True
  end.

Definition wf (c : Config) : Prop :=
  Forall (call_ok (hook c)) (calls c) /\
  forall i j prompt opts currentAttempt abortController call,
    calls c !! i = Some (Fetching prompt opts currentAttempt abortController) ->
    calls c !! j = Some call -> i <> j ->
    other_controller abortController call.

(** The calls of [fetch] that a call can still make. *)
Definition fetchesLeft (call : Call) : nat :=
  match call with
  | Fetching _ _ currentAttempt _ | Settled _ _ currentAttempt _ =>
      (maxRetries - currentAttempt)%nat
  | Sleeping _ _ currentAttempt _ _ => (S maxRetries - currentAttempt)%nat
  | Finished _ => 0%nat
  end.

Definition budget (c : Config) : nat :=
  (List.length (fetches (hook c)) + sum_list (fetchesLeft <$> calls c))%nat.
End Step.

Section Solo.
Variable maxRetries : nat.
Variable env : Env.
Variable random : nat -> Q.
Variable call : nat.
Variable prompt : string.
Variable opts : GenOptions.

(** The history of a call that runs alone, from its first [await] on:
    [st] is the state of the hook when [generateFn] is called for the
    attempt [currentAttempt], and [remaining] is as in
    [ErrorHandler.loop]. *)
Fixpoint soloEvents (remaining currentAttempt : nat) (st : HookState)
    : list Event :=
  match remaining with
  | O => []
  | S remaining' =>
      let (outcome, st') := generateFn env prompt opts st in
      Reply call (fst (env (List.length (fetches st))))
                 (snd (env (List.length (fetches st))))
      :: Resume call (random (S currentAttempt))
      :: match outcome with
         | inr _ => []
         | inl error =>
             if (maxRetries <? S currentAttempt)%nat
                || negb (ErrorHandler.p_retryable (ErrorHandler.processError error))
             then []
             else Fire call :: soloEvents remaining' (S currentAttempt) st'
         end
  end.
End Solo.

(** The timers that were cleared, and the one that the ref holds, have
    been created. *)
Definition timers_ok (c : Config) : Prop :=
  Forall (fun timer => (timer < nextTimer c)%nat) (cleared c) /\
  forall timer, retryTimeout c = Some timer -> (timer < nextTimer c)%nat.

(** No caller calls [generateImages] in the history. *)
Definition noStart (events : list Event) : Prop :=
  Forall (fun e => match e with Start _ _ _ => False | _ => True end) events.

(** Every call has returned. *)
Definition quiescent (c : Config) : Prop :=
  Forall (fun call => match call with Finished _ => True | _ => False end) (calls c).

(** The rejection of a request that was aborted: an [AbortError], here
    with the message of one engine. *)
Definition abortError : Thrown :=
  ThrownError {| message := Some "The operation was aborted."%string;
                 name := Some "AbortError"%string; status := None; code := None;
                 apiRetryable := None |}.

End Interleaving.

(** ** Inputs of the scenarios *)

Module Scenario.

(** [{ message: "Unauthorized: invalid api key" }] *)
Definition invalid_api_key : Js.ErrorObj :=
  {| Js.message := Some "Unauthorized: invalid api key"%string;
     Js.name := None; Js.status := None; Js.code := None;
     Js.apiRetryable := None |}.

(** An operation on a call counter that always fails with [e]. *)
Definition always_fails (e : Js.Thrown) (calls : nat) : (Js.Thrown + unit) * nat :=
  (inl e, S calls).

(** A provider whose sub-call number 1 rejects, at 10 ms, while the
    other sub-calls deliver an image at 50 ms. *)
Definition good_reply : GenerateImage.Promise :=
  {| GenerateImage.settledAt := 50;
     GenerateImage.settled :=
       GenerateImage.Fulfilled
         (Some {| GenerateImage.images :=
                    Some [ {| GenerateImage.url := Some "https://img"%string |} ] |}) |}.

Definition one_rejection (error : Js.Thrown) : GenerateImage.Env :=
  {| GenerateImage.fal_run := fun k _ =>
       if (k =? 1)%nat
       then {| GenerateImage.settledAt := 10;
               GenerateImage.settled := GenerateImage.RejectedWith error |}
       else good_reply;
     GenerateImage.random := fun k => 100 * Z.of_nat k + 5 |}.

(** A provider whose sub-call number 1 delivers a result without URL. *)
Definition one_null_url : GenerateImage.Env :=
  {| GenerateImage.fal_run := fun k _ =>
       if (k =? 1)%nat
       then {| GenerateImage.settledAt := 40;
               GenerateImage.settled :=
                 GenerateImage.Fulfilled
                   (Some {| GenerateImage.images :=
                              Some [ {| GenerateImage.url := None |} ] |}) |}
       else good_reply;
     GenerateImage.random := fun k => 100 * Z.of_nat k + 5 |}.

Definition invalid_seed : Js.Thrown := Js.ThrownError (Js.newError "Invalid seed").

Definition four_images : GenerateImage.Options :=
  {| GenerateImage.opt_seed := None;
     GenerateImage.opt_num_images := Some 4;
     GenerateImage.opt_image_size := None |}.

(** A hook that has cached a result for "a cat" at time 0. *)
Definition cat_result : ImageGeneration.GenerationResult :=
  {| ImageGeneration.images := ["https://img/cat"%string];
     ImageGeneration.metadata := ImageGeneration.MetaDefault "A cat" 0;
     ImageGeneration.generationId := ImageGeneration.IdGen 0 |}.

Definition cat_cached : ImageGeneration.HookState :=
  {| ImageGeneration.history :=
       {[ "a cat"%string := ImageGeneration.mkEntry cat_result 0 ]};
     ImageGeneration.currentRequest := None;
     ImageGeneration.nextController := 1;
     ImageGeneration.aborted := [];
     ImageGeneration.fetches :=
       [ImageGeneration.mkFetchCall "A cat" (ImageGeneration.mkGenOptions false) 0];
     ImageGeneration.ui := ImageGeneration.initialUi;
     ImageGeneration.error := None |}.

(** A server that always answers with one image, at time 5000. *)
Definition one_image : ImageGeneration.Env :=
  fun _ => (ImageGeneration.Ok
              {| ImageGeneration.body_imageUrls := Some ["https://img/new"%string];
                 ImageGeneration.body_metadata := None;
                 ImageGeneration.body_generationId := None |}, 5000).

(** Two overlapping calls for the key "a cat" whose requests are rejected
    when they are aborted, as [fetch] does: each retry of one call aborts
    the request of the other, until the first call has used its four
    attempts; the last request of the second call is answered. *)
Definition one_url : ImageGeneration.ResponseBody :=
  {| ImageGeneration.body_imageUrls := Some ["https://img/cat"%string];
     ImageGeneration.body_metadata := None;
     ImageGeneration.body_generationId := None |}.

Definition pingPong : list Interleaving.Event :=
  let aborted call now :=
    [Interleaving.Reply call (ImageGeneration.Throws Interleaving.abortError) now;
     Interleaving.Resume call 0] in
  aborted 0%nat 2 ++ [Interleaving.Fire 0%nat] ++
  aborted 1%nat 3 ++ [Interleaving.Fire 1%nat] ++
  aborted 0%nat 4 ++ [Interleaving.Fire 0%nat] ++
  aborted 1%nat 5 ++ [Interleaving.Fire 1%nat] ++
  aborted 0%nat 6 ++ [Interleaving.Fire 0%nat] ++
  aborted 1%nat 7 ++ [Interleaving.Fire 1%nat] ++
  aborted 0%nat 8 ++
  [Interleaving.Reply 1%nat (ImageGeneration.Ok one_url) 9;
   Interleaving.Resume 1%nat 0].

End Scenario.

(** * Properties *)

(** ** The rate limiter *)

Section RateLimiterFacts.
Import RateLimiter.

Variable L : Limiter.

Lemma refill_ok now b :
  0 <= maxRequests L -> bucket_ok L b -> bucket_ok L (refill L now b).
Proof.
  unfold bucket_ok, refill. intros Hcap [Hlo Hhi].
  destruct (Z.ltb_spec 0 ((now - lastRefill b) / windowMs L * maxRequests L));
    simpl; lia.
Qed.

Lemma getOrCreate_ok now key store :
  0 <= maxRequests L -> store_ok L store ->
  bucket_ok L (getOrCreate L now key store).
Proof.
  unfold getOrCreate. intros Hcap Hst.
  destruct (store !! key) as [b|] eqn:E.
  - exact (Hst _ _ E).
  - unfold bucket_ok; simpl; lia.
Qed.

Lemma store_ok_insert key b store :
  bucket_ok L b -> store_ok L store -> store_ok L (<[key := b]> store).
Proof.
  intros Hb Hst k b' Hk.
  destruct (decide (key = k)) as [->|Hne].
  - rewrite lookup_insert_eq in Hk. by inversion Hk; subst.
  - rewrite lookup_insert_ne in Hk by done. exact (Hst _ _ Hk).
Qed.

Lemma checkKey_ok key now store :
  0 <= maxRequests L -> store_ok L store ->
  store_ok L (snd (checkKey L key now store)).
Proof.
  intros Hcap Hst. unfold checkKey.
  pose proof (refill_ok now _ Hcap (getOrCreate_ok now key store Hcap Hst)) as Hb.
  set (b := refill L now (getOrCreate L now key store)) in *.
  destruct (Z.ltb_spec 0 (tokens b)); simpl; apply store_ok_insert; try done.
  unfold bucket_ok in *; simpl; lia.
Qed.

(** The window of a limiter built by the constructor is not 0. *)
Lemma constructor_window_nonzero optMaxRequests optWindowMs rateLimitPerMinute :
  windowMs (constructor optMaxRequests optWindowMs rateLimitPerMinute) <> 0.
Proof.
  unfold constructor, js_or. simpl.
  destruct optWindowMs as [v|]; [| done].
  by destruct (Z.eqb_spec v 0).
Qed.

Lemma store_ok_empty : store_ok L ∅.
Proof. intros k b Hk. by rewrite lookup_empty in Hk. Qed.

(** The refill step does nothing more when it is repeated at the same
    clock reading. *)
Lemma refill_idempotent now b : refill L now (refill L now b) = refill L now b.
Proof.
  unfold refill.
  destruct (0 <? (now - lastRefill b) / windowMs L * maxRequests L) eqn:Hadd; simpl.
  - by rewrite Z.sub_diag, Zdiv_0_l.
  - by rewrite Hadd.
Qed.

(** What a denial looks like. *)
Lemma checkKey_denied key now store :
  allowed (fst (checkKey L key now store)) = false ->
  let b := refill L now (getOrCreate L now key store) in
  tokens b <= 0 /\
  checkKey L key now store =
    ({| allowed := false; remaining := 0;
        resetTime := lastRefill b + windowMs L; limit := maxRequests L;
        retryAfter := Some (ceil_div (lastRefill b + windowMs L - now) 1000) |},
     <[key := b]> store).
Proof.
  unfold checkKey. simpl.
  destruct (Z.ltb_spec 0 (tokens (refill L now (getOrCreate L now key store))));
    simpl; intros Hd; [discriminate | split; [lia | reflexivity]].
Qed.

End RateLimiterFacts.

(** C4.  For every limiter with a non-negative capacity, every key and every
    finite sequence of [checkRateLimit] calls at arbitrary times, after
    every call each bucket satisfies [0 <= tokens <= capacity]: consumption
    never drives the count negative, refill never exceeds the capacity. *)
Theorem tokens_within_capacity (L : RateLimiter.Limiter)
    (calls : list (string * Z)) (store : gmap string RateLimiter.Bucket) :
  0 <= RateLimiter.maxRequests L ->
  RateLimiter.store_ok L store ->
  Forall (RateLimiter.store_ok L) (RateLimiter.trace L calls store).
Proof.
  intros Hcap. revert store.
  induction calls as [|[key now] rest IH]; intros store Hst; simpl.
  - constructor.
  - pose proof (checkKey_ok L key now store Hcap Hst) as Hnext.
    constructor; [exact Hnext | exact (IH _ Hnext)].
Qed.

Lemma tokens_within_capacity_witness :
  let L := RateLimiter.constructor (Some 2) (Some 1000) 10 in
  Forall (RateLimiter.store_ok L)
    (RateLimiter.trace L
       [("k1"%string, 0); ("k1"%string, 10); ("k1"%string, 20);
        ("k2"%string, 30); ("k1"%string, 5000)] ∅).
Proof.
  intros L. apply tokens_within_capacity.
  - simpl. lia.
  - apply store_ok_empty.
Defined.

Section Scenario.
Import RateLimiter.

(** Within the window that started at [lastRefill], nothing is added. *)
Lemma refill_same_window (L : Limiter) now b :
  0 < windowMs L -> 0 <= maxRequests L ->
  now < lastRefill b + windowMs L ->
  refill L now b = b.
Proof.
  intros Hw Hcap Hnow. unfold refill.
  assert ((now - lastRefill b) / windowMs L <= 0) as Hq.
  { apply Z.lt_succ_r. apply Z.div_lt_upper_bound; lia. }
  destruct (Z.ltb_spec 0 ((now - lastRefill b) / windowMs L * maxRequests L));
    [nia | reflexivity].
Qed.

(** A call on a bucket with a token left, within its window. *)
Lemma checkKey_consume (L : Limiter) key now store n t0 :
  0 < windowMs L -> 0 <= maxRequests L ->
  store !! key = Some {| tokens := n; lastRefill := t0 |} ->
  now < t0 + windowMs L -> 0 < n ->
  checkKey L key now store =
    ({| allowed := true; remaining := n - 1; resetTime := t0 + windowMs L;
        limit := maxRequests L; retryAfter := None |},
     <[key := {| tokens := n - 1; lastRefill := t0 |}]> store).
Proof.
  intros Hw Hcap Hk Hnow Hn. unfold checkKey, getOrCreate. rewrite Hk.
  rewrite refill_same_window by (simpl; lia). simpl.
  destruct (Z.ltb_spec 0 n); [reflexivity | lia].
Qed.

(** The first call for a key creates a full bucket and takes a token. *)
Lemma checkKey_fresh (L : Limiter) key now store :
  0 < windowMs L -> 0 < maxRequests L ->
  store !! key = None ->
  checkKey L key now store =
    ({| allowed := true; remaining := maxRequests L - 1;
        resetTime := now + windowMs L;
        limit := maxRequests L; retryAfter := None |},
     <[key := {| tokens := maxRequests L - 1; lastRefill := now |}]> store).
Proof.
  intros Hw Hcap Hk. unfold checkKey, getOrCreate. rewrite Hk.
  rewrite refill_same_window by (simpl; lia). simpl.
  destruct (Z.ltb_spec 0 (maxRequests L)); [reflexivity | lia].
Qed.

(** A call on an empty bucket, within its window. *)
Lemma checkKey_empty (L : Limiter) key now store t0 :
  0 < windowMs L -> 0 <= maxRequests L ->
  store !! key = Some {| tokens := 0; lastRefill := t0 |} ->
  now < t0 + windowMs L ->
  fst (checkKey L key now store) =
    {| allowed := false; remaining := 0; resetTime := t0 + windowMs L;
       limit := maxRequests L;
       retryAfter := Some (ceil_div (t0 + windowMs L - now) 1000) |}.
Proof.
  intros Hw Hcap Hk Hnow. unfold checkKey, getOrCreate. rewrite Hk.
  rewrite refill_same_window by (simpl; lia). reflexivity.
Qed.

Lemma ceil_div_pos a : 0 < a -> 0 < ceil_div a 1000.
Proof.
  intros Ha. unfold ceil_div.
  assert (- a / 1000 < 0); [apply Z.div_lt_upper_bound; lia | lia].
Qed.
End Scenario.

(** C5.  With capacity 3 and a window of 60000 ms, three consecutive calls
    for a fresh key within one window are allowed with [remaining] equal to
    2, 1 and 0, and a fourth call within the same window is denied with a
    retry-after value greater than 0. *)
Theorem three_allowed_then_denied (rateLimitPerMinute : Z) (key : string)
    (store : gmap string RateLimiter.Bucket) (t1 t2 t3 t4 : Z) :
  store !! key = None ->
  t2 < t1 + 60000 -> t3 < t1 + 60000 -> t4 < t1 + 60000 ->
  let L := RateLimiter.constructor (Some 3) (Some 60000) rateLimitPerMinute in
  exists retry,
    RateLimiter.results L [(key, t1); (key, t2); (key, t3); (key, t4)] store =
      [ RateLimiter.mkResult true 2 (t1 + 60000) 3 None;
        RateLimiter.mkResult true 1 (t1 + 60000) 3 None;
        RateLimiter.mkResult true 0 (t1 + 60000) 3 None;
        RateLimiter.mkResult false 0 (t1 + 60000) 3 (Some retry) ]
    /\ 0 < retry.
Proof.
  intros Hfresh H2 H3 H4 L.
  exists (RateLimiter.ceil_div (t1 + 60000 - t4) 1000).
  split; [| apply ceil_div_pos; lia].
  assert (0 < RateLimiter.windowMs L) as Hw by (simpl; lia).
  assert (0 < RateLimiter.maxRequests L) as Hcap by (simpl; lia).
  unfold RateLimiter.results.
  rewrite (checkKey_fresh L key t1 store Hw Hcap Hfresh).
  erewrite (checkKey_consume L key t2 _ _ t1);
    [| lia | lia | apply lookup_insert_eq | simpl; lia | simpl; lia].
  erewrite (checkKey_consume L key t3 _ _ t1);
    [| lia | lia | apply lookup_insert_eq | simpl; lia | simpl; lia].
  match goal with
  | |- context [RateLimiter.checkKey L key t4 ?s] =>
      pose proof (checkKey_empty L key t4 s t1 Hw (Z.lt_le_incl _ _ Hcap)
                    (lookup_insert_eq _ _ _)) as Hlast;
      destruct (RateLimiter.checkKey L key t4 s) as [r4 s4]
  end.
  simpl in Hlast. rewrite Hlast by lia. reflexivity.
Qed.

Lemma three_allowed_then_denied_witness :
  exists retry,
    RateLimiter.results (RateLimiter.constructor (Some 3) (Some 60000) 10)
      [("k1"%string, 1000); ("k1"%string, 1010); ("k1"%string, 1020);
       ("k1"%string, 1030)] ∅ =
      [ RateLimiter.mkResult true 2 61000 3 None;
        RateLimiter.mkResult true 1 61000 3 None;
        RateLimiter.mkResult true 0 61000 3 None;
        RateLimiter.mkResult false 0 61000 3 (Some retry) ]
    /\ 0 < retry.
Proof.
  apply (three_allowed_then_denied 10 "k1"%string ∅ 1000 1010 1020 1030);
    [apply lookup_empty | lia | lia | lia].
Defined.

Section Denial.
Import RateLimiter.
Variable L : Limiter.

(** When the capacity is positive, a refill that fires leaves a token, and
    so does the creation of a bucket: a denial happens only on a stored
    bucket that the refill step did not touch. *)
Lemma denied_untouched key now store :
  0 < maxRequests L -> store_ok L store ->
  allowed (fst (checkKey L key now store)) = false ->
  exists b, store !! key = Some b /\ refill L now b = b /\ tokens b = 0.
Proof.
  intros Hcap Hst Hd.
  destruct (checkKey_denied L key now store Hd) as [Hle _].
  unfold getOrCreate in Hle.
  destruct (store !! key) as [b|] eqn:Hk.
  - exists b. pose proof (Hst _ _ Hk) as [Hlo Hhi].
    unfold refill in *.
    destruct (Z.ltb_spec 0 ((now - lastRefill b) / windowMs L * maxRequests L));
      simpl in Hle; [lia | repeat split; lia].
  - exfalso. unfold refill in Hle. simpl in Hle.
    destruct (Z.ltb_spec 0 ((now - now) / windowMs L * maxRequests L));
      simpl in Hle; lia.
Qed.

(** Calls repeated at one clock reading on a state left by a denial. *)
Lemma denied_repeat key now store r n :
  checkKey L key now store = (r, store) ->
  results L (replicate n (key, now)) store = replicate n r /\
  run L (replicate n (key, now)) store = store.
Proof.
  intros Hfix. induction n as [|n [IHr IHs]]; simpl; [done |].
  rewrite Hfix. simpl. by rewrite IHr, IHs.
Qed.
End Denial.

(** C10.  A [checkRateLimit] call that is denied leaves the bucket as the
    refill step left it: its [tokens] is 0 and its [lastRefill] is that of
    the refill step (with a positive capacity the refill step did not fire
    and the store is unchanged).  Denied calls repeated at the same clock
    reading return the same result, with the same [resetTime] and
    [retryAfter], and leave the store where it was. *)
Theorem denied_call_frame (L : RateLimiter.Limiter) (key : string) (now : Z)
    (store : gmap string RateLimiter.Bucket) :
  0 <= RateLimiter.maxRequests L ->
  RateLimiter.store_ok L store ->
  RateLimiter.allowed (fst (RateLimiter.checkKey L key now store)) = false ->
  let r := fst (RateLimiter.checkKey L key now store) in
  let store' := snd (RateLimiter.checkKey L key now store) in
  let b := RateLimiter.refill L now (RateLimiter.getOrCreate L now key store) in
  store' = <[key := b]> store /\
  RateLimiter.tokens b = 0 /\
  RateLimiter.resetTime r = RateLimiter.lastRefill b + RateLimiter.windowMs L /\
  RateLimiter.retryAfter r =
    Some (RateLimiter.ceil_div
            (RateLimiter.lastRefill b + RateLimiter.windowMs L - now) 1000) /\
  (0 < RateLimiter.maxRequests L -> store !! key = Some b /\ store' = store) /\
  (forall n,
     RateLimiter.results L (replicate n (key, now)) store' = replicate n r /\
     RateLimiter.run L (replicate n (key, now)) store' = store').
Proof.
  intros Hcap Hst Hd r store' b.
  destruct (checkKey_denied L key now store Hd) as [Hle Heq].
  fold b in Hle, Heq.
  assert (RateLimiter.bucket_ok L b) as [Hlo _].
  { apply refill_ok; [done |]. by apply getOrCreate_ok. }
  subst r store'. rewrite Heq. simpl.
  split; [reflexivity |]. split; [lia |]. split; [reflexivity |].
  split; [reflexivity |]. split.
  - intros Hpos.
    destruct (denied_untouched L key now store Hpos Hst Hd) as (b0 & Hk & Hb0 & _).
    assert (b = b0) as ->.
    { subst b. unfold RateLimiter.getOrCreate. by rewrite Hk. }
    split; [done | by apply insert_id].
  - intros n. apply denied_repeat.
    unfold RateLimiter.checkKey, RateLimiter.getOrCreate.
    rewrite lookup_insert_eq. subst b. rewrite refill_idempotent.
    fold (RateLimiter.getOrCreate L now key store).
    destruct (Z.ltb_spec 0
      (RateLimiter.tokens (RateLimiter.refill L now (RateLimiter.getOrCreate L now key store))));
      [lia |].
    by rewrite insert_insert_eq.
Qed.

Lemma denied_call_frame_witness :
  let L := RateLimiter.constructor (Some 1) (Some 60000) 10 in
  let store : gmap string RateLimiter.Bucket :=
    {[ "k1"%string := RateLimiter.mkBucket 0 1000 ]} in
  let r := fst (RateLimiter.checkKey L "k1" 2000 store) in
  let store' := snd (RateLimiter.checkKey L "k1" 2000 store) in
  RateLimiter.resetTime r = 61000 /\
  RateLimiter.retryAfter r = Some 59 /\
  store' = store /\
  RateLimiter.results L (replicate 3 ("k1"%string, 2000)) store' = replicate 3 r.
Proof.
  intros L store r store'.
  assert (RateLimiter.store_ok L store) as Hst.
  { intros k b Hk. subst store.
    apply lookup_singleton_Some in Hk as [_ <-].
    unfold RateLimiter.bucket_ok. simpl. lia. }
  assert (store !! "k1"%string = Some (RateLimiter.mkBucket 0 1000)) as Hk
    by apply lookup_singleton_eq.
  assert (RateLimiter.checkKey L "k1" 2000 store =
          (RateLimiter.mkResult false 0 61000 1 (Some 59),
           <["k1"%string := RateLimiter.mkBucket 0 1000]> store)) as Heq.
  { unfold RateLimiter.checkKey, RateLimiter.getOrCreate. rewrite Hk. reflexivity. }
  assert (RateLimiter.allowed (fst (RateLimiter.checkKey L "k1" 2000 store)) = false)
    as Hd by (rewrite Heq; reflexivity).
  destruct (denied_call_frame L "k1"%string 2000 store ltac:(simpl; lia) Hst Hd)
    as (_ & _ & _ & _ & Hsame & Hrep).
  destruct (Hsame ltac:(simpl; lia)) as [_ Hstore].
  split; [| split; [| split]].
  - subst r. rewrite Heq. reflexivity.
  - subst r. rewrite Heq. reflexivity.
  - exact Hstore.
  - exact (proj1 (Hrep 3%nat)).
Defined.

(** ** The retry executors *)

Lemma api_invocations_call evs :
  Api.invocations (Api.EvCall :: evs) = S (Api.invocations evs).
Proof. reflexivity. Qed.

Lemma api_invocations_sleep d evs :
  Api.invocations (Api.EvSleep d :: evs) = Api.invocations evs.
Proof. reflexivity. Qed.

Lemma hook_invocations_app evs1 evs2 :
  ErrorHandler.invocations (evs1 ++ evs2) =
  (ErrorHandler.invocations evs1 + ErrorHandler.invocations evs2)%nat.
Proof.
  unfold ErrorHandler.invocations. by rewrite List.filter_app, List.length_app.
Qed.

Lemma hook_invocations_onRetry (c : bool) n m :
  ErrorHandler.invocations (if c then [ErrorHandler.EvOnRetry n m] else []) = 0%nat.
Proof. by destruct c. Qed.

Lemma hook_invocations_call evs :
  ErrorHandler.invocations (ErrorHandler.EvCall :: evs) =
  S (ErrorHandler.invocations evs).
Proof. reflexivity. Qed.

Lemma hook_invocations_other e evs :
  e <> ErrorHandler.EvCall ->
  ErrorHandler.invocations (e :: evs) = ErrorHandler.invocations evs.
Proof. by destruct e. Qed.

Ltac count_calls :=
  unfold Api.api_events, ErrorHandler.hook_events; simpl;
  repeat first
    [ rewrite api_invocations_call | rewrite api_invocations_sleep
    | rewrite hook_invocations_app | rewrite hook_invocations_onRetry
    | rewrite hook_invocations_call
    | rewrite hook_invocations_other by discriminate ];
  try reflexivity;
  try (unfold Api.invocations, ErrorHandler.invocations in *; simpl in *; lia).

Section ApiRetryFacts.
Import Js Api.
Context {W A : Type}.
Variable fn : W -> (Thrown + A) * W.
Variable maxAttempts : nat.
Variable baseDelay : Q.

(** Each turn of the loop invokes [fn] once. *)
Lemma api_loop_invocations remaining attempt lastError w :
  (invocations (api_events (loop fn maxAttempts baseDelay remaining attempt lastError w))
     <= remaining)%nat.
Proof.
  revert attempt lastError w.
  induction remaining as [|r IH]; intros attempt lastError w; simpl.
  - unfold api_events, invocations; simpl; lia.
  - destruct (fn w) as [[e|v] w']; [| count_calls].
    destruct (isRetryableError e) as [retryable|]; [| count_calls].
    destruct (negb retryable || (attempt =? maxAttempts)%nat); [count_calls |].
    specialize (IH (S attempt) (Some e) w').
    destruct (loop fn maxAttempts baseDelay r (S attempt) (Some e) w') as [[out evs] w''].
    unfold api_events in IH; simpl in IH. count_calls.
Qed.

(** A first failure that is not retryable ends the loop. *)
Lemma api_loop_first_failure remaining attempt lastError w e w' :
  fn w = (inl e, w') ->
  isRetryableError e <> Some true ->
  invocations (api_events (loop fn maxAttempts baseDelay (S remaining) attempt lastError w))
    = 1%nat.
Proof.
  intros Hfn Hnr. simpl. rewrite Hfn.
  destruct (isRetryableError e) as [[|]|]; [congruence | reflexivity | reflexivity].
Qed.
End ApiRetryFacts.

Section HookRetryFacts.
Import Js ErrorHandler.
Context {W A : Type}.
Variable operation : W -> (Thrown + A) * W.
Variable maxRetries : nat.
Variable autoRetry : bool.
Variable baseDelay : Q.
Variable random : nat -> Q.

Lemma hook_loop_invocations remaining currentAttempt w :
  (invocations
     (hook_events (loop operation maxRetries autoRetry baseDelay random
                        remaining currentAttempt w))
     <= remaining)%nat.
Proof.
  revert currentAttempt w.
  induction remaining as [|r IH]; intros currentAttempt w; simpl.
  - unfold hook_events, invocations; simpl. lia.
  - destruct (operation w) as [[e|v] w']; [| count_calls].
    destruct ((maxRetries <? S currentAttempt)%nat || _ || negb autoRetry);
      [count_calls |].
    specialize (IH (S currentAttempt) w').
    destruct (loop operation maxRetries autoRetry baseDelay random r
                   (S currentAttempt) w') as [[out evs] w''].
    unfold hook_events in IH; simpl in IH. count_calls.
Qed.

Lemma hook_loop_first_failure remaining currentAttempt w e w' :
  operation w = (inl e, w') ->
  p_retryable (processError e) = false ->
  invocations
    (hook_events (loop operation maxRetries autoRetry baseDelay random
                       (S remaining) currentAttempt w)) = 1%nat.
Proof.
  intros Hop Hnr. simpl. rewrite Hop. simpl in Hnr. rewrite Hnr.
  rewrite orb_true_r. simpl. count_calls.
Qed.
End HookRetryFacts.

(** C3.  For every operation and every [maxAttempts >= 1], both retry
    executors invoke the operation at most [maxAttempts] times, and exactly
    once when its first invocation fails with an error that is not
    retryable.  [retryWithBackoff] takes [maxAttempts] itself;
    [executeWithErrorHandling] takes the number of retries and reports
    [maxAttempts] as [maxRetries + 1]. *)
Theorem retry_invocation_bounds (W A : Type)
    (operation : W -> (Js.Thrown + A) * W) (maxAttempts : nat)
    (autoRetry : bool) (baseDelay : Q) (random : nat -> Q) (w : W) :
  (1 <= maxAttempts)%nat ->
  let api := Api.api_events (Api.retryWithBackoff operation maxAttempts baseDelay w) in
  let hook := ErrorHandler.hook_events
                (ErrorHandler.executeWithErrorHandling operation (maxAttempts - 1)
                   autoRetry baseDelay random w) in
  (Api.invocations api <= maxAttempts)%nat /\
  (ErrorHandler.invocations hook <= maxAttempts)%nat /\
  (forall e w', operation w = (inl e, w') ->
     (Api.isRetryableError e <> Some true -> Api.invocations api = 1%nat) /\
     (ErrorHandler.p_retryable (ErrorHandler.processError e) = false ->
      ErrorHandler.invocations hook = 1%nat)).
Proof.
  intros Hmax api hook. split; [| split].
  - apply api_loop_invocations.
  - subst hook. unfold ErrorHandler.executeWithErrorHandling.
    etransitivity; [apply hook_loop_invocations | lia].
  - intros e w' Hop. split; intros Hnr.
    + subst api. unfold Api.retryWithBackoff.
      destruct maxAttempts as [|m]; [lia |].
      by apply (api_loop_first_failure operation (S m) baseDelay m 1 None w e w').
    + subst hook. unfold ErrorHandler.executeWithErrorHandling.
      by apply (hook_loop_first_failure operation _ autoRetry baseDelay random _ _ w e w').
Qed.

Lemma retry_invocation_bounds_witness :
  let op := Scenario.always_fails (Js.ThrownString "Invalid input") in
  (Api.invocations (Api.api_events (Api.retryWithBackoff op 3 1000%Q 0%nat)) <= 3)%nat /\
  (ErrorHandler.invocations
     (ErrorHandler.hook_events
        (ErrorHandler.executeWithErrorHandling op 2 true 1000%Q (fun _ => 0%Q) 0%nat))
     <= 3)%nat.
Proof.
  intros op.
  destruct (retry_invocation_bounds nat unit op 3 true 1000%Q (fun _ => 0%Q) 0%nat
              ltac:(lia)) as (Hapi & Hhook & _).
  split; [exact Hapi | exact Hhook].
Defined.

(** C2, as the code has it.  [categorizeError] tests the configuration
    keywords first, and the message contains "api key": the error
    [{message: "Unauthorized: invalid api key"}] is classified as
    [configuration] (not [authentication]) with [retryable = false], and an
    operation that always fails with it is invoked exactly once by either
    retry executor.  The classifier of the API handler, [processApiError],
    is the one that answers [authentication] for this message. *)
Theorem invalid_api_key_classified (W A : Type)
    (operation : W -> (Js.Thrown + A) * W) (maxAttempts : nat)
    (autoRetry : bool) (baseDelay : Q) (random : nat -> Q) (w : W) :
  (1 <= maxAttempts)%nat ->
  (forall w0, fst (operation w0) = inl (Js.ThrownObject Scenario.invalid_api_key)) ->
  let classified :=
    ErrorHandler.processError (Js.ThrownObject Scenario.invalid_api_key) in
  ErrorHandler.p_category classified = ErrorHandler.configuration /\
  ErrorHandler.p_retryable classified = false /\
  ErrorHandler.invocations
    (ErrorHandler.hook_events
       (ErrorHandler.executeWithErrorHandling operation (maxAttempts - 1)
          autoRetry baseDelay random w)) = 1%nat /\
  Api.invocations
    (Api.api_events (Api.retryWithBackoff operation maxAttempts baseDelay w)) = 1%nat /\
  GenerateImage.api_category (GenerateImage.processApiError Scenario.invalid_api_key)
    = GenerateImage.api_authentication.
Proof.
  intros Hmax Hfail classified.
  specialize (Hfail w). destruct (operation w) as [r w'] eqn:Hop.
  simpl in Hfail. subst r.
  split; [reflexivity |]. split; [reflexivity |]. split; [| split].
  - unfold ErrorHandler.executeWithErrorHandling.
    by eapply hook_loop_first_failure; [exact Hop |].
  - unfold Api.retryWithBackoff. destruct maxAttempts as [|m]; [lia |].
    by eapply api_loop_first_failure; [exact Hop |].
  - reflexivity.
Qed.

Lemma invalid_api_key_classified_witness :
  let op := Scenario.always_fails (Js.ThrownObject Scenario.invalid_api_key) in
  ErrorHandler.invocations
    (ErrorHandler.hook_events
       (ErrorHandler.executeWithErrorHandling op 2 true 1000%Q (fun _ => 0%Q) 0%nat))
    = 1%nat /\
  Api.invocations (Api.api_events (Api.retryWithBackoff op 3 1000%Q 0%nat)) = 1%nat.
Proof.
  intros op.
  destruct (invalid_api_key_classified nat unit op 3 true 1000%Q (fun _ => 0%Q) 0%nat
              ltac:(lia) ltac:(reflexivity)) as (_ & _ & Hhook & Hapi & _).
  split; [exact Hhook | exact Hapi].
Defined.

(** C2 as stated fails: the category is not [authentication]. *)
Lemma invalid_api_key_not_authentication :
  ~ (ErrorHandler.p_category
       (ErrorHandler.processError (Js.ThrownObject Scenario.invalid_api_key))
       = ErrorHandler.authentication /\
     ErrorHandler.p_retryable
       (ErrorHandler.processError (Js.ThrownObject Scenario.invalid_api_key))
       = false).
Proof. intros [Hcat _]. vm_compute in Hcat. discriminate Hcat. Qed.

(** ** Backoff delays *)

Section Backoff.
Local Open Scope Q_scope.

Lemma Qmin_eq_compat (x y c : Q) : x == y -> Qmin x c == Qmin y c.
Proof. intros H. by rewrite H. Qed.

(** The delay of the hook, with the jitter written as a factor. *)
Lemma hook_delay_factor (a : Z) (baseDelay random : Q) :
  ErrorHandler.calculateBackoffDelay a baseDelay random ==
  Qmin (baseDelay * 2 ^ (a - 1) * (1 + random * (1 # 10))) 30000.
Proof.
  unfold ErrorHandler.calculateBackoffDelay. apply Qmin_eq_compat. ring.
Qed.

Lemma api_delay_factor (a : Z) (baseDelay : Q) :
  Api.calculateBackoffDelay a baseDelay ==
  Qmin (baseDelay * 2 ^ (a - 1) * (1 + 0)) 30000.
Proof.
  unfold Api.calculateBackoffDelay. apply Qmin_eq_compat. ring.
Qed.

Lemma jitter_in_range (random : Q) :
  0 <= random -> random < 1 -> 0 <= random * (1 # 10) <= 1 # 10.
Proof. intros H0 H1. split; lra. Qed.

Lemma exponential_nonneg (a : Z) (baseDelay : Q) :
  0 <= baseDelay -> 0 <= baseDelay * 2 ^ (a - 1).
Proof.
  intros Hb. apply Qmult_le_0_compat; [exact Hb |].
  apply Qpower_0_le. discriminate.
Qed.
End Backoff.

(** C9.  For every attempt number [a >= 1] and every base delay, the delay
    slept before retry attempt [a] equals
    [min (baseDelay * 2^(a-1) * (1 + j)) 30000] for a jitter [j] in
    [[0, 0.1]]: [j] is a tenth of the value of [Math.random()] in the hook
    and [0] in [utils/api.js].  The delay never exceeds 30000 ms, and for a
    non-negative base delay it is never below [baseDelay * 2^(a-1)] when
    that product is at most 30000. *)
Theorem backoff_delay_capped_exponential (a : Z) (baseDelay random : Q) :
  1 <= a -> (0 <= random)%Q -> (random < 1)%Q ->
  let exponential := (baseDelay * 2 ^ (a - 1))%Q in
  let hook := ErrorHandler.calculateBackoffDelay a baseDelay random in
  let api := Api.calculateBackoffDelay a baseDelay in
  (exists j, (0 <= j <= 1 # 10)%Q /\
             (hook == Qmin (exponential * (1 + j)) 30000)%Q) /\
  (exists j, (0 <= j <= 1 # 10)%Q /\
             (api == Qmin (exponential * (1 + j)) 30000)%Q) /\
  (hook <= 30000)%Q /\ (api <= 30000)%Q /\
  ((0 <= baseDelay)%Q -> (exponential <= 30000)%Q ->
   (exponential <= hook)%Q /\ (exponential <= api)%Q).
Proof.
  intros _ H0 H1 exponential hook api.
  split; [| split; [| split; [| split]]].
  - exists (random * (1 # 10))%Q. split; [by apply jitter_in_range |].
    apply hook_delay_factor.
  - exists 0%Q. split; [split; discriminate |]. apply api_delay_factor.
  - apply Q.le_min_r.
  - apply Q.le_min_r.
  - intros Hb Hcap.
    pose proof (exponential_nonneg a baseDelay Hb) as Hexp.
    destruct (jitter_in_range random H0 H1) as [Hj _].
    split.
    + apply Q.min_glb; [| exact Hcap].
      fold exponential.
      assert (0 <= random * (1 # 10) * exponential)%Q as Hjit
        by (by apply Qmult_le_0_compat).
      lra.
    + apply Q.min_glb; [apply Qle_refl | exact Hcap].
Qed.

Lemma backoff_delay_capped_exponential_witness :
  (ErrorHandler.calculateBackoffDelay 3 1000 (1 # 2) <= 30000)%Q /\
  (1000 * 2 ^ (3 - 1) <= ErrorHandler.calculateBackoffDelay 3 1000 (1 # 2))%Q.
Proof.
  destruct (backoff_delay_capped_exponential 3 1000%Q (1 # 2)%Q
              ltac:(lia) ltac:(discriminate) ltac:(reflexivity))
    as (_ & _ & Hcap & _ & Hlow).
  split; [exact Hcap |].
  apply Hlow; discriminate.
Defined.

(** ** The fan-out *)

Section FanOutFacts.
Import GenerateImage.

Lemma first_rejection_none ps :
  existsb sub_rejected ps = false -> first_rejection ps = None.
Proof.
  induction ps as [|p ps IH]; simpl; [done |].
  unfold sub_rejected at 1. destruct (settled p); simpl; [exact IH | discriminate].
Qed.

(** The first rejection is the earliest one. *)
Lemma first_rejection_some ps :
  existsb sub_rejected ps = true ->
  exists t e, first_rejection ps = Some (t, e) /\
    forall p, In p ps -> sub_rejected p = true -> t <= settledAt p.
Proof.
  induction ps as [|p ps IH]; simpl; [discriminate |].
  unfold sub_rejected at 1. destruct (settled p) as [r|e] eqn:Hp; simpl.
  - intros Hex. destruct (IH Hex) as (t & e & Hfr & Hmin).
    exists t, e. split; [exact Hfr |].
    intros q [<-|Hq] Hrej; [| by apply Hmin].
    unfold sub_rejected in Hrej. by rewrite Hp in Hrej.
  - intros _. destruct (existsb sub_rejected ps) eqn:Hex.
    + destruct (IH eq_refl) as (t & e' & Hfr & Hmin). rewrite Hfr.
      destruct (Z.ltb_spec t (settledAt p)).
      * exists t, e'. split; [done |].
        intros q [<-|Hq] Hrej; [lia | by apply Hmin].
      * exists (settledAt p), e. split; [done |].
        intros q [<-|Hq] Hrej; [lia |]. specialize (Hmin q Hq Hrej). lia.
    + rewrite (first_rejection_none ps Hex).
      exists (settledAt p), e. split; [done |].
      intros q [<-|Hq] Hrej; [lia |].
      exfalso. assert (existsb sub_rejected ps = true) as Hc
        by (apply existsb_exists; eauto).
      congruence.
Qed.

(** Without a rejection, the URLs that survive are those of the sub-calls
    that did not fail. *)
Lemma imageUrls_length ps :
  existsb sub_rejected ps = false ->
  (List.length (imageUrls (fulfilled_value <$> ps)) + count_failed ps)%nat
    = List.length ps.
Proof.
  unfold imageUrls, count_failed.
  induction ps as [|p ps IH]; simpl; [done |].
  unfold sub_rejected at 1, sub_failed at 1, fulfilled_value at 1.
  destruct (settled p) as [r|e]; simpl; [| discriminate].
  intros Hex. specialize (IH Hex).
  destruct (extractUrl r); simpl;
    change (list_omap _ _ extractUrl (list_fmap _ _ fulfilled_value ps))
      with (omap extractUrl (fulfilled_value <$> ps)); lia.
Qed.

Lemma promise_all_fulfilled ps :
  existsb sub_rejected ps = false ->
  promise_all ps = (last_settled ps, inr (fulfilled_value <$> ps)).
Proof. intros H. unfold promise_all. by rewrite first_rejection_none. Qed.

Section Issue.
Variable env : Env.
Variable inputFor : Z -> FalInput.
Variable wrap : Promise -> Promise.

Lemma fanOut_length seedFor n index w :
  List.length (fst (fanOut env seedFor inputFor wrap n index w)) = n.
Proof.
  revert index w. induction n as [|n IH]; intros index w; simpl; [done |].
  destruct (seedFor index w) as [sd w1].
  specialize (IH (index + 1)
    {| calls := calls w1 ++ [inputFor sd]; draws := draws w1 |}).
  destruct (fanOut env seedFor inputFor wrap n (index + 1) _) as [ps w3].
  simpl in *. by rewrite IH.
Qed.

(** With a given seed: call [i] uses the sum of [s] and [index + i],
    nothing is drawn. *)
Lemma fanOut_seeded s n index w :
  let w' := snd (fanOut env (fun i w0 => (Js.add s i, w0)) inputFor wrap n index w) in
  calls w' = calls w ++
             map (fun i => inputFor (Js.add s (index + Z.of_nat i))) (seq 0 n) /\
  draws w' = draws w.
Proof.
  revert index w. induction n as [|n IH]; intros index w; simpl.
  - by rewrite app_nil_r.
  - specialize (IH (index + 1)
      {| calls := calls w ++ [inputFor (Js.add s index)]; draws := draws w |}).
    destruct (fanOut env _ inputFor wrap n (index + 1) _) as [ps w3].
    simpl in *. destruct IH as [-> ->]. split; [| done].
    rewrite <- app_assoc. simpl. rewrite Z.add_0_r. do 2 f_equal.
    rewrite <- seq_shift, map_map. apply map_ext. intros i.
    do 2 f_equal. lia.
Qed.

(** Without a seed: call [i] draws its own random number. *)
Lemma fanOut_random n index w :
  let w' := snd (fanOut env (randomSeed env) inputFor wrap n index w) in
  calls w' = calls w ++
             map (fun i => inputFor (Js.add (random env (draws w + i))
                                       (index + Z.of_nat i))) (seq 0 n) /\
  draws w' = (draws w + n)%nat.
Proof.
  revert index w. induction n as [|n IH]; intros index w; simpl.
  - by rewrite app_nil_r, Nat.add_0_r.
  - specialize (IH (index + 1)
      {| calls := calls w ++ [inputFor (Js.add (random env (draws w)) index)];
         draws := S (draws w) |}).
    destruct (fanOut env _ inputFor wrap n (index + 1) _) as [ps w3].
    simpl in *. destruct IH as [-> ->]. split; [| lia].
    rewrite <- app_assoc. simpl. rewrite Z.add_0_r, Nat.add_0_r. do 2 f_equal.
    rewrite <- seq_shift, map_map. apply map_ext. intros i.
    f_equal. f_equal; [f_equal; f_equal; lia | lia].
Qed.
End Issue.
End FanOutFacts.

(** C1, as the code has it.  For a request with four images, when no
    sub-call rejects and exactly one of the four results carries no URL,
    both handlers return the three remaining URLs as a success, after all
    sub-calls have settled, and do not throw.  A sub-call whose promise
    rejects is another matter: [Promise.all] rejects at the first
    rejection, without waiting for the other sub-calls, and the attempt
    fails with that error. *)
Theorem one_null_result_of_four (env : GenerateImage.Env) (prompt : string)
    (maxRetries : nat) (timeout : Z) (options : GenerateImage.Options)
    (imagesPerGeneration : Z) (w : GenerateImage.World) :
  GenerateImage.numImages options imagesPerGeneration = 4 ->
  let ps := fst (GenerateImage.attemptFanOut env prompt timeout options
                   imagesPerGeneration w) in
  let w' := snd (GenerateImage.attemptFanOut env prompt timeout options
                   imagesPerGeneration w) in
  let legacy := fst (GenerateImage.Legacy.fanOut4 env prompt w) in
  (existsb GenerateImage.sub_rejected ps = false ->
   GenerateImage.count_failed ps = 1%nat ->
   exists urls,
     GenerateImage.generateImagesWithRetry env prompt maxRetries timeout options
       imagesPerGeneration w = (inr urls, [], w') /\
     List.length urls = 3%nat /\
     fst (GenerateImage.promise_all ps) = GenerateImage.last_settled ps) /\
  (existsb GenerateImage.sub_rejected legacy = false ->
   GenerateImage.count_failed legacy = 1%nat ->
   exists urls,
     fst (GenerateImage.Legacy.generate env prompt w) =
       Some (GenerateImage.Legacy.mkResponse 200
               (GenerateImage.Legacy.BodyImages urls)) /\
     List.length urls = 3%nat) /\
  (existsb GenerateImage.sub_rejected ps = true ->
   exists t e,
     GenerateImage.promise_all ps = (t, inl e) /\
     GenerateImage.attemptOutcome ps = inl e /\
     forall p, In p ps -> GenerateImage.sub_rejected p = true ->
               t <= GenerateImage.settledAt p).
Proof.
  intros Hn.
  assert (List.length (fst (GenerateImage.attemptFanOut env prompt timeout options
                              imagesPerGeneration w)) = 4%nat) as Hps.
  { unfold GenerateImage.attemptFanOut. rewrite fanOut_length, Hn. reflexivity. }
  assert (List.length (fst (GenerateImage.Legacy.fanOut4 env prompt w)) = 4%nat)
    as Hlegacy.
  { unfold GenerateImage.Legacy.fanOut4. by rewrite fanOut_length. }
  unfold GenerateImage.generateImagesWithRetry, GenerateImage.Legacy.generate.
  simpl GenerateImage.loop.
  destruct (GenerateImage.attemptFanOut env prompt timeout options
              imagesPerGeneration w) as [ps w'].
  destruct (GenerateImage.Legacy.fanOut4 env prompt w) as [legacy lw].
  simpl in *. split; [| split].
  - intros Hrej Hone.
    pose proof (imageUrls_length ps Hrej) as Hlen.
    exists (GenerateImage.imageUrls (GenerateImage.fulfilled_value <$> ps)).
    split; [| split; [lia | by rewrite promise_all_fulfilled]].
    unfold GenerateImage.attemptOutcome.
    rewrite promise_all_fulfilled by done. simpl.
    destruct (Nat.eqb_spec
      (List.length (GenerateImage.imageUrls (GenerateImage.fulfilled_value <$> ps))) 0);
      [lia | reflexivity].
  - intros Hrej Hone.
    pose proof (imageUrls_length legacy Hrej) as Hlen.
    exists (GenerateImage.imageUrls (GenerateImage.fulfilled_value <$> legacy)).
    split; [| lia].
    rewrite promise_all_fulfilled by done. simpl.
    destruct (Nat.eqb_spec
      (List.length (GenerateImage.imageUrls (GenerateImage.fulfilled_value <$> legacy))) 0);
      [lia | reflexivity].
  - intros Hrej.
    destruct (first_rejection_some ps Hrej) as (t & e & Hfr & Hmin).
    exists t, e. unfold GenerateImage.attemptOutcome, GenerateImage.promise_all.
    rewrite Hfr. by repeat split.
Qed.

Lemma one_null_result_of_four_witness :
  exists urls,
    GenerateImage.generateImagesWithRetry Scenario.one_null_url "x" 2 30000
      Scenario.four_images Config.app_imagesPerGeneration GenerateImage.world0
    = (inr urls, [],
       snd (GenerateImage.attemptFanOut Scenario.one_null_url "x" 30000
              Scenario.four_images Config.app_imagesPerGeneration
              GenerateImage.world0)) /\
    List.length urls = 3%nat.
Proof.
  destruct (one_null_result_of_four Scenario.one_null_url "x" 2%nat 30000
              Scenario.four_images Config.app_imagesPerGeneration
              GenerateImage.world0 eq_refl) as (Hnull & _ & _).
  destruct (Hnull eq_refl eq_refl) as (urls & Hrun & Hlen & _).
  exists urls. split; [exact Hrun | exact Hlen].
Defined.

(** C1 as stated fails when the failing sub-call rejects: exactly one of the
    four sub-calls fails, [Promise.all] rejects after 10 ms although the
    other sub-calls settle at 50 ms, the current handler throws the error
    and the first handler answers 500. *)
Lemma one_rejection_of_four_fails :
  let env := Scenario.one_rejection Scenario.invalid_seed in
  let ps := fst (GenerateImage.attemptFanOut env "x" 30000 Scenario.four_images
                   Config.app_imagesPerGeneration GenerateImage.world0) in
  List.length ps = 4%nat /\
  GenerateImage.count_failed ps = 1%nat /\
  fst (fst (GenerateImage.generateImagesWithRetry env "x" 2 30000
              Scenario.four_images Config.app_imagesPerGeneration
              GenerateImage.world0))
    = inl (Some Scenario.invalid_seed) /\
  fst (GenerateImage.Legacy.generate env "x" GenerateImage.world0)
    = Some (GenerateImage.Legacy.mkResponse 500
              (GenerateImage.Legacy.BodyError "Failed to generate images"
                 (Some "Invalid seed"%string))) /\
  fst (GenerateImage.promise_all ps) = 10 /\
  GenerateImage.last_settled ps = 50.
Proof. vm_compute. repeat split; reflexivity. Qed.

(** Sums that do not exceed 2^53 in absolute value are exact. *)
Lemma add_exact a b :
  Z.abs (a + b) <= 9007199254740992 -> Js.add a b = a + b.
Proof.
  unfold Js.add, Js.roundDouble. intros Hsmall.
  destruct (Z.ltb_spec (Z.abs (a + b)) 9007199254740992) as [|Hbig]; [done |].
  assert (Z.abs (a + b) = 9007199254740992) as Habs by lia.
  rewrite Habs.
  destruct (Z.abs_eq_or_opp (a + b)) as [Heq|Heq]; rewrite Heq in Habs.
  - by rewrite Habs.
  - assert (a + b = -9007199254740992) as -> by lia. reflexivity.
Qed.

(** C8, as the code has it.  One attempt of the current handler issues
    [n] calls, where [n] is [options.num_images] when it is given (and not
    0) and [config.app.imagesPerGeneration] (4 by default) otherwise.  With
    [options.seed] given, call [i] uses the sum [options.seed + i] as
    JavaScript computes it, in double precision: the exact sum while it
    does not exceed 2^53 in absolute value, a rounded one beyond (the seed
    2^53 gives 2^53, 2^53, 2^53 + 2, 2^53 + 4).  Without it, call [i] uses
    [r_i + i] where [r_i] is a random number drawn for this call alone.
    The first handler always issues 4 calls, each with its own random
    draw. *)
Theorem fan_out_inputs (env : GenerateImage.Env) (prompt : string) (timeout : Z)
    (options : GenerateImage.Options) (imagesPerGeneration : Z)
    (w : GenerateImage.World) :
  let n := Z.to_nat (GenerateImage.numImages options imagesPerGeneration) in
  let w' := snd (GenerateImage.attemptFanOut env prompt timeout options
                   imagesPerGeneration w) in
  (forall k, GenerateImage.opt_num_images options = Some k -> k <> 0 ->
             GenerateImage.numImages options imagesPerGeneration = k) /\
  (GenerateImage.opt_num_images options = None ->
   GenerateImage.numImages options imagesPerGeneration = imagesPerGeneration) /\
  Config.app_imagesPerGeneration = 4 /\
  GenerateImage.calls w' =
    GenerateImage.calls w ++
    map (fun i =>
           GenerateImage.falInput prompt options
             (match GenerateImage.opt_seed options with
              | Some baseSeed => Js.add baseSeed (Z.of_nat i)
              | None => Js.add (GenerateImage.random env (GenerateImage.draws w + i))
                               (Z.of_nat i)
              end))
        (seq 0 n) /\
  GenerateImage.calls (snd (GenerateImage.Legacy.fanOut4 env prompt w)) =
    GenerateImage.calls w ++
    map (fun i =>
           GenerateImage.Legacy.inputFor prompt
             (Js.add (GenerateImage.random env (GenerateImage.draws w + i))
                     (Z.of_nat i)))
        (seq 0 4) /\
  (forall a b, Z.abs (a + b) <= 9007199254740992 -> Js.add a b = a + b) /\
  map (Js.add 9007199254740992) [0; 1; 2; 3]
    = [9007199254740992; 9007199254740992; 9007199254740994; 9007199254740996].
Proof.
  intros n w'. split_and!.
  - intros k Hk Hnz. unfold GenerateImage.numImages, RateLimiter.js_or.
    rewrite Hk. destruct (Z.eqb_spec k 0); [contradiction | reflexivity].
  - intros Hk. unfold GenerateImage.numImages, RateLimiter.js_or. by rewrite Hk.
  - reflexivity.
  - subst w'. unfold GenerateImage.attemptFanOut, GenerateImage.seedFor. fold n.
    destruct (GenerateImage.opt_seed options) as [s|].
    + exact (proj1 (fanOut_seeded env _ _ s n 0 w)).
    + exact (proj1 (fanOut_random env _ _ n 0 w)).
  - unfold GenerateImage.Legacy.fanOut4.
    exact (proj1 (fanOut_random env _ _ 4 0 w)).
  - exact add_exact.
  - reflexivity.
Qed.

(** C8 as stated fails without [options.seed]: the seeds of the four calls
    are [5; 106; 207; 308], which is not [baseSeed + i] for any single
    [baseSeed]. *)
Lemma seeds_not_from_one_base :
  let w' := snd (GenerateImage.attemptFanOut Scenario.one_null_url "x" 30000
                   Scenario.four_images Config.app_imagesPerGeneration
                   GenerateImage.world0) in
  map GenerateImage.seed (GenerateImage.calls w') = [5; 106; 207; 308] /\
  ~ (exists baseSeed,
       map GenerateImage.seed (GenerateImage.calls w') =
       map (fun i => baseSeed + Z.of_nat i) (seq 0 4)).
Proof.
  intros w'. assert (map GenerateImage.seed (GenerateImage.calls w')
                     = [5; 106; 207; 308]) as Hseeds by (vm_compute; reflexivity).
  split; [exact Hseeds |].
  intros [baseSeed Hbase]. rewrite Hseeds in Hbase. simpl in Hbase.
  injection Hbase as H0 H1 _ _. lia.
Qed.

(** ** The generation hook *)

Ltac split_retry :=
  match goal with
  | |- context [if (?a || ?b || ?c)%bool then _ else _] =>
      destruct (a || b || c)%bool
  end.

Section HookFacts.
Import Js ImageGeneration.

Lemma toLowerCase_length s :
  String.length (JsString.toLowerCase s) = String.length s.
Proof. induction s as [|c s IH]; simpl; [reflexivity | by rewrite IH]. Qed.

Lemma finally_frame c st :
  history (finally c st) = history st /\ fetches (finally c st) = fetches st.
Proof.
  unfold finally. destruct (currentRequest st) as [c'|]; [| done].
  by destruct (c' =? c)%nat.
Qed.

(** Every run of [generateFn] calls [fetch] once. *)
Lemma generateFn_fetches env prompt opts st :
  List.length (fetches (snd (generateFn env prompt opts st))) =
  S (List.length (fetches st)).
Proof.
  unfold generateFn. destruct (env (List.length (fetches st))) as [reply now].
  unfold generateFn_start, generateFn_finish.
  destruct reply as [e|status statusText errorField|body]; simpl.
  - rewrite (proj2 (finally_frame _ _)). simpl. rewrite List.length_app. simpl. lia.
  - rewrite (proj2 (finally_frame _ _)). simpl. rewrite List.length_app. simpl. lia.
  - destruct (body_imageUrls body); simpl;
      rewrite (proj2 (finally_frame _ _)); simpl; rewrite List.length_app; simpl; lia.
Qed.

(** A run of [generateFn] that fails leaves the history as it was. *)
Lemma generateFn_failure env prompt opts st e st' :
  generateFn env prompt opts st = (inl e, st') -> history st' = history st.
Proof.
  unfold generateFn. destruct (env (List.length (fetches st))) as [reply now].
  unfold generateFn_start, generateFn_finish.
  destruct reply as [e0|status statusText errorField|body]; simpl.
  - intros [= _ <-]. by rewrite (proj1 (finally_frame _ _)).
  - intros [= _ <-]. by rewrite (proj1 (finally_frame _ _)).
  - destruct (body_imageUrls body); simpl; [discriminate |].
    intros [= _ <-]. by rewrite (proj1 (finally_frame _ _)).
Qed.

Section Loop.
Variable maxRetries : nat.
Variable baseDelay : Q.
Variable random : nat -> Q.
Variable env : Env.
Variable prompt : string.
Variable opts : GenOptions.

Let run := ErrorHandler.loop (generateFn env prompt opts) maxRetries true
             baseDelay random.

(** The calls of [fetch] are the invocations of the operation. *)
Lemma loop_fetches remaining currentAttempt st :
  List.length (fetches (snd (run remaining currentAttempt st))) =
  (List.length (fetches st)
   + ErrorHandler.invocations
       (ErrorHandler.hook_events (run remaining currentAttempt st)))%nat.
Proof.
  subst run. revert currentAttempt st.
  induction remaining as [|r IH]; intros currentAttempt st; simpl.
  - unfold ErrorHandler.hook_events, ErrorHandler.invocations; simpl. lia.
  - pose proof (generateFn_fetches env prompt opts st) as Hone.
    destruct (generateFn env prompt opts st) as [[e|v] st1]; simpl in Hone;
      [| count_calls].
    split_retry; [count_calls |].
    specialize (IH (S currentAttempt) st1).
    destruct (ErrorHandler.loop (generateFn env prompt opts) maxRetries true
                baseDelay random r (S currentAttempt) st1) as [[out evs] st2].
    unfold ErrorHandler.hook_events in IH; simpl in IH. count_calls.
Qed.

Lemma loop_invokes remaining currentAttempt st :
  (1 <= ErrorHandler.invocations
          (ErrorHandler.hook_events (run (S remaining) currentAttempt st)))%nat.
Proof.
  subst run. simpl.
  destruct (generateFn env prompt opts st) as [[e|v] st1]; [| count_calls].
  split_retry; [count_calls |].
  destruct (ErrorHandler.loop (generateFn env prompt opts) maxRetries true
              baseDelay random remaining (S currentAttempt) st1) as [[out evs] st2].
  count_calls.
Qed.

(** A run that does not resolve leaves the history as it was. *)
Lemma loop_failure_history remaining currentAttempt st :
  (forall v, fst (fst (run remaining currentAttempt st)) <> ErrorHandler.Resolved v) ->
  history (snd (run remaining currentAttempt st)) = history st.
Proof.
  subst run. revert currentAttempt st.
  induction remaining as [|r IH]; intros currentAttempt st; simpl; [done |].
  pose proof (generateFn_failure env prompt opts st) as Hfail.
  destruct (generateFn env prompt opts st) as [[e|v] st1]; simpl.
  - specialize (Hfail e st1 eq_refl).
    split_retry; [done |].
    specialize (IH (S currentAttempt) st1).
    destruct (ErrorHandler.loop (generateFn env prompt opts) maxRetries true
                baseDelay random r (S currentAttempt) st1) as [[out evs] st2].
    simpl in *. intros Hnot. rewrite IH by done. exact Hfail.
  - intros Hnot. by destruct (Hnot v).
Qed.
End Loop.
End HookFacts.

Section CacheFacts.
Import Js ImageGeneration.

Lemma precheck_frame promptOverride opts now st :
  history (snd (precheck promptOverride opts now st)) = history st /\
  fetches (snd (precheck promptOverride opts now st)) = fetches st.
Proof.
  unfold precheck.
  destruct (validatePrompt (promptToUse promptOverride st)); [done |].
  destruct (getCachedResult _ now (history st)); [| done].
  by destruct (forceRegenerate opts).
Qed.

Lemma setError_frame e l st :
  history (setError e l st) = history st /\ fetches (setError e l st) = fetches st.
Proof. done. Qed.

Lemma getCachedResult_fresh prompt now h cached :
  h !! normalize prompt = Some cached -> now - timestamp cached < 300000 ->
  getCachedResult prompt now h = Some cached.
Proof.
  intros Hk Hfresh. unfold getCachedResult. rewrite Hk.
  destruct (Z.ltb_spec (now - timestamp cached) 300000); [done | lia].
Qed.

Lemma getCachedResult_expired prompt now h cached :
  h !! normalize prompt = Some cached -> 300000 <= now - timestamp cached ->
  getCachedResult prompt now h = None.
Proof.
  intros Hk Hold. unfold getCachedResult. rewrite Hk.
  destruct (Z.ltb_spec (now - timestamp cached) 300000); [lia | done].
Qed.

Section Run.
Variable maxRetries : nat.
Variable baseDelay : Q.
Variable random : nat -> Q.
Variable env : Env.

(** What a call does once it has decided to generate. *)
Lemma generateImages_executes promptOverride opts now st prompt st0 :
  precheck promptOverride opts now st = (inr prompt, st0) ->
  let run := ErrorHandler.executeWithErrorHandling (generateFn env prompt opts)
               maxRetries true baseDelay random st0 in
  let r := generateImages maxRetries baseDelay random env promptOverride opts now st in
  fst (fst r) = RetExecuted (fst (fst run)) /\
  history (snd r) = history (snd run) /\
  fetches (snd r) = fetches (snd run).
Proof.
  intros Hpre run r. subst r. unfold generateImages. rewrite Hpre. fold run.
  destruct run as [[out evs] st2]. by destruct out.
Qed.

Lemma precheck_generates promptOverride opts now st :
  validatePrompt (promptToUse promptOverride st) = None ->
  getCachedResult (promptToUse promptOverride st) now (history st) = None
  \/ forceRegenerate opts = true ->
  exists st0, precheck promptOverride opts now st
              = (inr (promptToUse promptOverride st), st0).
Proof.
  intros Hvalid Hmiss. unfold precheck. rewrite Hvalid.
  destruct (getCachedResult _ now (history st)) as [cached|]; [| by eexists].
  destruct Hmiss as [Hmiss | ->]; [discriminate | by eexists].
Qed.

(** Once a call generates, [fetch] is called. *)
Lemma generateImages_fetches promptOverride opts now st :
  validatePrompt (promptToUse promptOverride st) = None ->
  getCachedResult (promptToUse promptOverride st) now (history st) = None
  \/ forceRegenerate opts = true ->
  (List.length (fetches st) <
   List.length (fetches (snd (generateImages maxRetries baseDelay random env
                                promptOverride opts now st))))%nat.
Proof.
  intros Hvalid Hmiss.
  destruct (precheck_generates _ _ now st Hvalid Hmiss) as [st0 Hpre].
  destruct (generateImages_executes _ _ _ _ _ _ Hpre) as (_ & _ & ->).
  pose proof (precheck_frame promptOverride opts now st) as [_ Hf].
  rewrite Hpre in Hf. simpl in Hf.
  unfold ErrorHandler.executeWithErrorHandling.
  rewrite loop_fetches, Hf.
  pose proof (loop_invokes maxRetries baseDelay random env
                (promptToUse promptOverride st) opts maxRetries 0%nat st0).
  lia.
Qed.

(** A call that does not resolve with a generated result leaves the
    history as it was. *)
Lemma generateImages_history promptOverride opts now st :
  let r := generateImages maxRetries baseDelay random env promptOverride opts now st in
  (forall v, fst (fst r) <> RetExecuted (ErrorHandler.Resolved v)) ->
  history (snd r) = history st.
Proof.
  intros r. subst r.
  pose proof (precheck_frame promptOverride opts now st) as [Hh _].
  destruct (precheck promptOverride opts now st) as [[ret|prompt] st0] eqn:Hpre.
  - unfold generateImages. rewrite Hpre. done.
  - destruct (generateImages_executes _ _ _ _ _ _ Hpre) as (Hret & Hhist & _).
    rewrite Hret. simpl in Hh.
    unfold ErrorHandler.executeWithErrorHandling in *.
    intros Hnot. rewrite Hhist, loop_failure_history; [done |].
    intros v Hv. apply (Hnot v). by rewrite Hv.
Qed.

(** A call for a prompt that fails validation returns at once. *)
Lemma generateImages_invalid promptOverride opts now st msg :
  validatePrompt (promptToUse promptOverride st) = Some msg ->
  let r := generateImages maxRetries baseDelay random env promptOverride opts now st in
  fst (fst r) = RetUndefined /\ fetches (snd r) = fetches st /\
  history (snd r) = history st.
Proof.
  intros Hinvalid. unfold generateImages, precheck. by rewrite Hinvalid.
Qed.
End Run.
End CacheFacts.

(** C6, as the code has it.  A call validates its prompt before it looks
    at the cache: a prompt that fails [validatePrompt] is answered at once,
    without a cached result and without a call of [fetch], whatever the
    cache holds for its key.  For a prompt that passes, when the
    normalized key (trim, then lower case) has a cached result younger
    than 300000 ms and [forceRegenerate] is not set, the call returns that
    cached result and [fetch] is not called; with [forceRegenerate] set,
    or once 300000 ms have passed, [fetch] is called again.  A generation
    that does not succeed leaves the cache as it was. *)
Theorem cached_result_served (maxRetries : nat) (baseDelay : Q)
    (random : nat -> Q) (env : ImageGeneration.Env)
    (promptOverride : option string) (opts : ImageGeneration.GenOptions)
    (now : Z) (st : ImageGeneration.HookState) :
  let prompt := ImageGeneration.promptToUse promptOverride st in
  let r := ImageGeneration.generateImages maxRetries baseDelay random env
             promptOverride opts now st in
  let returned := fst (fst r) in
  let st' := snd r in
  (ImageGeneration.validatePrompt prompt = None ->
   forall cached,
     ImageGeneration.history st !! ImageGeneration.normalize prompt = Some cached ->
     (now - ImageGeneration.timestamp cached < 300000 ->
      ImageGeneration.forceRegenerate opts = false ->
      returned = ImageGeneration.RetCached cached /\
      ImageGeneration.fetches st' = ImageGeneration.fetches st /\
      ImageGeneration.history st' = ImageGeneration.history st) /\
     (now - ImageGeneration.timestamp cached < 300000 ->
      ImageGeneration.forceRegenerate opts = true ->
      (List.length (ImageGeneration.fetches st)
       < List.length (ImageGeneration.fetches st'))%nat) /\
     (300000 <= now - ImageGeneration.timestamp cached ->
      (List.length (ImageGeneration.fetches st)
       < List.length (ImageGeneration.fetches st'))%nat)) /\
  (ImageGeneration.validatePrompt prompt <> None ->
   returned = ImageGeneration.RetUndefined /\
   ImageGeneration.fetches st' = ImageGeneration.fetches st /\
   ImageGeneration.history st' = ImageGeneration.history st) /\
  ((forall result,
      returned <> ImageGeneration.RetExecuted (ErrorHandler.Resolved result)) ->
   ImageGeneration.history st' = ImageGeneration.history st).
Proof.
  intros prompt r returned st'. split_and!.
  - intros Hvalid cached Hk. split_and!.
    + intros Hfresh Hforce. subst returned st' r.
      unfold ImageGeneration.generateImages, ImageGeneration.precheck.
      fold prompt. rewrite Hvalid.
      rewrite (getCachedResult_fresh prompt now _ cached Hk Hfresh), Hforce.
      simpl. by repeat split.
    + intros _ Hforce. apply generateImages_fetches; [exact Hvalid | by right].
    + intros Hold. apply generateImages_fetches; [exact Hvalid | left].
      by apply (getCachedResult_expired prompt now _ cached).
  - intros Hinvalid.
    destruct (ImageGeneration.validatePrompt prompt) as [msg|] eqn:Hmsg; [| done].
    exact (generateImages_invalid maxRetries baseDelay random env promptOverride
             opts now st msg Hmsg).
  - apply generateImages_history.
Qed.

Lemma cached_result_served_witness :
  let r := ImageGeneration.generateImages 3 1000%Q (fun _ => 0%Q) Scenario.one_image
             (Some "  A CAT "%string) (ImageGeneration.mkGenOptions false)
             1000 Scenario.cat_cached in
  fst (fst r) = ImageGeneration.RetCached
                  (ImageGeneration.mkEntry Scenario.cat_result 0) /\
  ImageGeneration.fetches (snd r) = ImageGeneration.fetches Scenario.cat_cached.
Proof.
  intros r.
  destruct (cached_result_served 3 1000%Q (fun _ => 0%Q) Scenario.one_image
              (Some "  A CAT "%string) (ImageGeneration.mkGenOptions false)
              1000 Scenario.cat_cached) as (Hcache & _ & _).
  destruct (Hcache eq_refl (ImageGeneration.mkEntry Scenario.cat_result 0)
              (lookup_singleton_eq _ _)) as (Hhit & _ & _).
  destruct (Hhit ltac:(simpl; lia) eq_refl) as (Hret & Hfetch & _).
  split; [exact Hret | exact Hfetch].
Defined.

(** C6 as stated fails when [forceRegenerate] is set: the key "a cat" has a
    result cached 1000 ms ago, and the call still calls [fetch] and returns
    the new result. *)
Lemma force_regenerate_skips_cache :
  let r := ImageGeneration.generateImages 3 1000%Q (fun _ => 0%Q) Scenario.one_image
             (Some "A cat"%string) (ImageGeneration.mkGenOptions true)
             1000 Scenario.cat_cached in
  ImageGeneration.getCachedResult "A cat" 1000
    (ImageGeneration.history Scenario.cat_cached)
    = Some (ImageGeneration.mkEntry Scenario.cat_result 0) /\
  List.length (ImageGeneration.fetches Scenario.cat_cached) = 1%nat /\
  List.length (ImageGeneration.fetches (snd r)) = 2%nat /\
  fst (fst r) <> ImageGeneration.RetCached
                   (ImageGeneration.mkEntry Scenario.cat_result 0).
Proof.
  vm_compute. split; [reflexivity |]. split; [reflexivity |].
  split; [reflexivity | discriminate].
Qed.

(** ** Concurrent calls *)

Section ConcurrencyFacts.
Import Js ImageGeneration.

Lemma valid_prompt_truthy prompt :
  validatePrompt prompt = None -> JsString.truthy (Some prompt) = Some prompt.
Proof. destruct prompt; [discriminate | reflexivity]. Qed.

End ConcurrencyFacts.

(** ** Calls that overlap *)

Section InterleavingFacts.
Import Js ImageGeneration Interleaving.
Variable maxRetries : nat.
Variable baseDelay : Q.

(** [precheck] leaves the refs of the hook alone. *)
Lemma precheck_refs promptOverride opts now h :
  let h' := snd (precheck promptOverride opts now h) in
  currentRequest h' = currentRequest h /\ nextController h' = nextController h /\
  aborted h' = aborted h /\ fetches h' = fetches h /\ history h' = history h.
Proof.
  unfold precheck.
  destruct (validatePrompt (promptToUse promptOverride h)); [done |].
  destruct (getCachedResult _ now (history h)); [| done].
  by destruct (forceRegenerate opts).
Qed.

Lemma call_ok_refs h h' call :
  currentRequest h' = currentRequest h -> nextController h' = nextController h ->
  aborted h' = aborted h ->
  call_ok maxRetries h call -> call_ok maxRetries h' call.
Proof.
  intros Hc Hn Ha. destruct call; simpl; [| done ..]. by rewrite Hc, Hn, Ha.
Qed.

(** A new request makes every older one an aborted one. *)
Lemma call_ok_start prompt opts h call :
  call_ok maxRetries h call ->
  call_ok maxRetries (snd (generateFn_start prompt opts h)) call /\
  other_controller (nextController h) call.
Proof.
  destruct call as [p o k c| | |]; simpl; [| done ..].
  intros (Hk & Hc & Hlive). split_and!; [done | lia | | lia].
  right. destruct Hlive as [-> | Hin]; [set_solver |].
  destruct (currentRequest h); set_solver.
Qed.

(** What the end of [generateFn] does to the refs. *)
Lemma finish_refs prompt abortController r now h :
  let h' := snd (generateFn_finish prompt abortController r now h) in
  nextController h' = nextController h /\ aborted h' = aborted h /\
  fetches h' = fetches h /\
  (currentRequest h' = currentRequest h \/
   currentRequest h = Some abortController /\ currentRequest h' = None).
Proof.
  assert (forall s, nextController (finally abortController s) = nextController s /\
                    aborted (finally abortController s) = aborted s /\
                    fetches (finally abortController s) = fetches s /\
                    (currentRequest (finally abortController s) = currentRequest s \/
                     currentRequest s = Some abortController /\
                     currentRequest (finally abortController s) = None)) as Hfinally.
  { intros s. unfold finally. destruct (currentRequest s) as [c|] eqn:Hc.
    - destruct (Nat.eqb_spec c abortController) as [->|]; simpl.
      + split_and!; try done. by right.
      + split_and!; try done. by left.
    - split_and!; try done. by left. }
  unfold generateFn_finish.
  destruct r as [e|status statusText errorField|body]; cbn [snd];
    [apply Hfinally | apply Hfinally |].
  destruct (body_imageUrls body); cbn [snd]; [| apply Hfinally].
  match goal with |- context [finally abortController ?s] =>
    destruct (Hfinally s) as (Hn & Ha & Hf & Hc) end.
  by split_and!.
Qed.

Lemma call_ok_finish prompt abortController r now h call :
  other_controller abortController call ->
  call_ok maxRetries h call ->
  call_ok maxRetries (snd (generateFn_finish prompt abortController r now h)) call.
Proof.
  pose proof (finish_refs prompt abortController r now h) as (Hn & Ha & _ & Hc).
  destruct call as [p o k c| | |]; simpl; [| done ..].
  intros Hother (Hk & Hlt & Hlive). rewrite Hn, Ha. split_and!; [done | done |].
  destruct Hlive as [Hcur | Hin]; [| by right].
  destruct Hc as [-> | [Hmine _]]; [by left | congruence].
Qed.

(** The invariant of the calls holds along every history. *)
Lemma start_wf promptOverride opts now c :
  wf maxRetries c -> wf maxRetries (start promptOverride opts now c).
Proof.
  intros [Hcalls Hdistinct]. unfold start.
  pose proof (precheck_refs promptOverride opts now (hook c)) as (Hc & Hn & Ha & _).
  destruct (precheck promptOverride opts now (hook c)) as [[returned|prompt] h];
    cbn [snd] in *.
  - split; cbn [hook calls].
    + apply Forall_app. split; [| by repeat constructor].
      eapply Forall_impl; [exact Hcalls |]. intros call. by apply call_ok_refs.
    + intros i j p o k ctrl call Hi Hj Hne.
      apply lookup_app_Some in Hi as [Hi | [_ Hi]];
        [| by destruct (i - List.length (calls c))%nat as [|[|]]].
      apply lookup_app_Some in Hj as [Hj | [_ Hj]]; [by eapply Hdistinct |].
      destruct (j - List.length (calls c))%nat as [|[|]]; [| done | done].
      injection Hj as <-. done.
  - assert (Forall (call_ok maxRetries h) (calls c)) as Hcalls'.
    { eapply Forall_impl; [exact Hcalls |]. intros call. by apply call_ok_refs. }
    pose proof (fun call => call_ok_start prompt opts h call) as Hstart.
    destruct (generateFn_start prompt opts h) as [abortController h'] eqn:Hgen.
    assert (abortController = nextController h /\
            nextController h' = S (nextController h) /\
            currentRequest h' = Some (nextController h)) as (-> & Hn' & Hc').
    { unfold generateFn_start in Hgen. by injection Hgen as <- <-. }
    cbn [snd] in Hstart. split; cbn [hook calls].
    + apply Forall_app. split.
      * eapply Forall_impl; [exact Hcalls' |]. intros call Hok.
        by apply Hstart.
      * constructor; [| constructor]. simpl. rewrite Hn', Hc'.
        split_and!; [lia | lia | by left].
    + assert (forall k call, calls c !! k = Some call ->
                other_controller (nextController h) call) as Hfresh.
      { intros k call Hk. apply Hstart. by eapply Forall_lookup_1. }
      intros i j p o k ctrl call Hi Hj Hne.
      apply lookup_app_Some in Hi as [Hi | [Hlen Hi]];
        apply lookup_app_Some in Hj as [Hj | [Hlen' Hj]].
      * by eapply Hdistinct.
      * destruct (j - List.length (calls c))%nat as [|[|]]; [| done | done].
        injection Hj as <-. simpl.
        specialize (Hfresh i _ Hi). simpl in Hfresh. congruence.
      * destruct (i - List.length (calls c))%nat as [|[|]]; [| done | done].
        injection Hi as <- <- <- <-. by eapply Hfresh.
      * destruct (i - List.length (calls c))%nat as [|[|]] eqn:Hi'; [| done | done].
        destruct (j - List.length (calls c))%nat as [|[|]] eqn:Hj'; [| done | done].
        lia.
Qed.

(** Replacing the call [i] keeps the invariant when the new hook is right
    for the other calls and for the new call. *)
Lemma insert_wf c h i old new :
  wf maxRetries c -> calls c !! i = Some old ->
  (forall j call, calls c !! j = Some call -> i <> j ->
     call_ok maxRetries h call /\
     match new with
     | Fetching _ _ _ abortController => other_controller abortController call
     | _ => True
     end) ->
  call_ok maxRetries h new ->
  forall rt nt cl,
  wf maxRetries {| hook := h; retryTimeout := rt; nextTimer := nt; cleared := cl;
                   calls := <[i := new]> (calls c) |}.
Proof.
  intros [Hcalls Hdistinct] Hold Hothers Hnew rt nt cl. split; cbn [hook calls].
  - apply Forall_lookup. intros j call Hj.
    apply list_lookup_insert_Some in Hj as [(-> & <- & _) | [Hne Hj]]; [done |].
    by apply (Hothers j call).
  - intros i' j' p o k ctrl call Hi' Hj' Hne.
    apply list_lookup_insert_Some in Hi' as [(<- & Hi' & _) | [Hnei Hi']];
      apply list_lookup_insert_Some in Hj' as [(<- & Hj' & _) | [Hnej Hj']].
    + done.
    + subst new. by apply (Hothers j' call).
    + subst call. destruct new as [p' o' k' c'| | |]; simpl; [| done ..].
      destruct (Hothers i' _ Hi' ltac:(done)) as [_ Hother]. simpl in Hother.
      congruence.
    + by eapply Hdistinct.
Qed.

Lemma reply_wf call r now c c' :
  wf maxRetries c -> reply call r now c = Some c' -> wf maxRetries c'.
Proof.
  intros Hwf. unfold reply.
  destruct (calls c !! call) as [[prompt opts k abortController| | |]|] eqn:Hcall;
    try discriminate.
  pose proof Hwf as [Hcalls Hdistinct].
  pose proof (Forall_lookup_1 _ _ _ _ Hcalls Hcall) as (Hk & _).
  destruct (generateFn_finish prompt abortController r now (hook c))
    as [outcome h] eqn:Hfinish.
  intros [= <-]. eapply insert_wf; [exact Hwf | exact Hcall | | exact Hk].
  intros j other Hj Hne. split; [| done].
  replace h with (snd (generateFn_finish prompt abortController r now (hook c)))
    by (by rewrite Hfinish).
  apply call_ok_finish.
  - by eapply Hdistinct.
  - by eapply Forall_lookup_1.
Qed.

Lemma resume_wf call random c c' :
  wf maxRetries c -> resume maxRetries baseDelay call random c = Some c' ->
  wf maxRetries c'.
Proof.
  intros Hwf. unfold resume.
  destruct (calls c !! call) as [[|prompt opts k [error|result]| |]|] eqn:Hcall;
    try discriminate.
  - pose proof Hwf as [Hcalls _].
    pose proof (Forall_lookup_1 _ _ _ _ Hcalls Hcall) as Hk. simpl in Hk.
    destruct (Nat.ltb_spec maxRetries (S k)) as [Hlast|Hmore]; cbn [orb].
    + intros [= <-]. eapply insert_wf; [exact Hwf | exact Hcall | | done].
      intros j other Hj Hne. split; [| done].
      eapply call_ok_refs; [done | done | done |]. by eapply Forall_lookup_1.
    + destruct (negb (ErrorHandler.p_retryable (ErrorHandler.processError error)));
        intros [= <-].
      * eapply insert_wf; [exact Hwf | exact Hcall | | done].
        intros j other Hj Hne. split; [| done].
        eapply call_ok_refs; [done | done | done |]. by eapply Forall_lookup_1.
      * eapply insert_wf; [exact Hwf | exact Hcall | | simpl; lia].
        intros j other Hj Hne. split; [| done]. by eapply Forall_lookup_1.
  - intros [= <-]. eapply insert_wf; [exact Hwf | exact Hcall | | done].
    intros j other Hj Hne. split; [| done].
    pose proof Hwf as [Hcalls _].
    eapply call_ok_refs; [done | done | done |]. by eapply Forall_lookup_1.
Qed.

Lemma fire_wf call c c' :
  wf maxRetries c -> fire call c = Some c' -> wf maxRetries c'.
Proof.
  intros Hwf. unfold fire.
  destruct (calls c !! call) as [[| |prompt opts k timer delay|]|] eqn:Hcall;
    try discriminate.
  destruct (bool_decide (timer ∈ cleared c)); [discriminate |].
  pose proof Hwf as [Hcalls _].
  pose proof (Forall_lookup_1 _ _ _ _ Hcalls Hcall) as Hk. simpl in Hk.
  pose proof (fun other => call_ok_start prompt opts (hook c) other) as Hstart.
  destruct (generateFn_start prompt opts (hook c)) as [abortController h] eqn:Hgen.
  assert (abortController = nextController (hook c) /\
          nextController h = S (nextController (hook c)) /\
          currentRequest h = Some (nextController (hook c))) as (-> & Hn & Hc).
  { unfold generateFn_start in Hgen. by injection Hgen as <- <-. }
  cbn [snd] in Hstart. intros [= <-].
  eapply insert_wf; [exact Hwf | exact Hcall | |].
  - intros j other Hj Hne. apply Hstart. by eapply Forall_lookup_1.
  - simpl. rewrite Hn, Hc. split_and!; [lia | lia | by left].
Qed.

Lemma step_wf e c c' :
  wf maxRetries c -> step maxRetries baseDelay e c = Some c' -> wf maxRetries c'.
Proof.
  intros Hwf. destruct e as [promptOverride opts now|call r now|call random|call];
    simpl.
  - intros [= <-]. by apply start_wf.
  - by apply reply_wf.
  - by apply resume_wf.
  - by apply fire_wf.
Qed.

Lemma run_wf events : forall c c',
  wf maxRetries c -> run maxRetries baseDelay events c = Some c' ->
  wf maxRetries c'.
Proof.
  induction events as [|e rest IH]; intros c c' Hwf; simpl.
  - by intros [= <-].
  - destruct (step maxRetries baseDelay e c) as [c1|] eqn:Hstep; [| discriminate].
    apply IH. by eapply step_wf.
Qed.

(** At most one pending request has not been aborted. *)
Lemma wf_one_live c i j pi oi ki ci pj oj kj cj :
  wf maxRetries c ->
  calls c !! i = Some (Fetching pi oi ki ci) ->
  calls c !! j = Some (Fetching pj oj kj cj) ->
  ci ∉ aborted (hook c) -> cj ∉ aborted (hook c) -> i = j.
Proof.
  intros [Hcalls Hdistinct] Hi Hj Hlivei Hlivej.
  destruct (decide (i = j)) as [|Hne]; [done |]. exfalso.
  pose proof (Forall_lookup_1 _ _ _ _ Hcalls Hi) as (_ & _ & [Hci | Hin]); [| done].
  pose proof (Forall_lookup_1 _ _ _ _ Hcalls Hj) as (_ & _ & [Hcj | Hin]); [| done].
  specialize (Hdistinct i j _ _ _ _ _ Hi Hj Hne). simpl in Hdistinct. congruence.
Qed.

Lemma start_fetches prompt opts h :
  fetches (snd (generateFn_start prompt opts h))
  = fetches h ++ [mkFetchCall prompt opts (nextController h)].
Proof. reflexivity. Qed.

Lemma finish_fetches prompt abortController r now h :
  fetches (snd (generateFn_finish prompt abortController r now h)) = fetches h.
Proof.
  unfold generateFn_finish, finally.
  repeat (case_match; simplify_eq; cbn; try done).
Qed.

Lemma precheck_fetches promptOverride opts now h :
  fetches (snd (precheck promptOverride opts now h)) = fetches h.
Proof.
  unfold precheck. repeat (case_match; simplify_eq; cbn; try done).
Qed.

(** The requests made so far stay in the log: every event extends it. *)
Lemma step_fetches e c c' :
  step maxRetries baseDelay e c = Some c' ->
  exists more, fetches (hook c') = fetches (hook c) ++ more.
Proof.
  destruct e as [promptOverride opts now|call r now|call random|call]; simpl.
  - intros [= <-]. unfold start.
    pose proof (precheck_fetches promptOverride opts now (hook c)) as Hpre.
    destruct (precheck promptOverride opts now (hook c)) as [[returned|prompt] h];
      cbn [snd] in Hpre.
    + exists []. cbn. by rewrite Hpre, app_nil_r.
    + pose proof (start_fetches prompt opts h) as Hstart.
      destruct (generateFn_start prompt opts h) as [abortController h'].
      cbn [snd] in Hstart. eexists. cbn. by rewrite Hstart, Hpre.
  - unfold reply. repeat case_match; try discriminate. intros [= <-]. subst.
    match goal with
    | H : generateFn_finish ?p ?a ?r ?n ?h = _ |- _ =>
        pose proof (finish_fetches p a r n h) as Hfin; rewrite H in Hfin
    end.
    exists []. cbn in *. by rewrite Hfin, app_nil_r.
  - unfold resume. repeat case_match; try discriminate; intros [= <-];
      exists []; cbn; by rewrite app_nil_r.
  - unfold fire. repeat case_match; try discriminate. intros [= <-]. subst.
    match goal with
    | H : generateFn_start ?p ?o ?h = _ |- _ =>
        pose proof (start_fetches p o h) as Hstart; rewrite H in Hstart
    end.
    eexists. cbn in *. exact Hstart.
Qed.

Lemma run_fetches events : forall c c',
  run maxRetries baseDelay events c = Some c' ->
  exists more, fetches (hook c') = fetches (hook c) ++ more.
Proof.
  induction events as [|e rest IH]; intros c c'; simpl.
  - intros [= <-]. exists []. by rewrite app_nil_r.
  - destruct (step maxRetries baseDelay e c) as [c1|] eqn:Hstep; [| discriminate].
    intros Hrun. destruct (step_fetches _ _ _ Hstep) as [m1 H1].
    destruct (IH _ _ Hrun) as [m2 H2]. exists (m1 ++ m2).
    by rewrite H2, H1, app_assoc.
Qed.

Lemma sum_list_snoc l n : sum_list (l ++ [n]) = (sum_list l + n)%nat.
Proof. induction l as [|a l IH]; simpl; lia. Qed.

Lemma sum_list_insert {A} (f : A -> nat) l i x y :
  l !! i = Some x ->
  (sum_list (f <$> <[i := y]> l) + f x = sum_list (f <$> l) + f y)%nat.
Proof.
  revert i. induction l as [|a l IH]; intros [|i] Hi; simplify_eq/=.
  - lia.
  - specialize (IH i Hi). lia.
Qed.

(** No event other than a call of [generateImages] raises the budget. *)
Lemma step_budget e c c' :
  wf maxRetries c ->
  match e with Start _ _ _ => False | _ => True end ->
  step maxRetries baseDelay e c = Some c' ->
  (budget maxRetries c' <= budget maxRetries c)%nat.
Proof.
  intros [Hcalls _] Hne.
  destruct e as [promptOverride opts now|call r now|call random|call];
    [done | | |]; simpl; unfold budget.
  - unfold reply.
    destruct (calls c !! call) as [[prompt opts k abortController| | |]|] eqn:Hcall;
      try discriminate.
    pose proof (finish_fetches prompt abortController r now (hook c)) as Hfin.
    destruct (generateFn_finish prompt abortController r now (hook c))
      as [outcome h]. cbn [snd] in Hfin. intros [= <-]. cbn [hook calls].
    pose proof (sum_list_insert (fetchesLeft maxRetries) _ _ _
                  (Settled prompt opts k outcome) Hcall) as Hsum.
    simpl in Hsum. rewrite Hfin. lia.
  - unfold resume.
    destruct (calls c !! call) as [[|prompt opts k [error|result]| |]|] eqn:Hcall;
      try discriminate.
    + destruct (Nat.ltb_spec maxRetries (S k)) as [Hlast|Hmore]; cbn [orb].
      * intros [= <-]. cbn [hook calls].
        pose proof (sum_list_insert (fetchesLeft maxRetries) _ _ _
          (Finished (RetExecuted (ErrorHandler.Rejected
                                    (ErrorHandler.processError error)))) Hcall)
          as Hsum.
        simpl in Hsum. simpl. lia.
      * destruct (negb (ErrorHandler.p_retryable (ErrorHandler.processError error)));
          intros [= <-]; cbn [hook calls].
        -- pose proof (sum_list_insert (fetchesLeft maxRetries) _ _ _
             (Finished (RetExecuted (ErrorHandler.Rejected
                                       (ErrorHandler.processError error)))) Hcall)
             as Hsum.
           simpl in Hsum. simpl. lia.
        -- pose proof (sum_list_insert (fetchesLeft maxRetries) _ _ _
             (Sleeping prompt opts (S k) (nextTimer c)
                (ErrorHandler.calculateBackoffDelay (Z.of_nat (S k)) baseDelay random))
             Hcall) as Hsum.
           cbn [fetchesLeft] in Hsum. lia.
    + intros [= <-]. cbn [hook calls].
      pose proof (sum_list_insert (fetchesLeft maxRetries) _ _ _
        (Finished (RetExecuted (ErrorHandler.Resolved result))) Hcall) as Hsum.
      simpl in Hsum. simpl. lia.
  - unfold fire.
    destruct (calls c !! call) as [[| |prompt opts k timer delay|]|] eqn:Hcall;
      try discriminate.
    destruct (bool_decide (timer ∈ cleared c)); [discriminate |].
    pose proof (Forall_lookup_1 _ _ _ _ Hcalls Hcall) as Hk. simpl in Hk.
    pose proof (start_fetches prompt opts (hook c)) as Hstart.
    destruct (generateFn_start prompt opts (hook c)) as [abortController h].
    cbn [snd] in Hstart. intros [= <-]. cbn [hook calls].
    pose proof (sum_list_insert (fetchesLeft maxRetries) _ _ _
                  (Fetching prompt opts k abortController) Hcall) as Hsum.
    cbn [fetchesLeft] in Hsum. rewrite Hstart, length_app. simpl. lia.
Qed.

Lemma run_budget events : forall c c',
  wf maxRetries c -> noStart events ->
  run maxRetries baseDelay events c = Some c' ->
  (budget maxRetries c' <= budget maxRetries c)%nat.
Proof.
  induction events as [|e rest IH]; intros c c' Hwf Hno; simpl.
  - intros [= <-]. lia.
  - destruct (step maxRetries baseDelay e c) as [c1|] eqn:Hstep; [| discriminate].
    intros Hrun. apply Forall_cons in Hno as [He Hrest].
    pose proof (step_budget _ _ _ Hwf He Hstep).
    pose proof (IH _ _ (step_wf _ _ _ Hwf Hstep) Hrest Hrun). lia.
Qed.

(** A call of [generateImages] raises the budget by at most
    [maxRetries + 1]. *)
Lemma start_budget promptOverride opts now c :
  (budget maxRetries (start promptOverride opts now c)
   <= budget maxRetries c + S maxRetries)%nat.
Proof.
  unfold budget, start.
  pose proof (precheck_fetches promptOverride opts now (hook c)) as Hpre.
  destruct (precheck promptOverride opts now (hook c)) as [[returned|prompt] h];
    cbn [snd] in Hpre.
  - cbn [hook calls]. rewrite fmap_app, Hpre. simpl. rewrite sum_list_snoc. lia.
  - pose proof (start_fetches prompt opts h) as Hstart.
    destruct (generateFn_start prompt opts h) as [abortController h'].
    cbn [snd] in Hstart. cbn [hook calls].
    rewrite fmap_app, Hstart, length_app, Hpre. simpl. rewrite sum_list_snoc. lia.
Qed.

Lemma quiescent_budget c :
  quiescent c -> budget maxRetries c = length (fetches (hook c)).
Proof.
  unfold budget, quiescent. induction (calls c) as [|call l IH]; intros Hq.
  - simpl. lia.
  - apply Forall_cons in Hq as [Hcall Hl]. specialize (IH Hl).
    destruct call; try done.
Qed.

Lemma lookup_end1 {A} (l : list A) a b : (l ++ [a; b]) !! length l = Some a.
Proof. by rewrite lookup_app_r, Nat.sub_diag by lia. Qed.

Lemma lookup_end2 {A} (l : list A) a b : (l ++ [a; b]) !! S (length l) = Some b.
Proof.
  rewrite lookup_app_r by lia. by replace (S (length l) - length l)%nat with 1%nat by lia.
Qed.

Lemma insert_end1 {A} (l : list A) a b x :
  <[length l := x]> (l ++ [a; b]) = l ++ [x; b].
Proof. by rewrite insert_app_r_alt, Nat.sub_diag by lia. Qed.

Lemma insert_end2 {A} (l : list A) a b x :
  <[S (length l) := x]> (l ++ [a; b]) = l ++ [a; x].
Proof.
  rewrite insert_app_r_alt by lia.
  by replace (S (length l) - length l)%nat with 1%nat by lia.
Qed.

(** A call that passes validation and finds nothing to serve calls
    [fetch] before its first [await]. *)
Lemma start_miss prompt opts now c :
  validatePrompt prompt = None ->
  getCachedResult prompt now (history (hook c)) = None ->
  let c' := start (Some prompt) opts now c in
  calls c' = calls c ++ [Fetching prompt opts 0 (nextController (hook c))] /\
  fetches (hook c') =
    fetches (hook c) ++ [mkFetchCall prompt opts (nextController (hook c))] /\
  history (hook c') = history (hook c) /\
  currentRequest (hook c') = Some (nextController (hook c)) /\
  nextController (hook c') = S (nextController (hook c)) /\
  aborted (hook c') = match currentRequest (hook c) with
                      | Some previous => aborted (hook c) ++ [previous]
                      | None => aborted (hook c)
                      end /\
  hook c' = snd (generateImages_begin (Some prompt) opts now (hook c)).
Proof.
  intros Hvalid Hmiss. unfold start, generateImages_begin, precheck, promptToUse.
  rewrite (valid_prompt_truthy prompt Hvalid), Hvalid, Hmiss. simpl.
  by repeat split.
Qed.

(** A request that is answered with a list of images settles its call
    with the result built from this answer, and caches it. *)
Lemma reply_ok call prompt opts k abortController body urls now c :
  calls c !! call = Some (Fetching prompt opts k abortController) ->
  body_imageUrls body = Some urls ->
  exists result h,
    reply call (Ok body) now c
    = Some {| hook := h; retryTimeout := retryTimeout c; nextTimer := nextTimer c;
              cleared := cleared c;
              calls := <[call := Settled prompt opts k (inr result)]> (calls c) |} /\
    images result = urls /\
    fetches h = fetches (hook c) /\
    history h = <[normalize prompt := mkEntry result now]> (history (hook c)).
Proof.
  intros Hcall Hurls. unfold reply. rewrite Hcall.
  unfold generateFn_finish. rewrite Hurls.
  eexists _, _. split; [reflexivity |]. split; [reflexivity |].
  unfold finally. cbn. repeat case_match; by cbn.
Qed.

Lemma resume_ok call prompt opts k result random c :
  calls c !! call = Some (Settled prompt opts k (inr result)) ->
  exists h rt cl,
    resume maxRetries baseDelay call random c
    = Some {| hook := h; retryTimeout := rt; nextTimer := nextTimer c; cleared := cl;
              calls := <[call := Finished (RetExecuted (ErrorHandler.Resolved result))]>
                         (calls c) |} /\
    fetches h = fetches (hook c) /\
    history h = history (hook c).
Proof.
  intros Hcall. unfold resume. rewrite Hcall. by eexists _, _, _.
Qed.

Lemma wf_initial : wf maxRetries initial.
Proof. split; [constructor | intros i j ? ? ? ? ? Hi; destruct i; discriminate Hi]. Qed.

Lemma timers_initial : timers_ok initial.
Proof. split; [constructor | discriminate]. Qed.

Lemma clear_timers c :
  timers_ok c ->
  Forall (fun timer => (timer < nextTimer c)%nat) (snd (clearRetryTimeout c)) /\
  fst (clearRetryTimeout c) = None.
Proof.
  intros [Hcleared Href]. unfold clearRetryTimeout.
  destruct (retryTimeout c) as [timer|]; [| done]. split; [| done].
  apply Forall_app. split; [done |]. constructor; [by apply Href | constructor].
Qed.

Lemma step_timers e c c' :
  timers_ok c -> step maxRetries baseDelay e c = Some c' -> timers_ok c'.
Proof.
  intros Hok. pose proof (clear_timers c Hok) as [Hclear Hnone].
  pose proof Hok as [Hcleared Href].
  destruct e as [promptOverride opts now|call r now|call random|call]; simpl.
  - intros [= <-]. unfold start.
    destruct (precheck promptOverride opts now (hook c)) as [[returned|prompt] h];
      [done |].
    destruct (generateFn_start prompt opts h) as [abortController h'].
    split; cbn [cleared retryTimeout nextTimer]; [done | intros timer; by rewrite Hnone].
  - unfold reply. repeat case_match; try discriminate. by intros [= <-].
  - unfold resume. repeat case_match; try discriminate; intros [= <-];
      split; cbn [cleared retryTimeout nextTimer]; try done.
    + eapply Forall_impl; [exact Hcleared | simpl; lia].
    + intros timer [= <-]. lia.
    + intros timer. by rewrite Hnone.
  - unfold fire. repeat case_match; try discriminate. by intros [= <-].
Qed.

Lemma run_timers events : forall c c',
  timers_ok c -> run maxRetries baseDelay events c = Some c' -> timers_ok c'.
Proof.
  induction events as [|e rest IH]; intros c c' Hok; simpl.
  - by intros [= <-].
  - destruct (step maxRetries baseDelay e c) as [c1|] eqn:Hstep; [| discriminate].
    apply IH. by eapply step_timers.
Qed.

(** A request that is rejected settles its call with the error. *)
Lemma reply_throws call prompt opts k abortController error now c :
  calls c !! call = Some (Fetching prompt opts k abortController) ->
  currentRequest (hook c) <> Some abortController ->
  reply call (Throws error) now c
  = Some {| hook := hook c; retryTimeout := retryTimeout c; nextTimer := nextTimer c;
            cleared := cleared c;
            calls := <[call := Settled prompt opts k (inl error)]> (calls c) |}.
Proof.
  intros Hcall Hcurrent. unfold reply. rewrite Hcall. cbn. unfold finally.
  destruct (currentRequest (hook c)) as [current|]; [| done].
  destruct (Nat.eqb_spec current abortController) as [->|]; [done | done].
Qed.

(** A call whose request was rejected with an error that can be retried,
    and that has attempts left, waits for a timer. *)
Lemma resume_retry call prompt opts k error random c :
  calls c !! call = Some (Settled prompt opts k (inl error)) ->
  (S k <= maxRetries)%nat ->
  ErrorHandler.p_retryable (ErrorHandler.processError error) = true ->
  resume maxRetries baseDelay call random c
  = Some {| hook := hook c; retryTimeout := Some (nextTimer c);
            nextTimer := S (nextTimer c); cleared := cleared c;
            calls := <[call := Sleeping prompt opts (S k) (nextTimer c)
                                 (ErrorHandler.calculateBackoffDelay
                                    (Z.of_nat (S k)) baseDelay random)]> (calls c) |}.
Proof.
  intros Hcall Hk Hretry. unfold resume. rewrite Hcall, Hretry.
  destruct (Nat.ltb_spec maxRetries (S k)); [lia | done].
Qed.

(** The timer of a sleeping call fires, and the call sends its next
    request. *)
Lemma fire_sleeping call prompt opts k timer delay c :
  calls c !! call = Some (Sleeping prompt opts k timer delay) ->
  timer ∉ cleared c ->
  fire call c
  = Some {| hook := snd (generateFn_start prompt opts (hook c));
            retryTimeout := retryTimeout c; nextTimer := nextTimer c;
            cleared := cleared c;
            calls := <[call := Fetching prompt opts k (nextController (hook c))]>
                       (calls c) |}.
Proof.
  intros Hcall Hlive. unfold fire. rewrite Hcall.
  by rewrite bool_decide_eq_false_2.
Qed.
End InterleavingFacts.

(** ** A call that runs alone *)

Section SoloFacts.
Import Js ImageGeneration Interleaving.
Variable maxRetries : nat.
Variable baseDelay : Q.
Variable env : Env.
Variable random : nat -> Q.

Lemma soloEvents_noStart call prompt opts remaining : forall k st,
  noStart (soloEvents maxRetries env random call prompt opts remaining k st).
Proof.
  induction remaining as [|r IH]; intros k st; cbn [soloEvents]; [constructor |].
  destruct (generateFn env prompt opts st) as [[error|result] st'].
  - constructor; [done |]. constructor; [done |].
    match goal with |- context [if ?b then _ else _] => destruct b end;
      [constructor |].
    constructor; [done | apply IH].
  - repeat constructor.
Qed.

(** The retry loop of a call that runs alone is the loop of
    [ErrorHandler.executeWithErrorHandling]. *)
Lemma solo_loop call prompt opts remaining : forall k st c,
  (k + remaining = S maxRetries)%nat -> (0 < remaining)%nat ->
  timers_ok c ->
  hook c = snd (generateFn_start prompt opts st) ->
  calls c !! call = Some (Fetching prompt opts k (nextController st)) ->
  exists c',
    run maxRetries baseDelay
      (soloEvents maxRetries env random call prompt opts remaining k st) c = Some c' /\
    let r := ErrorHandler.loop (generateFn env prompt opts) maxRetries true baseDelay
               random remaining k st in
    calls c' = <[call := Finished (RetExecuted (fst (fst r)))]> (calls c) /\
    hook c' = match fst (fst r) with
              | ErrorHandler.Rejected e => setError (Some e) false (snd r)
              | _ => setError None (ui_loading (ui (snd r))) (snd r)
              end.
Proof.
  induction remaining as [|r IH]; intros k st c Hsum Hpos Htimers Hhook Hcall;
    [lia |].
  cbn [soloEvents ErrorHandler.loop].
  assert (generateFn env prompt opts st
          = generateFn_finish prompt (nextController st)
              (fst (env (length (fetches st)))) (snd (env (length (fetches st))))
              (hook c)) as Hgen.
  { unfold generateFn. destruct (env (length (fetches st))) as [reply now].
    rewrite Hhook. reflexivity. }
  destruct (generateFn env prompt opts st) as [outcome st'] eqn:Hop.
  cbn [run step]. unfold reply. rewrite Hcall, <- Hgen.
  match goal with |- context [resume _ _ _ _ ?c] => set (c1 := c) end.
  assert (calls c1 !! call = Some (Settled prompt opts k outcome)) as Hcall1.
  { cbn [calls c1]. apply list_lookup_insert_eq. by eapply lookup_lt_Some. }
  unfold resume. rewrite Hcall1.
  destruct outcome as [error|result].
  - destruct (Nat.ltb_spec maxRetries (S k)) as [Hlast|Hmore]; cbn [orb negb].
    + eexists. split; [reflexivity |]. cbn [calls hook c1 fst snd].
      by rewrite list_insert_insert_eq.
    + destruct (ErrorHandler.p_retryable (ErrorHandler.processError error))
        eqn:Hretry; cbn [negb orb].
      2:{ eexists. split; [reflexivity |]. cbn [calls hook c1 fst snd].
          by rewrite list_insert_insert_eq. }
      cbn [run step].
      match goal with |- context [fire _ ?c] => set (c2 := c) end.
      assert (timers_ok c1) as Htimers1.
      { destruct Htimers as [? ?]. by split. }
      assert (calls c2 !! call
              = Some (Sleeping prompt opts (S k) (nextTimer c1)
                        (ErrorHandler.calculateBackoffDelay (Z.of_nat (S k)) baseDelay
                           (random (S k))))) as Hcall2.
      { cbn [calls c2 c1]. apply list_lookup_insert_eq.
        rewrite length_insert. by eapply lookup_lt_Some. }
      unfold fire. rewrite Hcall2.
      rewrite bool_decide_eq_false_2.
      2:{ cbn [cleared c2 c1 nextTimer]. intros Hin. destruct Htimers as [Hcl _].
          pose proof (proj1 (Forall_forall _ _) Hcl _ Hin) as Hlt. simpl in Hlt. lia. }
      cbn [hook c2 c1].
      destruct (generateFn_start prompt opts st') as [abortController h] eqn:Hstart.
      match goal with |- context [run _ _ _ ?c] => set (c3 := c) end.
      assert (abortController = nextController st') as ->
        by (unfold generateFn_start in Hstart; by injection Hstart).
      destruct (IH (S k) st' c3 ltac:(lia) ltac:(lia)) as (c' & Hrun & Hcalls & Hfinal).
      * destruct Htimers as [Hcl Href]. split; cbn [cleared nextTimer retryTimeout c3 c2 c1].
        -- eapply Forall_impl; [exact Hcl | simpl; lia].
        -- intros timer [= <-]. lia.
      * cbn [hook c3]. by rewrite Hstart.
      * cbn [calls c3 c2 c1]. apply list_lookup_insert_eq.
        rewrite !length_insert. by eapply lookup_lt_Some.
      * exists c'. split; [exact Hrun |].
        destruct (ErrorHandler.loop (generateFn env prompt opts) maxRetries true
                    baseDelay random r (S k) st') as [[out evs] st''].
        cbn [fst snd] in *. rewrite Hcalls, Hfinal. cbn [calls c3 c2 c1].
        by rewrite !list_insert_insert_eq.
  - eexists. split; [reflexivity |]. cbn [calls hook c1 fst snd].
    by rewrite list_insert_insert_eq.
Qed.

(** A call that runs alone: its history in the model of overlapping calls
    ends in the state, and with the result, of [generateImages]. *)
Lemma solo_call promptOverride opts now c :
  timers_ok c ->
  let r := generateImages maxRetries baseDelay random env promptOverride opts now
             (hook c) in
  exists events c',
    noStart events /\
    run maxRetries baseDelay (Start promptOverride opts now :: events) c = Some c' /\
    hook c' = snd r /\
    calls c' = calls c ++ [Finished (fst (fst r))].
Proof.
  intros Htimers r.
  pose proof (step_timers maxRetries baseDelay (Start promptOverride opts now) c _
                Htimers eq_refl) as Htimers1.
  subst r. unfold generateImages. cbn [run step]. cbn [step] in Htimers1.
  unfold start in *.
  destruct (precheck promptOverride opts now (hook c)) as [[returned|prompt] h].
  - exists []. eexists. split; [constructor |]. by split.
  - unfold ErrorHandler.executeWithErrorHandling.
    destruct (generateFn_start prompt opts h) as [abortController h'] eqn:Hstart.
    assert (abortController = nextController h) as ->
      by (unfold generateFn_start in Hstart; by injection Hstart).
    match type of Htimers1 with timers_ok ?c => set (c1 := c) in * end.
    destruct (solo_loop (length (calls c)) prompt opts (S maxRetries) 0 h c1
                eq_refl ltac:(lia) Htimers1)
      as (c' & Hrun & Hcalls & Hhook).
    + cbn [hook c1]. by rewrite Hstart.
    + cbn [calls c1]. by rewrite lookup_app_r, Nat.sub_diag by lia.
    + exists (soloEvents maxRetries env random (length (calls c)) prompt opts
                (S maxRetries) 0 h), c'.
      split; [apply soloEvents_noStart |]. split; [exact Hrun |].
      destruct (ErrorHandler.loop (generateFn env prompt opts) maxRetries true
                  baseDelay random (S maxRetries) 0 h) as [[out evs] st''].
      cbn [fst snd] in *. rewrite Hcalls, Hhook. cbn [calls c1].
      rewrite insert_app_r_alt, Nat.sub_diag by lia.
      by destruct out.
Qed.
End SoloFacts.

(** C7, as the code has it.  The hook keeps no map of pending generations,
    and a call of [generateImages] looks at the cache only when it starts.
    In a state that the hook can reach, two callers start a generation
    with valid prompts for the same normalized key while nothing is cached
    for it.  Then:
    - each call calls [fetch] before its first [await], two requests in
      all, and the second call aborts the request of the first before it
      issues its own;
    - in every history of the calls that follows, these two requests stay
      in the log, and when no other call was running and no caller starts
      another one, at most [2 * maxRetries] further requests follow (each
      call makes at most [maxRetries + 1] requests, so the two make between
      2 and 8 with the default 3);
    - at any time at most one pending request has not been aborted;
    - nothing is shared between the callers: when both requests are
      answered, each caller resolves to the result built from the answer
      to its own request, and the later answer overwrites the cache entry
      of the key;
    - when instead the request of the first call is rejected, as an
      aborted request is, with an error that the classifier takes to be
      retryable, and [maxRetries] is not 0, the first call sleeps and then
      sends a third request, which aborts the request of the second call.
    Sharing one pending operation per key is what [deduplicateRequests] of
    [utils/performance.js] does for the functions wrapped with it: there
    the operation is invoked once and both callers get the same pending
    promise. *)
Theorem concurrent_generations (Args : Type) (maxRetries : nat) (baseDelay : Q)
    (p1 p2 : string) (opts1 opts2 : ImageGeneration.GenOptions) (now1 now2 : Z)
    (c0 c : Interleaving.Config) (before rest : list Interleaving.Event)
    (keyGenerator : Args -> string) (a1 a2 : Args) (d : @Performance.State Args) :
  ImageGeneration.validatePrompt p1 = None ->
  ImageGeneration.validatePrompt p2 = None ->
  ImageGeneration.normalize p2 = ImageGeneration.normalize p1 ->
  ImageGeneration.getCachedResult p1 now1
    (ImageGeneration.history (Interleaving.hook c0)) = None ->
  ImageGeneration.getCachedResult p2 now2
    (ImageGeneration.history (Interleaving.hook c0)) = None ->
  Interleaving.run maxRetries baseDelay before Interleaving.initial = Some c0 ->
  Interleaving.run maxRetries baseDelay
    (Interleaving.Start (Some p1) opts1 now1
     :: Interleaving.Start (Some p2) opts2 now2 :: rest) c0 = Some c ->
  keyGenerator a2 = keyGenerator a1 ->
  Performance.pendingRequests d !! keyGenerator a1 = None ->
  let k1 := ImageGeneration.nextController (Interleaving.hook c0) in
  let k2 := S k1 in
  let i1 := List.length (Interleaving.calls c0) in
  let i2 := S i1 in
  let f1 := ImageGeneration.mkFetchCall p1 opts1 k1 in
  let f2 := ImageGeneration.mkFetchCall p2 opts2 k2 in
  let c2 := Interleaving.start (Some p2) opts2 now2
              (Interleaving.start (Some p1) opts1 now1 c0) in
  let r1 := Performance.deduplicatedRequest keyGenerator a1 d in
  let r2 := Performance.deduplicatedRequest keyGenerator a2 (snd r1) in
  (Interleaving.calls c2 =
     Interleaving.calls c0 ++
     [Interleaving.Fetching p1 opts1 0 k1; Interleaving.Fetching p2 opts2 0 k2] /\
   ImageGeneration.fetches (Interleaving.hook c2) =
     ImageGeneration.fetches (Interleaving.hook c0) ++ [f1; f2] /\
   ImageGeneration.aborted (Interleaving.hook c2) =
     match ImageGeneration.currentRequest (Interleaving.hook c0) with
     | Some previous => ImageGeneration.aborted (Interleaving.hook c0) ++ [previous]
     | None => ImageGeneration.aborted (Interleaving.hook c0)
     end ++ [k1] /\
   ImageGeneration.currentRequest (Interleaving.hook c2) = Some k2 /\
   Interleaving.hook c2 =
     snd (ImageGeneration.generateImages_begin (Some p2) opts2 now2
            (snd (ImageGeneration.generateImages_begin (Some p1) opts1 now1
                    (Interleaving.hook c0))))) /\
  (exists more,
     ImageGeneration.fetches (Interleaving.hook c) =
       ImageGeneration.fetches (Interleaving.hook c0) ++ [f1; f2] ++ more /\
     (Interleaving.quiescent c0 -> Interleaving.noStart rest ->
      (List.length more <= 2 * maxRetries)%nat)) /\
  (forall i j pi pj oi oj ki kj ci cj,
     Interleaving.calls c !! i = Some (Interleaving.Fetching pi oi ki ci) ->
     Interleaving.calls c !! j = Some (Interleaving.Fetching pj oj kj cj) ->
     ci ∉ ImageGeneration.aborted (Interleaving.hook c) ->
     cj ∉ ImageGeneration.aborted (Interleaving.hook c) ->
     i = j) /\
  (forall body1 body2 urls1 urls2 t1 t2 u1 u2,
     ImageGeneration.body_imageUrls body1 = Some urls1 ->
     ImageGeneration.body_imageUrls body2 = Some urls2 ->
     exists result1 result2 c',
       Interleaving.run maxRetries baseDelay
         [Interleaving.Start (Some p1) opts1 now1;
          Interleaving.Start (Some p2) opts2 now2;
          Interleaving.Reply i1 (ImageGeneration.Ok body1) t1;
          Interleaving.Resume i1 u1;
          Interleaving.Reply i2 (ImageGeneration.Ok body2) t2;
          Interleaving.Resume i2 u2] c0 = Some c' /\
       Interleaving.calls c' =
         Interleaving.calls c0 ++
         [Interleaving.Finished
            (ImageGeneration.RetExecuted (ErrorHandler.Resolved result1));
          Interleaving.Finished
            (ImageGeneration.RetExecuted (ErrorHandler.Resolved result2))] /\
       ImageGeneration.images result1 = urls1 /\
       ImageGeneration.images result2 = urls2 /\
       ImageGeneration.fetches (Interleaving.hook c') =
         ImageGeneration.fetches (Interleaving.hook c0) ++ [f1; f2] /\
       ImageGeneration.history (Interleaving.hook c') !! ImageGeneration.normalize p1
       = Some (ImageGeneration.mkEntry result2 t2)) /\
  (forall error t1 u1,
     ErrorHandler.p_retryable (ErrorHandler.processError error) = true ->
     (1 <= maxRetries)%nat ->
     exists c',
       Interleaving.run maxRetries baseDelay
         [Interleaving.Start (Some p1) opts1 now1;
          Interleaving.Start (Some p2) opts2 now2;
          Interleaving.Reply i1 (ImageGeneration.Throws error) t1;
          Interleaving.Resume i1 u1; Interleaving.Fire i1] c0 = Some c' /\
       Interleaving.calls c' =
         Interleaving.calls c0 ++
         [Interleaving.Fetching p1 opts1 1 (S k2);
          Interleaving.Fetching p2 opts2 0 k2] /\
       ImageGeneration.fetches (Interleaving.hook c') =
         ImageGeneration.fetches (Interleaving.hook c0) ++
         [f1; f2; ImageGeneration.mkFetchCall p1 opts1 (S k2)] /\
       k2 ∈ ImageGeneration.aborted (Interleaving.hook c')) /\
  (fst r1 = fst r2 /\
   Performance.requests (snd r2) = Performance.requests d ++ [a1]).
Proof.
  intros Hvalid1 Hvalid2 Hkey Hmiss1 Hmiss2 Hbefore Hrun Hk Hpending
    k1 k2 i1 i2 f1 f2 c2 r1 r2.
  pose proof (run_wf maxRetries baseDelay before _ _ (wf_initial maxRetries) Hbefore)
    as Hwf.
  pose proof (run_timers maxRetries baseDelay before _ _ timers_initial Hbefore)
    as Htimers.
  set (c1 := Interleaving.start (Some p1) opts1 now1 c0) in *.
  destruct (start_miss p1 opts1 now1 c0 Hvalid1 Hmiss1)
    as (Hcalls1 & Hfetches1 & Hhistory1 & Hcurrent1 & Hnext1 & Haborted1 & Hbegin1).
  fold c1 in Hcalls1, Hfetches1, Hhistory1, Hcurrent1, Hnext1, Haborted1, Hbegin1.
  rewrite <- Hhistory1 in Hmiss2.
  destruct (start_miss p2 opts2 now2 c1 Hvalid2 Hmiss2)
    as (Hcalls2 & Hfetches2 & Hhistory2 & Hcurrent2 & Hnext2 & Haborted2 & Hbegin2).
  fold c2 in Hcalls2, Hfetches2, Hhistory2, Hcurrent2, Hnext2, Haborted2, Hbegin2.
  rewrite Hcalls1, <- app_assoc in Hcalls2. rewrite Hnext1 in Hcalls2.
  rewrite Hfetches1, <- app_assoc, Hnext1 in Hfetches2.
  rewrite Hcurrent1 in Haborted2. rewrite Hnext1 in Hcurrent2.
  cbn [app] in Hcalls2, Hfetches2.
  assert (Interleaving.wf maxRetries c2) as Hwf2
    by (apply start_wf; by apply start_wf).
  simpl in Hrun. fold c1 in Hrun. fold c2 in Hrun.
  split; [| split; [| split; [| split; [| split]]]].
  - split_and!; try done.
    + by rewrite Haborted2, Haborted1.
    + by rewrite Hbegin2, Hbegin1.
  - destruct (run_fetches _ _ _ _ _ Hrun) as [more Hmore].
    exists more. rewrite Hmore, Hfetches2, <- app_assoc. split; [done |].
    intros Hquiet Hno.
    pose proof (run_budget _ _ _ _ _ Hwf2 Hno Hrun) as Hbudget.
    pose proof (start_budget maxRetries (Some p2) opts2 now2 c1) as Hb2.
    pose proof (start_budget maxRetries (Some p1) opts1 now1 c0) as Hb1.
    fold c1 in Hb1. fold c2 in Hb2.
    rewrite (quiescent_budget _ _ Hquiet) in Hb1.
    assert (List.length (ImageGeneration.fetches (Interleaving.hook c))
            <= Interleaving.budget maxRetries c)%nat as Hle
      by (unfold Interleaving.budget; lia).
    rewrite Hmore, Hfetches2, !length_app in Hle. simpl in Hle. lia.
  - intros i j pi pj oi oj ki kj ci cj Hi Hj Hlivei Hlivej.
    eapply (wf_one_live maxRetries); [| exact Hi | exact Hj | done | done].
    by eapply run_wf.
  - intros body1 body2 urls1 urls2 t1 t2 u1 u2 Hurls1 Hurls2.
    cbn [Interleaving.run Interleaving.step]. fold c1. fold c2. subst i2 i1.
    assert (Interleaving.calls c2 !! length (Interleaving.calls c0)
            = Some (Interleaving.Fetching p1 opts1 0 k1)) as Hcall
      by (rewrite Hcalls2; apply lookup_end1).
    destruct (reply_ok _ _ _ _ _ body1 urls1 t1 c2 Hcall Hurls1)
      as (result1 & h3 & -> & Himages1 & Hfetches3 & Hhistory3).
    rewrite Hcalls2. rewrite insert_end1.
    match goal with |- context [Interleaving.resume _ _ _ _ ?c] => set (c3 := c) end.
    assert (Interleaving.calls c3 !! length (Interleaving.calls c0)
            = Some (Interleaving.Settled p1 opts1 0 (inr result1))) as Hcall3
      by apply lookup_end1.
    destruct (resume_ok maxRetries baseDelay _ _ _ _ _ u1 c3 Hcall3)
      as (h4 & rt4 & cl4 & -> & Hfetches4 & Hhistory4).
    cbn [Interleaving.calls c3]. rewrite insert_end1.
    match goal with |- context [Interleaving.reply _ _ _ ?c] => set (c4 := c) end.
    assert (Interleaving.calls c4 !! S (length (Interleaving.calls c0))
            = Some (Interleaving.Fetching p2 opts2 0 k2)) as Hcall4
      by apply lookup_end2.
    destruct (reply_ok _ _ _ _ _ body2 urls2 t2 c4 Hcall4 Hurls2)
      as (result2 & h5 & -> & Himages2 & Hfetches5 & Hhistory5).
    cbn [Interleaving.calls c4]. rewrite insert_end2.
    match goal with |- context [Interleaving.resume _ _ _ _ ?c] => set (c5 := c) end.
    assert (Interleaving.calls c5 !! S (length (Interleaving.calls c0))
            = Some (Interleaving.Settled p2 opts2 0 (inr result2))) as Hcall5
      by apply lookup_end2.
    destruct (resume_ok maxRetries baseDelay _ _ _ _ _ u2 c5 Hcall5)
      as (h6 & rt6 & cl6 & -> & Hfetches6 & Hhistory6).
    cbn [Interleaving.calls c5]. rewrite insert_end2.
    exists result1, result2. eexists. split; [reflexivity |].
    cbn [Interleaving.calls Interleaving.hook].
    split_and!; try done.
    + rewrite Hfetches6. cbn [Interleaving.hook c5]. rewrite Hfetches5.
      cbn [Interleaving.hook c4]. rewrite Hfetches4. cbn [Interleaving.hook c3].
      by rewrite Hfetches3.
    + rewrite Hhistory6. cbn [Interleaving.hook c5]. rewrite Hhistory5, Hkey.
      apply lookup_insert_eq.
  - intros error t1 u1 Hretry Hmax.
    cbn [Interleaving.run Interleaving.step]. fold c1. fold c2. subst i2 i1.
    assert (Interleaving.calls c2 !! length (Interleaving.calls c0)
            = Some (Interleaving.Fetching p1 opts1 0 k1)) as Hcall
      by (rewrite Hcalls2; apply lookup_end1).
    rewrite (reply_throws _ _ _ _ _ error t1 c2 Hcall)
      by (rewrite Hcurrent2; intros [= Heq]; lia).
    rewrite Hcalls2, insert_end1.
    match goal with |- context [Interleaving.resume _ _ _ _ ?c] => set (c3 := c) end.
    assert (Interleaving.calls c3 !! length (Interleaving.calls c0)
            = Some (Interleaving.Settled p1 opts1 0 (inl error))) as Hcall3
      by apply lookup_end1.
    rewrite (resume_retry maxRetries baseDelay _ _ _ _ _ u1 c3 Hcall3 Hmax Hretry).
    cbn [Interleaving.calls Interleaving.hook Interleaving.nextTimer
           Interleaving.cleared Interleaving.retryTimeout c3].
    rewrite insert_end1.
    match goal with |- context [Interleaving.fire _ ?c] => set (c4 := c) end.
    assert (Interleaving.calls c4 !! length (Interleaving.calls c0)
            = Some (Interleaving.Sleeping p1 opts1 1 (Interleaving.nextTimer c2)
                      (ErrorHandler.calculateBackoffDelay (Z.of_nat 1) baseDelay u1)))
      as Hcall4 by apply lookup_end1.
    assert (Interleaving.timers_ok c2) as [Hcleared2 _]
      by (eapply (run_timers maxRetries baseDelay
                    [Interleaving.Start (Some p1) opts1 now1;
                     Interleaving.Start (Some p2) opts2 now2]);
          [exact Htimers | reflexivity]).
    rewrite (fire_sleeping _ _ _ _ _ _ c4 Hcall4).
    2:{ cbn [Interleaving.cleared c4]. intros Hin.
        pose proof (proj1 (Forall_forall _ _) Hcleared2 _ Hin) as Hlt.
        simpl in Hlt. lia. }
    cbn [Interleaving.calls Interleaving.hook c4]. rewrite insert_end1.
    eexists. split; [reflexivity |].
    cbn [Interleaving.calls Interleaving.hook].
    split_and!.
    + by rewrite Hnext2, Hnext1.
    + rewrite start_fetches, Hfetches2, <- app_assoc. cbn [app].
      by rewrite Hnext2, Hnext1.
    + unfold ImageGeneration.generateFn_start. cbn [snd ImageGeneration.aborted].
      rewrite Hcurrent2. set_solver.
  - subst r2 r1. unfold Performance.deduplicatedRequest.
    rewrite Hpending. simpl. rewrite Hk, lookup_insert_eq. done.
Qed.

(** Two calls for the key "a cat" on a fresh hook, with requests that are
    rejected when they are aborted: the calls abort each other's requests
    in turn and send 8 requests, the bound for [maxRetries = 3]. *)
Lemma concurrent_generations_witness :
  let opts := ImageGeneration.mkGenOptions false in
  exists c more,
    Interleaving.run 3 1000
      (Interleaving.Start (Some "A cat"%string) opts 0
       :: Interleaving.Start (Some " a cat"%string) opts 1 :: Scenario.pingPong)
      Interleaving.initial = Some c /\
    ImageGeneration.fetches (Interleaving.hook c) =
      [ImageGeneration.mkFetchCall "A cat" opts 0;
       ImageGeneration.mkFetchCall " a cat" opts 1] ++ more /\
    List.length more = 6%nat.
Proof.
  intros opts.
  destruct (Interleaving.run 3 1000
              (Interleaving.Start (Some "A cat"%string) opts 0
               :: Interleaving.Start (Some " a cat"%string) opts 1
               :: Scenario.pingPong) Interleaving.initial) as [c|] eqn:Hrun;
    [| vm_compute in Hrun; discriminate].
  destruct (concurrent_generations string 3 1000 "A cat" " a cat" opts opts 0 1
              Interleaving.initial c [] Scenario.pingPong (fun a => a)
              "k"%string "k"%string Performance.empty
              eq_refl eq_refl eq_refl eq_refl eq_refl eq_refl Hrun eq_refl
              (lookup_empty _))
    as (_ & (more & Hmore & Hbound) & _).
  exists c, more. split; [reflexivity |]. split; [exact Hmore |].
  assert (List.length (ImageGeneration.fetches (Interleaving.hook c)) = 8%nat)
    as Hlength by (vm_compute in Hrun; injection Hrun as <-; reflexivity).
  rewrite Hmore in Hlength. simpl in Hlength. lia.
Defined.

(** C7 as stated fails: two calls for the key "a cat", the second started
    while the first is pending, call [fetch] twice, and the request of the
    first call is aborted. *)
Lemma two_callers_two_fetches :
  let opts := ImageGeneration.mkGenOptions false in
  let b1 := ImageGeneration.generateImages_begin (Some "A cat"%string) opts 0
              ImageGeneration.initialState in
  let b2 := ImageGeneration.generateImages_begin (Some " a cat"%string) opts 1 (snd b1) in
  ImageGeneration.normalize "A cat" = ImageGeneration.normalize " a cat" /\
  fst b1 = inr 0%nat /\ fst b2 = inr 1%nat /\
  List.length (ImageGeneration.fetches (snd b2)) = 2%nat /\
  ImageGeneration.aborted (snd b2) = [0%nat] /\
  ~ (List.length (ImageGeneration.fetches (snd b2)) = 1%nat).
Proof. vm_compute. repeat split; try reflexivity. discriminate. Qed.

(** * Further properties *)

(** ** The token buckets *)

Section BucketFacts.
Import RateLimiter RateLimiterOps.
Variable L : Limiter.

(** A call reads and writes the bucket of its key only. *)
Lemma checkKey_local key now store1 store2 :
  store1 !! key = store2 !! key ->
  fst (checkKey L key now store1) = fst (checkKey L key now store2) /\
  snd (checkKey L key now store1) !! key = snd (checkKey L key now store2) !! key.
Proof.
  intros Hk. unfold checkKey, getOrCreate. rewrite Hk.
  destruct (0 <? tokens (refill L now _)); simpl;
    by rewrite !lookup_insert_eq.
Qed.

Lemma checkKey_other key key' now store :
  key <> key' -> snd (checkKey L key now store) !! key' = store !! key'.
Proof.
  intros Hne. unfold checkKey.
  destruct (0 <? tokens (refill L now _)); simpl; by rewrite lookup_insert_ne.
Qed.

Lemma run_other calls key' store :
  Forall (fun call => fst call <> key') calls ->
  run L calls store !! key' = store !! key'.
Proof.
  revert store. induction calls as [|[key now] rest IH]; intros store Hall; [done |].
  inversion Hall as [|? ? Hne Hrest]; subst. simpl in *.
  rewrite IH by done. by apply checkKey_other.
Qed.

(** A refill that fires on a valid bucket fills it. *)
Lemma refill_full now b :
  0 < windowMs L -> 0 < maxRequests L -> 0 <= tokens b ->
  lastRefill b + windowMs L <= now ->
  refill L now b = {| tokens := maxRequests L; lastRefill := now |}.
Proof.
  intros Hw Hcap Htok Hnow. unfold refill.
  assert (1 <= (now - lastRefill b) / windowMs L) as Hq
    by (apply Z.div_le_lower_bound; lia).
  destruct (Z.ltb_spec 0 ((now - lastRefill b) / windowMs L * maxRequests L)); [| nia].
  f_equal. nia.
Qed.

(** The result of a call on a full bucket refilled at [now]. *)
Lemma checkKey_full key now store b :
  0 < maxRequests L ->
  refill L now (getOrCreate L now key store) =
    {| tokens := maxRequests L; lastRefill := now |} ->
  b = {| tokens := maxRequests L - 1; lastRefill := now |} ->
  checkKey L key now store =
    ({| allowed := true; remaining := maxRequests L - 1;
        resetTime := now + windowMs L; limit := maxRequests L;
        retryAfter := None |}, <[key := b]> store).
Proof.
  intros Hcap Hfull ->. unfold checkKey. rewrite Hfull. simpl.
  destruct (Z.ltb_spec 0 (maxRequests L)); [reflexivity | lia].
Qed.

Lemma cleanup_lookup now store key :
  cleanup L now store !! key =
  match store !! key with
  | Some b => if expired L now b then None else Some b
  | None => None
  end.
Proof.
  unfold cleanup. destruct (store !! key) as [b|] eqn:Hk.
  - destruct (expired L now b) eqn:He.
    + apply map_lookup_filter_None. right. intros b' Hb'. simpl.
      rewrite Hk in Hb'. injection Hb' as <-. by rewrite He.
    + apply map_lookup_filter_Some. by split.
  - apply map_lookup_filter_None. by left.
Qed.

(** Calls within the window of a bucket: each takes a token while one is
    left. *)
Lemma window_count key t0 times : forall n store,
  0 < windowMs L -> 0 <= maxRequests L -> 0 <= n ->
  store !! key = Some {| tokens := n; lastRefill := t0 |} ->
  Forall (fun t => t < t0 + windowMs L) times ->
  count_allowed (results L (map (pair key) times) store)
    = Nat.min (Z.to_nat n) (List.length times).
Proof.
  induction times as [|t rest IH]; intros n store Hw Hcap Hn Hk Hall; simpl.
  - by rewrite Nat.min_0_r.
  - inversion Hall as [|? ? Ht Hrest]; subst.
    destruct (Z.eq_dec n 0) as [->|Hpos].
    + pose proof (checkKey_empty L key t store t0 Hw Hcap Hk Ht) as Hres.
      assert (snd (checkKey L key t store) !! key
              = Some {| tokens := 0; lastRefill := t0 |}) as Hk'.
      { unfold checkKey, getOrCreate. rewrite Hk.
        rewrite refill_same_window by (simpl; lia). simpl.
        by rewrite lookup_insert_eq. }
      destruct (checkKey L key t store) as [r store']. simpl in *. subst r.
      unfold count_allowed in *. simpl.
      by rewrite (IH 0 store' Hw Hcap ltac:(lia) Hk' Hrest).
    + rewrite (checkKey_consume L key t store n t0) by (done || lia).
      unfold count_allowed in *. simpl.
      rewrite (IH (n - 1) _ Hw Hcap ltac:(lia) (lookup_insert_eq _ _ _) Hrest).
      lia.
Qed.
End BucketFacts.

(** X1.  Distinct keys never interfere: calls for other keys leave the
    bucket of a key as it was, and the next call for that key returns what
    it would have returned without them. *)
Theorem keys_do_not_interfere (L : RateLimiter.Limiter)
    (others : list (string * Z)) (key : string) (now : Z)
    (store : gmap string RateLimiter.Bucket) :
  Forall (fun call => fst call <> key) others ->
  RateLimiter.run L others store !! key = store !! key /\
  fst (RateLimiter.checkKey L key now (RateLimiter.run L others store))
    = fst (RateLimiter.checkKey L key now store).
Proof.
  intros Hall. pose proof (run_other L others key store Hall) as Hk.
  split; [exact Hk |]. by apply checkKey_local.
Qed.

Lemma keys_do_not_interfere_witness :
  let L := RateLimiter.constructor (Some 1) (Some 60000) 10 in
  fst (RateLimiter.checkKey L "a" 30
         (RateLimiter.run L [("b"%string, 10); ("c"%string, 20); ("b"%string, 25)] ∅))
    = fst (RateLimiter.checkKey L "a" 30 ∅).
Proof.
  intros L.
  apply (keys_do_not_interfere L
           [("b"%string, 10); ("c"%string, 20); ("b"%string, 25)] "a"%string 30 ∅).
  repeat constructor; simpl; discriminate.
Defined.

(** X2.  A fresh key is allowed exactly [maxRequests] calls within the
    window opened by its first call: of [n] calls made before the window
    ends, [min maxRequests n] are allowed. *)
Theorem allowed_calls_per_window (L : RateLimiter.Limiter) (key : string)
    (t1 : Z) (rest : list Z) (store : gmap string RateLimiter.Bucket) :
  0 < RateLimiter.windowMs L -> 0 < RateLimiter.maxRequests L ->
  store !! key = None ->
  Forall (fun t => t < t1 + RateLimiter.windowMs L) rest ->
  RateLimiterOps.count_allowed
    (RateLimiter.results L (map (pair key) (t1 :: rest)) store)
  = Nat.min (Z.to_nat (RateLimiter.maxRequests L)) (S (List.length rest)).
Proof.
  intros Hw Hcap Hfresh Hall. simpl.
  rewrite (checkKey_fresh L key t1 store Hw Hcap Hfresh).
  unfold RateLimiterOps.count_allowed. simpl.
  pose proof (window_count L key t1 rest (RateLimiter.maxRequests L - 1)
                (<[key := RateLimiter.mkBucket (RateLimiter.maxRequests L - 1) t1]> store)
                Hw ltac:(lia) ltac:(lia) (lookup_insert_eq _ _ _) Hall) as Hrest.
  unfold RateLimiterOps.count_allowed in Hrest. rewrite Hrest. lia.
Qed.

Lemma allowed_calls_per_window_witness :
  RateLimiterOps.count_allowed
    (RateLimiter.results (RateLimiter.constructor (Some 2) (Some 1000) 10)
       (map (pair "k"%string) [0; 10; 20; 999]) ∅) = 2%nat.
Proof.
  apply (allowed_calls_per_window (RateLimiter.constructor (Some 2) (Some 1000) 10)
           "k"%string 0 [10; 20; 999] ∅);
    [simpl; lia | simpl; lia | apply lookup_empty |].
  repeat constructor; simpl; lia.
Defined.

(** X3.  After a denial the key stays denied until the announced
    [resetTime] and is allowed again from then on, with a full bucket;
    waiting [retryAfter] seconds is enough. *)
Theorem denied_until_reset (L : RateLimiter.Limiter) (key : string) (now : Z)
    (store : gmap string RateLimiter.Bucket) :
  0 < RateLimiter.windowMs L -> 0 < RateLimiter.maxRequests L ->
  RateLimiter.store_ok L store ->
  RateLimiter.allowed (fst (RateLimiter.checkKey L key now store)) = false ->
  let r := fst (RateLimiter.checkKey L key now store) in
  let store' := snd (RateLimiter.checkKey L key now store) in
  (forall t, t < RateLimiter.resetTime r ->
     RateLimiter.allowed (fst (RateLimiter.checkKey L key t store')) = false) /\
  (forall t, RateLimiter.resetTime r <= t ->
     fst (RateLimiter.checkKey L key t store') =
       RateLimiter.mkResult true (RateLimiter.maxRequests L - 1)
         (t + RateLimiter.windowMs L) (RateLimiter.maxRequests L) None) /\
  (exists seconds, RateLimiter.retryAfter r = Some seconds /\
     RateLimiter.resetTime r <= now + 1000 * seconds).
Proof.
  intros Hw Hcap Hst Hd r store'.
  destruct (denied_untouched L key now store Hcap Hst Hd) as (b & Hk & Hsame & Htok).
  destruct (checkKey_denied L key now store Hd) as [_ Heq].
  assert (RateLimiter.getOrCreate L now key store = b) as Hget
    by (unfold RateLimiter.getOrCreate; by rewrite Hk).
  rewrite Hget, Hsame in Heq.
  subst r store'. rewrite Heq. simpl.
  rewrite (insert_id store key b Hk).
  destruct b as [n t0]. simpl in *. subst n.
  split; [| split].
  - intros t Ht.
    by rewrite (checkKey_empty L key t store t0 Hw (Z.lt_le_incl _ _ Hcap) Hk Ht).
  - intros t Ht.
    erewrite checkKey_full; [reflexivity | exact Hcap | | reflexivity].
    unfold RateLimiter.getOrCreate. rewrite Hk.
    apply refill_full; simpl; lia.
  - eexists. split; [reflexivity |].
    unfold RateLimiter.ceil_div.
    pose proof (Z.mul_div_le (- (t0 + RateLimiter.windowMs L - now)) 1000 ltac:(lia)).
    lia.
Qed.

Lemma denied_until_reset_witness :
  let L := RateLimiter.constructor (Some 1) (Some 60000) 10 in
  let store : gmap string RateLimiter.Bucket :=
    {[ "k1"%string := RateLimiter.mkBucket 0 1000 ]} in
  RateLimiter.allowed (fst (RateLimiter.checkKey L "k1" 60999 store)) = false /\
  RateLimiter.allowed (fst (RateLimiter.checkKey L "k1" 61000 store)) = true.
Proof.
  intros L store.
  assert (RateLimiter.store_ok L store) as Hst.
  { intros k b Hk. apply lookup_singleton_Some in Hk as [_ <-].
    unfold RateLimiter.bucket_ok. simpl. lia. }
  assert (RateLimiter.allowed (fst (RateLimiter.checkKey L "k1" 2000 store)) = false)
    as Hd by (vm_compute; reflexivity).
  destruct (denied_until_reset L "k1"%string 2000 store ltac:(simpl; lia)
              ltac:(simpl; lia) Hst Hd) as (Hbefore & Hafter & _).
  assert (snd (RateLimiter.checkKey L "k1" 2000 store) = store) as Hsame
    by (vm_compute; reflexivity).
  assert (RateLimiter.resetTime (fst (RateLimiter.checkKey L "k1" 2000 store)) = 61000)
    as Hreset by (vm_compute; reflexivity).
  rewrite Hsame, Hreset in Hbefore, Hafter.
  split; [apply Hbefore; lia | rewrite Hafter by lia; reflexivity].
Defined.

(** X4.  [cleanup] is invisible to the callers: a bucket it deletes is one
    that the next call would refill completely, so any later call, for
    any key, returns the same result and leaves the same bucket whether or
    not [cleanup] ran.  A bucket is deleted exactly when it has been idle
    for more than two windows. *)
Theorem cleanup_is_transparent (L : RateLimiter.Limiter) (key : string)
    (cleanedAt now : Z) (store : gmap string RateLimiter.Bucket) :
  0 < RateLimiter.windowMs L -> 0 < RateLimiter.maxRequests L ->
  RateLimiter.store_ok L store ->
  cleanedAt <= now ->
  let cleaned := RateLimiterOps.cleanup L cleanedAt store in
  fst (RateLimiter.checkKey L key now cleaned)
    = fst (RateLimiter.checkKey L key now store) /\
  snd (RateLimiter.checkKey L key now cleaned) !! key
    = snd (RateLimiter.checkKey L key now store) !! key /\
  (forall b, store !! key = Some b ->
     cleaned !! key =
       if 2 * RateLimiter.windowMs L <? cleanedAt - RateLimiter.lastRefill b
       then None else Some b) /\
  RateLimiter.store_ok L cleaned.
Proof.
  intros Hw Hcap Hst Hle cleaned.
  assert (forall b, store !! key = Some b ->
            cleaned !! key =
              if 2 * RateLimiter.windowMs L <? cleanedAt - RateLimiter.lastRefill b
              then None else Some b) as Hspec.
  { intros b Hk. subst cleaned. rewrite cleanup_lookup, Hk.
    unfold RateLimiterOps.expired. by rewrite (Z.mul_comm 2). }
  assert (RateLimiter.store_ok L cleaned) as Hst'.
  { intros k b Hk. subst cleaned. rewrite cleanup_lookup in Hk.
    destruct (store !! k) as [b0|] eqn:Hk0; [| discriminate].
    destruct (RateLimiterOps.expired L cleanedAt b0); [discriminate |].
    injection Hk as <-. exact (Hst _ _ Hk0). }
  split; [| split; [| split; [exact Hspec | exact Hst']]].
  - destruct (store !! key) as [b|] eqn:Hk.
    + specialize (Hspec b eq_refl).
      destruct (Z.ltb_spec (2 * RateLimiter.windowMs L)
                  (cleanedAt - RateLimiter.lastRefill b)) as [Hexp|Hkeep].
      * pose proof (Hst _ _ Hk) as [Hlo _].
        erewrite (checkKey_full L key now cleaned); [| done | | reflexivity].
        2:{ unfold RateLimiter.getOrCreate. rewrite Hspec.
            apply refill_same_window; simpl; lia. }
        erewrite (checkKey_full L key now store); [| done | | reflexivity].
        2:{ unfold RateLimiter.getOrCreate. rewrite Hk.
            apply refill_full; lia. }
        reflexivity.
      * apply checkKey_local. by rewrite Hspec, Hk.
    + apply checkKey_local. subst cleaned. by rewrite cleanup_lookup, Hk.
  - destruct (store !! key) as [b|] eqn:Hk.
    + specialize (Hspec b eq_refl).
      destruct (Z.ltb_spec (2 * RateLimiter.windowMs L)
                  (cleanedAt - RateLimiter.lastRefill b)) as [Hexp|Hkeep].
      * pose proof (Hst _ _ Hk) as [Hlo _].
        erewrite (checkKey_full L key now cleaned); [| done | | reflexivity].
        2:{ unfold RateLimiter.getOrCreate. rewrite Hspec.
            apply refill_same_window; simpl; lia. }
        erewrite (checkKey_full L key now store); [| done | | reflexivity].
        2:{ unfold RateLimiter.getOrCreate. rewrite Hk.
            apply refill_full; lia. }
        simpl. by rewrite !lookup_insert_eq.
      * apply checkKey_local. by rewrite Hspec, Hk.
    + apply checkKey_local. subst cleaned. by rewrite cleanup_lookup, Hk.
Qed.

Lemma cleanup_is_transparent_witness :
  let L := RateLimiter.constructor (Some 3) (Some 50) 10 in
  let store : gmap string RateLimiter.Bucket :=
    {[ "k1"%string := RateLimiter.mkBucket 1 0 ]} in
  RateLimiterOps.cleanup L 150 store !! "k1"%string = None /\
  fst (RateLimiter.checkKey L "k1" 200 (RateLimiterOps.cleanup L 150 store))
    = fst (RateLimiter.checkKey L "k1" 200 store).
Proof.
  intros L store.
  assert (RateLimiter.store_ok L store) as Hst.
  { intros k b Hk. apply lookup_singleton_Some in Hk as [_ <-].
    unfold RateLimiter.bucket_ok. simpl. lia. }
  destruct (cleanup_is_transparent L "k1"%string 150 200 store ltac:(simpl; lia)
              ltac:(simpl; lia) Hst ltac:(lia)) as (Hres & _ & Hdel & _).
  split; [| exact Hres].
  rewrite (Hdel (RateLimiter.mkBucket 1 0) (lookup_singleton_eq _ _)).
  reflexivity.
Defined.

(** X5.  The key of a request is never the empty string: it is the first
    entry of [x-forwarded-for], trimmed, when that is not blank, and the
    fixed key "unknown" when the request carries no address at all. *)
Theorem default_key_never_empty (req : RateLimiter.Request) :
  RateLimiter.defaultKeyGenerator req <> EmptyString /\
  (forall h, RateLimiter.x_forwarded_for req = Some h ->
     JsString.trim (JsString.beforeComma h) <> EmptyString ->
     RateLimiter.defaultKeyGenerator req = JsString.trim (JsString.beforeComma h)) /\
  (RateLimiter.x_forwarded_for req = None -> RateLimiter.ip req = None ->
   RateLimiter.connection_remoteAddress req = None ->
   RateLimiter.socket_remoteAddress req = None ->
   RateLimiter.defaultKeyGenerator req = "unknown"%string).
Proof.
  assert (forall o k, JsString.truthy o = Some k -> k <> EmptyString) as Htruthy.
  { intros [[|c s]|] k; simpl; intros [= <-]; discriminate. }
  unfold RateLimiter.defaultKeyGenerator. split; [| split].
  - destruct (JsString.truthy (option_map _ _)) eqn:H1; [by eapply Htruthy |].
    destruct (JsString.truthy (RateLimiter.ip req)) eqn:H2; [by eapply Htruthy |].
    destruct (JsString.truthy (RateLimiter.connection_remoteAddress req)) eqn:H3;
      [by eapply Htruthy |].
    destruct (JsString.truthy (RateLimiter.socket_remoteAddress req)) eqn:H4;
      [by eapply Htruthy | discriminate].
  - intros h -> Hne. simpl.
    destruct (JsString.trim (JsString.beforeComma h)); [contradiction | reflexivity].
  - by intros -> -> -> ->.
Qed.

Lemma default_key_never_empty_witness :
  RateLimiter.defaultKeyGenerator
    (RateLimiter.mkRequest (Some " 203.0.113.1 , 10.0.0.1"%string)
       (Some "127.0.0.1"%string) None None) = "203.0.113.1"%string.
Proof.
  destruct (default_key_never_empty
              (RateLimiter.mkRequest (Some " 203.0.113.1 , 10.0.0.1"%string)
                 (Some "127.0.0.1"%string) None None)) as (_ & Hfw & _).
  apply (Hfw " 203.0.113.1 , 10.0.0.1"%string); [reflexivity | discriminate].
Defined.

(** X6.  [resetRateLimit] forgets a key and nothing else: its status is
    [null] afterwards, the other keys keep their buckets, and the next
    call for the key is served from a full bucket. *)
Theorem reset_gives_full_bucket (L : RateLimiter.Limiter) (key : string)
    (now : Z) (store : gmap string RateLimiter.Bucket) :
  0 < RateLimiter.windowMs L -> 0 < RateLimiter.maxRequests L ->
  let store' := RateLimiterOps.resetRateLimit key store in
  RateLimiterOps.getRateLimitStatus key store' = None /\
  (forall other, other <> key ->
     RateLimiterOps.getRateLimitStatus other store'
       = RateLimiterOps.getRateLimitStatus other store) /\
  fst (RateLimiter.checkKey L key now store') =
    RateLimiter.mkResult true (RateLimiter.maxRequests L - 1)
      (now + RateLimiter.windowMs L) (RateLimiter.maxRequests L) None.
Proof.
  intros Hw Hcap store'. subst store'.
  unfold RateLimiterOps.resetRateLimit, RateLimiterOps.getRateLimitStatus.
  split; [apply lookup_delete_eq |]. split.
  - intros other Hne. by apply lookup_delete_ne.
  - by rewrite (checkKey_fresh L key now _ Hw Hcap (lookup_delete_eq _ _)).
Qed.

Lemma reset_gives_full_bucket_witness :
  let L := RateLimiter.constructor (Some 3) (Some 60000) 10 in
  let store : gmap string RateLimiter.Bucket :=
    {[ "k1"%string := RateLimiter.mkBucket 0 1000 ]} in
  fst (RateLimiter.checkKey L "k1" 2000 (RateLimiterOps.resetRateLimit "k1" store))
    = RateLimiter.mkResult true 2 62000 3 None.
Proof.
  intros L store.
  destruct (reset_gives_full_bucket L "k1"%string 2000 store ltac:(simpl; lia)
              ltac:(simpl; lia)) as (_ & _ & Hnext).
  exact Hnext.
Defined.

(** ** The sliding-window limiter *)

Section SlidingWindow.
Import ApiLimiter ApiLimiterLog.

Lemma recent_recent t0 now l :
  t0 <= now -> recent now (recent t0 l) = recent now l.
Proof.
  intros Hle. unfold recent. induction l as [|x l IH]; simpl; [done |].
  destruct (Z.ltb_spec (t0 - 60000) x); simpl.
  - by rewrite IH.
  - rewrite IH. destruct (Z.ltb_spec (now - 60000) x); [lia | done].
Qed.

Lemma recent_length now l : (List.length (recent now l) <= List.length l)%nat.
Proof. unfold recent. apply List.filter_length_le. Qed.

Lemma recent_snoc now l : recent now (l ++ [now]) = recent now l ++ [now].
Proof.
  unfold recent. rewrite List.filter_app. simpl.
  destruct (Z.ltb_spec (now - 60000) now); [done | lia].
Qed.

Lemma last_cons (a : Z) l d : List.last (a :: l) d = List.last l a.
Proof.
  revert a d. induction l as [|b l IH]; intros a d; [done |].
  change (List.last (a :: b :: l) d) with (List.last (b :: l) d).
  by rewrite (IH b d), (IH b a).
Qed.

Lemma isRateLimited_stores identifier limit now requests :
  is_Some (snd (isRateLimited identifier limit now requests) !! identifier).
Proof.
  unfold isRateLimited. destruct (limit <=? _); simpl;
    rewrite lookup_insert_eq; by eexists.
Qed.

Lemma answers_stores identifier limit times : forall requests,
  is_Some (requests !! identifier) ->
  is_Some (snd (answers identifier limit times requests) !! identifier).
Proof.
  induction times as [|t rest IH]; intros requests Hsome; [done |].
  simpl. pose proof (isRateLimited_stores identifier limit t requests) as Hnext.
  destruct (isRateLimited identifier limit t requests) as [b requests'].
  specialize (IH requests' Hnext).
  by destruct (answers identifier limit rest requests').
Qed.

(** The list stored for an identifier is the admitted requests of the
    last minute, and it never holds more than [limit] of them. *)
Lemma answers_invariant identifier limit times : forall t0 before requests,
  0 <= limit ->
  default [] (requests !! identifier) = recent t0 before ->
  (Z.of_nat (List.length (recent t0 before)) <= limit) ->
  nondecreasing t0 times ->
  let result := answers identifier limit times requests in
  let now := List.last times t0 in
  let all := before ++ admitted times (fst result) in
  default [] (snd result !! identifier) = recent now all /\
  Z.of_nat (List.length (recent now all)) <= limit /\
  List.length (fst result) = List.length times.
Proof.
  induction times as [|t rest IH]; intros t0 before requests Hlimit Hstored Hlen Hsorted.
  - simpl. by rewrite app_nil_r.
  - destruct Hsorted as [Ht Hrest]. simpl.
    unfold isRateLimited. rewrite Hstored.
    fold (recent t (recent t0 before)). rewrite (recent_recent t0 t before Ht).
    pose proof (recent_length t (recent t0 before)) as Hshrink.
    rewrite (recent_recent t0 t before Ht) in Hshrink.
    destruct (Z.leb_spec limit (Z.of_nat (List.length (recent t before)))) as [Hfull|Hroom].
    + specialize (IH t before (<[identifier := recent t before]> requests) Hlimit).
      rewrite lookup_insert_eq in IH.
      specialize (IH eq_refl ltac:(lia) Hrest).
      destruct (answers identifier limit rest _) as [bs requests''].
      cbv zeta in IH. cbn [fst snd] in *.
      change (match rest with [] => t | _ :: _ => List.last rest t0 end)
        with (List.last (t :: rest) t0).
      rewrite last_cons. destruct IH as (Hs & Hl & Hn).
      cbn [List.length]. by rewrite Hn.
    + specialize (IH t (before ++ [t])
                    (<[identifier := recent t before ++ [t]]> requests) Hlimit).
      rewrite lookup_insert_eq, recent_snoc in IH.
      specialize (IH eq_refl).
      rewrite List.length_app in IH. simpl in IH.
      specialize (IH ltac:(lia) Hrest).
      destruct (answers identifier limit rest _) as [bs requests''].
      cbv zeta in IH. cbn [fst snd] in *.
      change (match rest with [] => t | _ :: _ => List.last rest t0 end)
        with (List.last (t :: rest) t0).
      rewrite last_cons. destruct IH as (Hs & Hl & Hn).
      rewrite <- app_assoc in Hs, Hl. cbn [app] in Hs, Hl.
      cbn [List.length]. by rewrite Hn.
Qed.
End SlidingWindow.

(** X7.  The sliding-window limiter of [utils/api.js] never admits more
    than [limit] requests of one identifier within a minute: after any
    sequence of calls whose clock readings do not go back, the list kept
    for the identifier is exactly the admitted requests of the last 60000
    ms, and there are at most [limit] of them. *)
Theorem sliding_window_bound (identifier : string) (limit : Z)
    (first : Z) (later : list Z) (requests : gmap string (list Z)) :
  0 <= limit ->
  requests !! identifier = None ->
  ApiLimiterLog.nondecreasing first later ->
  let result := ApiLimiter.answers identifier limit (first :: later) requests in
  let now := List.last later first in
  let kept := ApiLimiterLog.recent now
                (ApiLimiterLog.admitted (first :: later) (fst result)) in
  snd result !! identifier = Some kept /\
  Z.of_nat (List.length kept) <= limit.
Proof.
  intros Hlimit Hfresh Hsorted result now kept.
  pose proof (answers_invariant identifier limit (first :: later) first [] requests
                Hlimit) as Hinv.
  rewrite Hfresh in Hinv. simpl default in Hinv.
  specialize (Hinv eq_refl ltac:(simpl; lia) (conj (Z.le_refl _) Hsorted)).
  cbv zeta in Hinv. fold result in Hinv.
  rewrite last_cons in Hinv. fold now in Hinv.
  simpl app in Hinv. fold kept in Hinv.
  destruct Hinv as (Hstored & Hlen & _). split; [| exact Hlen].
  assert (is_Some (snd result !! identifier)) as [l Hl].
  { subst result. simpl.
    pose proof (isRateLimited_stores identifier limit first requests) as Hnext.
    destruct (ApiLimiter.isRateLimited identifier limit first requests)
      as [b requests'].
    pose proof (answers_stores identifier limit later requests' Hnext).
    by destruct (ApiLimiter.answers identifier limit later requests'). }
  rewrite Hl in Hstored |- *. simpl in Hstored. by rewrite Hstored.
Qed.

Lemma sliding_window_bound_witness :
  let result := ApiLimiter.answers "user1" 2 [0; 10; 20; 60005; 60015] ∅ in
  fst result = [false; false; true; false; false] /\
  snd result !! "user1"%string = Some [60005; 60015].
Proof.
  intros result.
  destruct (sliding_window_bound "user1"%string 2 0 [10; 20; 60005; 60015] ∅
              ltac:(lia) (lookup_empty _) ltac:(simpl; lia)) as [Hkept _].
  split; [vm_compute; reflexivity | exact Hkept].
Defined.

(** ** Retry schedules *)

Section ApiSchedule.
Import Js Api.
Context {A : Type}.
Variable script : nat -> Thrown + A.
Variable maxAttempts : nat.
Variable baseDelay : Q.

Let run := loop (ErrorHandlerOps.scripted script) maxAttempts baseDelay.

Lemma api_delays_S attempt k :
  RetrySchedule.api_delays baseDelay attempt (S k) =
  calculateBackoffDelay (Z.of_nat attempt) baseDelay :: RetrySchedule.api_delays baseDelay (S attempt) k.
Proof.
  unfold RetrySchedule.api_delays. simpl. rewrite Nat.add_0_r. f_equal.
  rewrite <- seq_shift, map_map. apply map_ext. intros i.
  by rewrite Nat.add_succ_r.
Qed.

(** [k] retryable failures, then a success. *)
Lemma api_loop_success k : forall remaining attempt lastError start v,
  (k < remaining)%nat -> (attempt + k <= maxAttempts)%nat ->
  (forall i, (i < k)%nat ->
     exists e, script (start + i) = inl e /\ isRetryableError e = Some true) ->
  script (start + k) = inr v ->
  exists evs,
    run remaining attempt lastError start = (Resolved v, evs, S (start + k)) /\
    invocations evs = S k /\
    ApiClient.sleeps evs = RetrySchedule.api_delays baseDelay attempt k.
Proof.
  subst run. unfold ErrorHandlerOps.scripted.
  induction k as [|k IH]; intros remaining attempt lastError start v
    Hrem Hatt Hfail Hok.
  - destruct remaining as [|r]; [lia |]. simpl.
    rewrite Nat.add_0_r in Hok. rewrite Hok.
    eexists. rewrite Nat.add_0_r. by repeat split.
  - destruct remaining as [|r]; [lia |]. simpl.
    destruct (Hfail 0%nat ltac:(lia)) as (e & He & Hretry).
    rewrite Nat.add_0_r in He. rewrite He, Hretry. simpl.
    destruct (Nat.eqb_spec attempt maxAttempts); [lia |].
    destruct (IH r (S attempt) (Some e) (S start) v ltac:(lia) ltac:(lia))
      as (evs & Hrun & Hinv & Hsl).
    + intros i Hi. destruct (Hfail (S i) ltac:(lia)) as (e' & He' & Hr').
      exists e'. by rewrite Nat.add_succ_comm.
    + by rewrite Nat.add_succ_comm.
    + rewrite Hrun. eexists. split; [by rewrite Nat.add_succ_comm |].
      split; [by rewrite api_invocations_call, api_invocations_sleep, Hinv |].
      rewrite api_delays_S. simpl. by rewrite <- Hsl.
Qed.

(** Retryable failures only: the loop gives up at attempt [maxAttempts]. *)
Lemma api_loop_exhausted : forall remaining attempt lastError start,
  (attempt + remaining = S maxAttempts)%nat -> (1 <= remaining)%nat ->
  (forall i, (i < remaining)%nat ->
     exists e, script (start + i) = inl e /\ isRetryableError e = Some true) ->
  exists evs e,
    run remaining attempt lastError start = (Rejected e, evs, (start + remaining)%nat) /\
    script (start + remaining - 1) = inl e /\
    invocations evs = remaining /\
    ApiClient.sleeps evs = RetrySchedule.api_delays baseDelay attempt (remaining - 1).
Proof.
  subst run. unfold ErrorHandlerOps.scripted.
  induction remaining as [|r IH]; intros attempt lastError start
    Hsum Hpos Hfail; [lia |].
  simpl.
  destruct (Hfail 0%nat ltac:(lia)) as (e & He & Hretry).
  rewrite Nat.add_0_r in He. rewrite He, Hretry. simpl.
  destruct (Nat.eqb_spec attempt maxAttempts) as [Hlast|Hmore].
  - assert (r = 0%nat) as -> by lia. exists [EvCall], e.
    rewrite Nat.add_1_r. split; [done |].
    split; [by replace (S start - 1)%nat with start by lia | by split].
  - destruct r as [|r]; [lia |].
    destruct (IH (S attempt) (Some e) (S start) ltac:(lia) ltac:(lia))
      as (evs & e' & Hrun & Hlast & Hinv & Hsl).
    + intros i Hi. destruct (Hfail (S i) ltac:(lia)) as (e'' & He'' & Hr'').
      exists e''. by rewrite Nat.add_succ_comm.
    + rewrite Hrun. eexists _, e'.
      replace (S start + S r)%nat with (start + S (S r))%nat by lia.
      split; [reflexivity |].
      split; [by replace (start + S (S r) - 1)%nat with (S start + S r - 1)%nat by lia |].
      split; [by rewrite api_invocations_call, api_invocations_sleep, Hinv |].
      cbn [Nat.sub] in *. rewrite ?Nat.sub_0_r in *.
      rewrite api_delays_S. simpl. by rewrite Hsl.
Qed.
End ApiSchedule.

(** X8.  [retryWithBackoff] returns the first success: when the operation
    fails [k] times with retryable errors and then succeeds, with
    [k < maxAttempts], the result is that success, the operation has been
    invoked [k + 1] times and the delays slept are those of the attempts
    1 to [k], in order. *)
Theorem api_retry_until_success (A : Type) (script : nat -> Js.Thrown + A)
    (maxAttempts : nat) (baseDelay : Q) (start k : nat) (v : A) :
  (k < maxAttempts)%nat ->
  (forall i, (i < k)%nat ->
     exists e, script (start + i)%nat = inl e /\ Api.isRetryableError e = Some true) ->
  script (start + k)%nat = inr v ->
  exists evs,
    Api.retryWithBackoff (ErrorHandlerOps.scripted script) maxAttempts baseDelay start
      = (Api.Resolved v, evs, S (start + k)%nat) /\
    Api.invocations evs = S k /\
    ApiClient.sleeps evs = RetrySchedule.api_delays baseDelay 1 k.
Proof.
  intros Hk Hfail Hok. unfold Api.retryWithBackoff.
  apply api_loop_success; [lia | lia | exact Hfail | exact Hok].
Qed.

Lemma api_retry_until_success_witness :
  exists evs,
    Api.retryWithBackoff
      (ErrorHandlerOps.scripted
         (fun k => if (k <? 2)%nat
                   then inl (Js.ThrownError (ApiClient.newApiError "Temp error" 503 None true))
                   else inr "success"%string))
      3 10%Q 0%nat = (Api.Resolved "success"%string, evs, 3%nat) /\
    Api.invocations evs = 3%nat.
Proof.
  destruct (api_retry_until_success string
              (fun k => if (k <? 2)%nat
                        then inl (Js.ThrownError
                                    (ApiClient.newApiError "Temp error" 503 None true))
                        else inr "success"%string)
              3 10%Q 0 2 "success"%string ltac:(lia))
    as (evs & Hrun & Hinv & _).
  - intros i Hi. destruct i as [|[|i]]; [| | lia]; eexists; by split.
  - reflexivity.
  - exists evs. by split.
Defined.

(** X9.  [retryWithBackoff] gives up after [maxAttempts] invocations: when
    every invocation fails with a retryable error, the operation is invoked
    exactly [maxAttempts] times, the error of the last invocation is
    thrown, and nothing is slept after the last attempt. *)
Theorem api_retry_exhausted (A : Type) (script : nat -> Js.Thrown + A)
    (maxAttempts : nat) (baseDelay : Q) (start : nat) :
  (1 <= maxAttempts)%nat ->
  (forall i, (i < maxAttempts)%nat ->
     exists e, script (start + i)%nat = inl e /\ Api.isRetryableError e = Some true) ->
  exists evs e,
    Api.retryWithBackoff (ErrorHandlerOps.scripted script) maxAttempts baseDelay start
      = (Api.Rejected e, evs, (start + maxAttempts)%nat) /\
    script (start + maxAttempts - 1)%nat = inl e /\
    Api.invocations evs = maxAttempts /\
    ApiClient.sleeps evs = RetrySchedule.api_delays baseDelay 1 (maxAttempts - 1).
Proof.
  intros Hmax Hfail. unfold Api.retryWithBackoff.
  apply api_loop_exhausted; [lia | lia | exact Hfail].
Qed.

Lemma api_retry_exhausted_witness :
  exists evs e,
    Api.retryWithBackoff
      (ErrorHandlerOps.scripted
         (fun _ : nat => inl (Js.ThrownError
                                (ApiClient.newApiError "Temp error" 503 None true))
                         : Js.Thrown + unit))
      3 10%Q 0%nat = (Api.Rejected e, evs, 3%nat) /\
    Api.invocations evs = 3%nat.
Proof.
  destruct (api_retry_exhausted unit
              (fun _ : nat => inl (Js.ThrownError
                                     (ApiClient.newApiError "Temp error" 503 None true)))
              3 10%Q 0 ltac:(lia))
    as (evs & e & Hrun & _ & Hinv & _).
  - intros i _. eexists. by split.
  - exists evs, e. by split.
Defined.

Section ClientFacts.
Import Js ApiClient.
Context {A : Type}.

(** Every failure of [makeRequest] is an [ApiError] that says whether it
    can be retried. *)
Lemma makeRequest_failure (reply : Reply A) e :
  makeRequest reply = inl e ->
  exists o, e = ThrownError o /\ name o = Some "ApiError"%string /\
    Api.isRetryableError e =
      Some match reply with
           | NotOk status _ _ _ => RetrySchedule.retryable_status status
           | _ => true
           end.
Proof.
  destruct reply as [e0|status statusText errorField codeField|status statusText
                    |data|e0]; simpl; intros [= <-].
  - exists (networkError e0). by split_and!.
  - eexists. split_and!; [reflexivity | reflexivity |].
    unfold RetrySchedule.retryable_status. by destruct status.
  - exists (networkError nullErrorData). by split_and!.
  - exists (networkError e0). by split_and!.
Qed.
End ClientFacts.

Section ClientBudget.
Import Js Api.
Context {A : Type}.
Variable script : nat -> Thrown + A.
Variable maxAttempts : nat.
Variable baseDelay : Q.

(** The call counter counts the invocations. *)
Lemma api_loop_counter remaining : forall attempt lastError start,
  snd (loop (ErrorHandlerOps.scripted script) maxAttempts baseDelay remaining
            attempt lastError start)
  = (start + invocations
       (api_events (loop (ErrorHandlerOps.scripted script) maxAttempts baseDelay
                         remaining attempt lastError start)))%nat.
Proof.
  unfold ErrorHandlerOps.scripted.
  induction remaining as [|r IH]; intros attempt lastError start; simpl.
  - unfold api_events, invocations. simpl. lia.
  - destruct (script start) as [e|v]; [| count_calls].
    destruct (isRetryableError e) as [retryable|]; [| count_calls].
    destruct (negb retryable || (attempt =? maxAttempts)%nat); [count_calls |].
    specialize (IH (S attempt) (Some e) (S start)).
    destruct (loop _ maxAttempts baseDelay r (S attempt) (Some e) (S start))
      as [[out evs] w''].
    unfold api_events in IH; simpl in IH. count_calls.
Qed.

Lemma api_loop_invoked remaining attempt lastError start :
  (1 <= invocations
          (api_events (loop (ErrorHandlerOps.scripted script) maxAttempts baseDelay
                            (S remaining) attempt lastError start)))%nat.
Proof.
  unfold ErrorHandlerOps.scripted. simpl.
  destruct (script start) as [e|v]; [| count_calls].
  destruct (isRetryableError e) as [retryable|]; [| count_calls].
  destruct (negb retryable || (attempt =? maxAttempts)%nat); [count_calls |].
  destruct (loop _ maxAttempts baseDelay remaining (S attempt) (Some e) (S start))
    as [[out evs] w''].
  count_calls.
Qed.
(** After a retryable failure that is not the last attempt, the operation
    is invoked again. *)
Lemma api_loop_retried remaining attempt lastError start e :
  script start = inl e -> isRetryableError e = Some true ->
  attempt <> maxAttempts ->
  (2 <= invocations
          (api_events (loop (ErrorHandlerOps.scripted script) maxAttempts baseDelay
                            (S (S remaining)) attempt lastError start)))%nat.
Proof.
  intros Hfail Hretry Hmore.
  pose proof (api_loop_invoked remaining (S attempt) (Some e) (S start)) as Hnext.
  remember (S remaining) as r eqn:Hr. cbn [loop].
  unfold ErrorHandlerOps.scripted at 1. rewrite Hfail, Hretry.
  destruct (Nat.eqb_spec attempt maxAttempts); [contradiction |]. cbn [negb orb].
  destruct (loop (ErrorHandlerOps.scripted script) maxAttempts baseDelay r
              (S attempt) (Some e) (S start)) as [[out evs] w''].
  revert Hnext. count_calls.
Qed.
End ClientBudget.

(** X10.  [generateImages] of [utils/api.js] sends between one and three
    requests.  It sends exactly one when the first reply is a success, or
    a response that is not ok whose status is not retryable (400, 401,
    404, ...) and whose body is not [null]; the error it throws is then an
    [ApiError] carrying that status, with [retryable = false].  A response
    that is not ok with the body [null] is treated like a network failure,
    whatever its status: the error has status 0 and [retryable = true],
    and a second request is sent.  When the three replies are network
    failures, [null] bodies or retryable statuses it sends three requests
    and sleeps 1000 ms and 2000 ms between them. *)
Theorem client_request_budget (A : Type) (env : nat -> ApiClient.Reply A)
    (start : nat) :
  let r := ApiClient.generateImages env start in
  let evs := Api.api_events r in
  (1 <= Api.invocations evs <= 3)%nat /\
  snd r = (start + Api.invocations evs)%nat /\
  (forall data, env start = ApiClient.OkJson data ->
     r = (Api.Resolved data, [Api.EvCall], S start)) /\
  (forall status statusText errorField codeField,
     env start = ApiClient.NotOk status statusText errorField codeField ->
     RetrySchedule.retryable_status status = false ->
     Api.invocations evs = 1%nat /\
     exists o, fst (fst r) = Api.Rejected (Js.ThrownError o) /\
               Js.status o = Some status /\ Js.apiRetryable o = Some false) /\
  (forall status statusText,
     env start = ApiClient.NotOkNull status statusText ->
     (exists o, ApiClient.makeRequest (env start) = inl (Js.ThrownError o) /\
                Js.name o = Some "ApiError"%string /\
                Js.status o = Some 0 /\ Js.apiRetryable o = Some true) /\
     (2 <= Api.invocations evs)%nat) /\
  ((forall i, (i < 3)%nat -> RetrySchedule.reply_retryable (env (start + i)%nat) = true) ->
   Api.invocations evs = 3%nat /\ ApiClient.sleeps evs = [1000%Q; 2000%Q]).
Proof.
  intros r evs. subst evs r.
  unfold ApiClient.generateImages, Api.retryWithBackoff, Config.fal_retryAttempts.
  change (@ApiClient.generateFn A env)
    with (ErrorHandlerOps.scripted (fun k => ApiClient.makeRequest (env k))).
  split_and!.
  - apply (api_loop_invoked _ 3 1000%Q 2 1 None start).
  - apply (api_loop_invocations _ 3 1000%Q 3 1 None start).
  - apply api_loop_counter.
  - intros data Hreply. unfold ErrorHandlerOps.scripted. simpl. by rewrite Hreply.
  - intros status statusText errorField codeField Hreply Hstatus.
    pose proof (makeRequest_failure (env start)) as Hfail.
    unfold ErrorHandlerOps.scripted. simpl.
    destruct (ApiClient.makeRequest (env start)) as [e|v] eqn:Hreq;
      [| by rewrite Hreply in Hreq].
    destruct (Hfail e eq_refl) as (o & -> & _ & Hretry).
    rewrite Hreply, Hstatus in Hretry. rewrite Hretry. simpl.
    split; [reflexivity |]. exists o. split; [reflexivity |].
    rewrite Hreply in Hreq. simpl in Hreq. injection Hreq as <-. simpl.
    split; [reflexivity |]. f_equal.
    simpl in Hretry. by injection Hretry.
  - intros status statusText Hreply. rewrite Hreply.
    split; [eexists; by split_and! |].
    apply (api_loop_retried (fun k => ApiClient.makeRequest (env k)) 3 1000%Q
             1 1 None start
             (Js.ThrownError (ApiClient.networkError ApiClient.nullErrorData)));
      [by rewrite Hreply | reflexivity | lia].
  - intros Hall.
    destruct (api_loop_exhausted (fun k => ApiClient.makeRequest (env k)) 3 1000%Q
                3 1 None start eq_refl ltac:(lia))
      as (evs & e & Hrun & _ & Hinv & Hsl).
    + intros i Hi. specialize (Hall i Hi).
      pose proof (makeRequest_failure (env (start + i)%nat)) as Hfail.
      destruct (ApiClient.makeRequest (env (start + i)%nat)) as [e|v] eqn:Hreq.
      * exists e. split; [reflexivity |].
        destruct (Hfail e eq_refl) as (o & _ & _ & Hretry). rewrite Hretry.
        f_equal. by destruct (env (start + i)%nat).
      * by destruct (env (start + i)%nat).
    + rewrite Hrun. unfold Api.api_events. simpl. rewrite Hinv, Hsl. by split.
Qed.

Section HookSchedule.
Import Js ErrorHandler.
Context {A : Type}.
Variable script : nat -> Thrown + A.
Variable maxRetries : nat.
Variable baseDelay : Q.
Variable random : nat -> Q.

Lemma hook_delays_S attempt k :
  RetrySchedule.hook_delays baseDelay random attempt (S k) =
  calculateBackoffDelay (Z.of_nat (S attempt)) baseDelay (random (S attempt))
  :: RetrySchedule.hook_delays baseDelay random (S attempt) k.
Proof.
  unfold RetrySchedule.hook_delays. simpl. rewrite Nat.add_0_r. f_equal.
  rewrite <- seq_shift, map_map. apply map_ext. intros i.
  by rewrite Nat.add_succ_r.
Qed.

Lemma hook_retries_S attempt k :
  RetrySchedule.hook_retries maxRetries attempt (S k) =
  (S attempt, maxRetries) :: RetrySchedule.hook_retries maxRetries (S attempt) k.
Proof.
  unfold RetrySchedule.hook_retries. simpl. rewrite Nat.add_0_r. f_equal.
  rewrite <- seq_shift, map_map. apply map_ext. intros i.
  by rewrite Nat.add_succ_r.
Qed.

Lemma sleeps_pre (c : bool) n m evs :
  ErrorHandlerOps.sleeps ((if c then [EvOnRetry n m] else []) ++ evs)
  = ErrorHandlerOps.sleeps evs.
Proof. by destruct c. Qed.

Lemma retries_pre attempt evs :
  ErrorHandlerOps.retries
    ((if (0 <? attempt)%nat then [EvOnRetry attempt maxRetries] else []) ++ evs)
  = RetrySchedule.announced maxRetries attempt ++ ErrorHandlerOps.retries evs.
Proof. unfold RetrySchedule.announced. by destruct (0 <? attempt)%nat. Qed.

Let run := loop (ErrorHandlerOps.scripted script) maxRetries true baseDelay random.

(** [k] retryable failures, then a success. *)
Lemma hook_loop_success k : forall remaining attempt start v,
  (k < remaining)%nat -> (attempt + k <= maxRetries)%nat ->
  (forall i, (i < k)%nat ->
     exists e, script (start + i)%nat = inl e /\ p_retryable (processError e) = true) ->
  script (start + k)%nat = inr v ->
  exists evs,
    run remaining attempt start = (Resolved v, evs, S (start + k)) /\
    invocations evs = S k /\
    ErrorHandlerOps.sleeps evs = RetrySchedule.hook_delays baseDelay random attempt k /\
    ErrorHandlerOps.retries evs =
      RetrySchedule.announced maxRetries attempt ++ RetrySchedule.hook_retries maxRetries attempt k.
Proof.
  subst run. unfold ErrorHandlerOps.scripted.
  induction k as [|k IH]; intros remaining attempt start v Hrem Hatt Hfail Hok.
  - destruct remaining as [|r]; [lia |]. simpl.
    rewrite Nat.add_0_r in Hok. rewrite Hok.
    eexists. rewrite Nat.add_0_r. split; [reflexivity |].
    split; [count_calls |]. split; [by rewrite sleeps_pre |].
    rewrite retries_pre. reflexivity.
  - destruct remaining as [|r]; [lia |]. simpl.
    destruct (Hfail 0%nat ltac:(lia)) as (e & He & Hretry).
    rewrite Nat.add_0_r in He. rewrite He. simpl in Hretry. rewrite Hretry. simpl.
    destruct (Nat.ltb_spec maxRetries (S attempt)); [lia |]. simpl.
    destruct (IH r (S attempt) (S start) v ltac:(lia) ltac:(lia))
      as (evs & Hrun & Hinv & Hsl & Hre).
    + intros i Hi. destruct (Hfail (S i) ltac:(lia)) as (e' & He' & Hr').
      exists e'. by rewrite Nat.add_succ_comm.
    + by rewrite Nat.add_succ_comm.
    + rewrite Hrun. eexists.
      replace (S (S start + k)) with (S (start + S k)) by lia.
      split; [reflexivity |].
      split; [count_calls |].
      split; [rewrite sleeps_pre, hook_delays_S; simpl; by rewrite <- Hsl |].
      rewrite retries_pre, hook_retries_S. simpl. rewrite Hre.
      unfold RetrySchedule.announced at 2. simpl. reflexivity.
Qed.

(** Retryable failures only: the executor gives up after the attempt
    number [maxRetries + 1]. *)
Lemma hook_loop_exhausted : forall remaining attempt start,
  (attempt + remaining = S maxRetries)%nat -> (1 <= remaining)%nat ->
  (forall i, (i < remaining)%nat ->
     exists e, script (start + i)%nat = inl e /\ p_retryable (processError e) = true) ->
  exists evs e,
    run remaining attempt start
      = (Rejected (processError e), evs, (start + remaining)%nat) /\
    script (start + remaining - 1)%nat = inl e /\
    invocations evs = remaining /\
    ErrorHandlerOps.sleeps evs
      = RetrySchedule.hook_delays baseDelay random attempt (remaining - 1).
Proof.
  subst run. unfold ErrorHandlerOps.scripted.
  induction remaining as [|r IH]; intros attempt start Hsum Hpos Hfail; [lia |].
  simpl.
  destruct (Hfail 0%nat ltac:(lia)) as (e & He & Hretry).
  rewrite Nat.add_0_r in He. rewrite He. simpl in Hretry. rewrite Hretry. simpl.
  destruct (Nat.ltb_spec maxRetries (S attempt)) as [Hlast|Hmore]; simpl.
  - assert (r = 0%nat) as -> by lia. eexists _, e.
    rewrite Nat.add_1_r. split; [reflexivity |].
    split; [by replace (S start - 1)%nat with start by lia |].
    split; [count_calls | by rewrite sleeps_pre].
  - destruct r as [|r]; [lia |].
    destruct (IH (S attempt) (S start) ltac:(lia) ltac:(lia))
      as (evs & e' & Hrun & Hlast & Hinv & Hsl).
    + intros i Hi. destruct (Hfail (S i) ltac:(lia)) as (e'' & He'' & Hr'').
      exists e''. by rewrite Nat.add_succ_comm.
    + rewrite Hrun. eexists _, e'.
      replace (S start + S r)%nat with (start + S (S r))%nat by lia.
      split; [reflexivity |].
      split; [by replace (start + S (S r) - 1)%nat with (S start + S r - 1)%nat by lia |].
      split; [count_calls |].
      cbn [Nat.sub] in *. rewrite ?Nat.sub_0_r in *.
      rewrite sleeps_pre, hook_delays_S. simpl. by rewrite Hsl.
Qed.
End HookSchedule.

(** X11.  [executeWithErrorHandling] returns the first success: when the
    operation fails [k] times with retryable errors and then succeeds, with
    [k <= maxRetries], the result is that success, the operation has been
    invoked [k + 1] times, [onRetry] has been told the attempts 1 to [k],
    and the delays slept are the backoff delays of these attempts. *)
Theorem hook_retry_until_success (A : Type) (script : nat -> Js.Thrown + A)
    (maxRetries : nat) (baseDelay : Q) (random : nat -> Q) (start k : nat) (v : A) :
  (k <= maxRetries)%nat ->
  (forall i, (i < k)%nat ->
     exists e, script (start + i)%nat = inl e /\
               ErrorHandler.p_retryable (ErrorHandler.processError e) = true) ->
  script (start + k)%nat = inr v ->
  exists evs,
    ErrorHandler.executeWithErrorHandling (ErrorHandlerOps.scripted script)
      maxRetries true baseDelay random start
      = (ErrorHandler.Resolved v, evs, S (start + k)%nat) /\
    ErrorHandler.invocations evs = S k /\
    ErrorHandlerOps.sleeps evs = RetrySchedule.hook_delays baseDelay random 0 k /\
    ErrorHandlerOps.retries evs = RetrySchedule.hook_retries maxRetries 0 k.
Proof.
  intros Hk Hfail Hok. unfold ErrorHandler.executeWithErrorHandling.
  destruct (hook_loop_success script maxRetries baseDelay random k (S maxRetries)
              0%nat start v ltac:(lia) ltac:(lia) Hfail Hok)
    as (evs & Hrun & Hinv & Hsl & Hre).
  exists evs. by split_and!.
Qed.

Lemma hook_retry_until_success_witness :
  exists evs,
    ErrorHandler.executeWithErrorHandling
      (ErrorHandlerOps.scripted
         (fun k => if (k <? 1)%nat
                   then inl (Js.ThrownError (Js.newError "Temporary failure"))
                   else inr "success"%string))
      2 true 10%Q (fun _ => 0%Q) 0%nat
      = (ErrorHandler.Resolved "success"%string, evs, 2%nat) /\
    ErrorHandler.invocations evs = 2%nat /\
    ErrorHandlerOps.retries evs = [(1%nat, 2%nat)].
Proof.
  destruct (hook_retry_until_success string
              (fun k => if (k <? 1)%nat
                        then inl (Js.ThrownError (Js.newError "Temporary failure"))
                        else inr "success"%string)
              2 10%Q (fun _ => 0%Q) 0 1 "success"%string ltac:(lia))
    as (evs & Hrun & Hinv & _ & Hre).
  - intros i Hi. destruct i as [|i]; [| lia]. eexists. by split.
  - reflexivity.
  - exists evs. by split_and!.
Defined.

(** X12.  [executeWithErrorHandling] gives up after [maxRetries + 1]
    invocations: when every invocation fails with a retryable error, the
    operation is invoked exactly [maxRetries + 1] times, the classified
    error of the last invocation is thrown, and [maxRetries] delays are
    slept, none after the last attempt. *)
Theorem hook_retry_exhausted (A : Type) (script : nat -> Js.Thrown + A)
    (maxRetries : nat) (baseDelay : Q) (random : nat -> Q) (start : nat) :
  (forall i, (i <= maxRetries)%nat ->
     exists e, script (start + i)%nat = inl e /\
               ErrorHandler.p_retryable (ErrorHandler.processError e) = true) ->
  exists evs e,
    ErrorHandler.executeWithErrorHandling (ErrorHandlerOps.scripted script)
      maxRetries true baseDelay random start
      = (ErrorHandler.Rejected (ErrorHandler.processError e), evs,
         (start + S maxRetries)%nat) /\
    script (start + maxRetries)%nat = inl e /\
    ErrorHandler.invocations evs = S maxRetries /\
    ErrorHandlerOps.sleeps evs
      = RetrySchedule.hook_delays baseDelay random 0 maxRetries.
Proof.
  intros Hfail. unfold ErrorHandler.executeWithErrorHandling.
  destruct (hook_loop_exhausted script maxRetries baseDelay random (S maxRetries)
              0%nat start eq_refl ltac:(lia))
    as (evs & e & Hrun & Hlast & Hinv & Hsl).
  - intros i Hi. apply Hfail. lia.
  - exists evs, e. split; [exact Hrun |].
    replace (start + S maxRetries - 1)%nat with (start + maxRetries)%nat in Hlast by lia.
    cbn [Nat.sub] in Hsl. rewrite Nat.sub_0_r in Hsl. by split_and!.
Qed.

Lemma hook_retry_exhausted_witness :
  exists evs e,
    ErrorHandler.executeWithErrorHandling
      (ErrorHandlerOps.scripted
         (fun _ : nat => inl (Js.ThrownError (Js.newError "Persistent failure"))
                         : Js.Thrown + unit))
      1 true 10%Q (fun _ => 0%Q) 0%nat
      = (ErrorHandler.Rejected (ErrorHandler.processError e), evs, 2%nat) /\
    ErrorHandler.invocations evs = 2%nat.
Proof.
  destruct (hook_retry_exhausted unit
              (fun _ : nat => inl (Js.ThrownError (Js.newError "Persistent failure")))
              1 10%Q (fun _ => 0%Q) 0)
    as (evs & e & Hrun & _ & Hinv & _).
  - intros i _. eexists. by split.
  - exists evs, e. by split.
Defined.

Section HookSleeps.
Import Js ErrorHandler.
Context {W A : Type}.
Variable operation : W -> (Thrown + A) * W.
Variable maxRetries : nat.
Variable autoRetry : bool.
Variable baseDelay : Q.
Variable random : nat -> Q.

Lemma backoff_capped attempt r :
  (calculateBackoffDelay attempt baseDelay r <= 30000)%Q.
Proof. apply Q.le_min_r. Qed.

Lemma timeline_pre (c : bool) n m evs :
  ErrorHandlerOps.timeline ((if c then [EvOnRetry n m] else []) ++ evs)
  = ErrorHandlerOps.timeline evs.
Proof. by destruct c. Qed.

(** The invocations and the sleeps of the loop alternate. *)
Lemma hook_loop_timeline remaining : forall attempt w,
  (attempt + remaining = S maxRetries)%nat -> (0 < remaining)%nat ->
  let evs := hook_events (loop operation maxRetries autoRetry baseDelay random
                               remaining attempt w) in
  exists delays,
    ErrorHandlerOps.timeline evs = ErrorHandlerOps.alternating delays /\
    ErrorHandlerOps.sleeps evs = delays /\
    invocations evs = S (List.length delays) /\
    (List.length delays < remaining)%nat /\
    Forall (fun d => (d <= 30000)%Q) delays /\
    (autoRetry = false -> delays = []).
Proof.
  assert (forall pre : bool, forall n m last,
            match last with EvCall | EvSleep _ => False | _ => True end ->
            let evs := (if pre then [EvOnRetry n m] else []) ++ [EvCall; last] in
            ErrorHandlerOps.timeline evs = ErrorHandlerOps.alternating [] /\
            ErrorHandlerOps.sleeps evs = [] /\
            invocations evs = 1%nat) as Hstop.
  { intros pre n m last Hlast. by destruct pre, last. }
  induction remaining as [|r IH]; intros attempt w Hsum Hpos; [lia |].
  cbn [loop]. destruct (operation w) as [[e|v] w'].
  - destruct ((maxRetries <? S attempt)%nat
              || negb (p_retryable (processError e)) || negb autoRetry) eqn:Hgive.
    + unfold hook_events. cbn [fst snd].
      destruct (Hstop (0 <? attempt)%nat attempt maxRetries
                  (EvOnError (processError e)) I) as (Ht & Hs & Hc).
      exists []. split_and!;
        [exact Ht | exact Hs | exact Hc | simpl; lia | constructor | done].
    + assert (0 < r)%nat as Hr.
      { destruct (Nat.ltb_spec maxRetries (S attempt)); [discriminate | lia]. }
      specialize (IH (S attempt) w' ltac:(lia) Hr).
      destruct (loop operation maxRetries autoRetry baseDelay random r
                  (S attempt) w') as [[out evs] w''].
      unfold hook_events in *. cbn [fst snd] in *.
      destruct IH as (delays & Ht & Hs & Hc & Hlen & Hall & Hauto).
      exists (calculateBackoffDelay (Z.of_nat (S attempt)) baseDelay
                (random (S attempt)) :: delays).
      split_and!.
      * rewrite timeline_pre. cbn [ErrorHandlerOps.timeline omap list_omap].
        fold (ErrorHandlerOps.timeline evs). rewrite Ht. reflexivity.
      * rewrite sleeps_pre. cbn [ErrorHandlerOps.sleeps omap list_omap].
        fold (ErrorHandlerOps.sleeps evs). by rewrite Hs.
      * revert Hc. count_calls.
      * simpl. lia.
      * constructor; [apply backoff_capped | exact Hall].
      * intros Hoff. rewrite Hoff in Hgive. by rewrite !orb_true_r in Hgive.
  - unfold hook_events. cbn [fst snd].
    destruct (Hstop (0 <? attempt)%nat attempt maxRetries
                (EvOnSuccess attempt) I) as (Ht & Hs & Hc).
    exists []. split_and!;
      [exact Ht | exact Hs | exact Hc | simpl; lia | constructor | done].
Qed.
End HookSleeps.

(** X13.  Whatever the operation does, the invocations and the sleeps of
    [executeWithErrorHandling] alternate: the run starts with an
    invocation, every sleep stands between two invocations, and two
    invocations are separated by exactly one sleep.  Hence there is one
    sleep less than there are invocations, at most [maxRetries] of them;
    no delay exceeds 30000 ms; and with [autoRetry: false] the operation
    is invoked once and nothing is slept. *)
Theorem hook_sleeps_between_attempts (W A : Type)
    (operation : W -> (Js.Thrown + A) * W) (maxRetries : nat) (autoRetry : bool)
    (baseDelay : Q) (random : nat -> Q) (w : W) :
  let evs := ErrorHandler.hook_events
               (ErrorHandler.executeWithErrorHandling operation maxRetries
                  autoRetry baseDelay random w) in
  exists delays,
    ErrorHandlerOps.timeline evs = ErrorHandlerOps.alternating delays /\
    ErrorHandlerOps.sleeps evs = delays /\
    ErrorHandler.invocations evs = S (List.length delays) /\
    (List.length delays <= maxRetries)%nat /\
    Forall (fun d => (d <= 30000)%Q) delays /\
    (autoRetry = false -> delays = []).
Proof.
  intros evs. subst evs. unfold ErrorHandler.executeWithErrorHandling.
  destruct (hook_loop_timeline operation maxRetries autoRetry baseDelay random
              (S maxRetries) 0%nat w eq_refl ltac:(lia))
    as (delays & Htimeline & Hsleeps & Hcalls & Hlen & Hall & Hauto).
  exists delays. split_and!; try done. lia.
Qed.

(** ** Classification *)

(** X14.  Of an [Error] instance the classifier reads the message and the
    name only: its [status] (and the [retryable] flag of an [ApiError]) is
    dropped, so two instances with the same message and name are
    classified alike, the result carries no status, and the category
    [client], which only a status can give, is never assigned. *)
Theorem error_instances_lose_status (e e' : Js.ErrorObj) :
  Js.message e = Js.message e' -> Js.name e = Js.name e' ->
  ErrorHandler.processError (Js.ThrownError e)
    = ErrorHandler.processError (Js.ThrownError e') /\
  ErrorHandler.p_status (ErrorHandler.processError (Js.ThrownError e)) = None /\
  ErrorHandler.p_category (ErrorHandler.processError (Js.ThrownError e))
    <> ErrorHandler.client.
Proof.
  intros Hm Hn. unfold ErrorHandler.processError, ErrorHandler.mergedError.
  rewrite Hm, Hn. split; [reflexivity |]. split; [reflexivity |].
  unfold ErrorHandler.categorizeError. cbn [Js.status Js.message Js.name].
  unfold Js.status_is, Js.status_in. rewrite !orb_false_r.
  repeat match goal with
         | |- context [if ?c then _ else _] => destruct c; [discriminate |]
         end.
  discriminate.
Qed.

Lemma error_instances_lose_status_witness :
  ErrorHandler.processError
    (Js.ThrownError (ApiClient.newApiError "Not found" 404 None false))
  = ErrorHandler.processError
      (Js.ThrownError (ApiClient.newApiError "Not found" 503 None true)) /\
  ErrorHandler.p_category
    (ErrorHandler.processError
       (Js.ThrownError (ApiClient.newApiError "Not found" 404 None false)))
  <> ErrorHandler.client.
Proof.
  destruct (error_instances_lose_status
              (ApiClient.newApiError "Not found" 404 None false)
              (ApiClient.newApiError "Not found" 503 None true)
              eq_refl eq_refl) as (Hsame & _ & Hcat).
  split; [exact Hsame | exact Hcat].
Defined.

(** X15.  What is never retried: an error whose message mentions, in any
    case, one of the words of the configuration, validation and
    authentication rules, or whose status is 400, 401 or 403, is classified
    as not retryable whatever else it carries (a 503 whose message says
    "invalid" is not retried). *)
Theorem keywords_beat_status (error : Js.ErrorObj) :
  RetrySchedule.mentions RetrySchedule.nonRetryableKeywords (Js.message error) = true
  \/ Js.status error = Some 400 \/ Js.status error = Some 401
  \/ Js.status error = Some 403 ->
  ErrorHandler.getRetryabilityForCategory (ErrorHandler.categorizeError error) = false /\
  (ErrorHandler.categorizeError error = ErrorHandler.configuration \/
   ErrorHandler.categorizeError error = ErrorHandler.validation \/
   ErrorHandler.categorizeError error = ErrorHandler.authentication).
Proof.
  intros H.
  assert (ErrorHandler.categorizeError error = ErrorHandler.configuration \/
          ErrorHandler.categorizeError error = ErrorHandler.validation \/
          ErrorHandler.categorizeError error = ErrorHandler.authentication) as Hcat.
  { unfold ErrorHandler.categorizeError.
    set (has := JsString.includes (JsString.toLowerCase (Js.orEmpty (Js.message error)))).
    destruct (has "configuration" || has "api key" || has "not configured"
              || has "missing credentials") eqn:H1; [by left |].
    destruct (has "validation" || has "invalid" || has "required"
              || has "bad request" || Js.status_is (Js.status error) 400) eqn:H2;
      [by right; left |].
    destruct (has "unauthorized" || has "authentication"
              || Js.status_is (Js.status error) 401
              || Js.status_is (Js.status error) 403) eqn:H3; [by right; right |].
    exfalso.
    repeat (apply orb_false_iff in H1 as [H1 ?]).
    repeat (apply orb_false_iff in H2 as [H2 ?]).
    repeat (apply orb_false_iff in H3 as [H3 ?]).
    destruct H as [H | [H | [H | H]]].
    - unfold RetrySchedule.mentions, RetrySchedule.nonRetryableKeywords in H.
      fold has in H. simpl in H.
      repeat (apply orb_true_iff in H as [H | H]; [congruence |]).
      congruence.
    - rewrite H in *. simpl in *. congruence.
    - rewrite H in *. simpl in *. congruence.
    - rewrite H in *. simpl in *. congruence. }
  split; [| exact Hcat].
  destruct Hcat as [-> | [-> | ->]]; reflexivity.
Qed.

Lemma keywords_beat_status_witness :
  ErrorHandler.getRetryabilityForCategory
    (ErrorHandler.categorizeError
       (Js.mkErrorObj (Some "Invalid response from upstream"%string) None
          (Some 503) None None)) = false.
Proof.
  apply (keywords_beat_status
           (Js.mkErrorObj (Some "Invalid response from upstream"%string) None
              (Some 503) None None)).
  left. reflexivity.
Defined.

(** ** Cache keys *)

Section StringFacts.
Import JsString.

Lemma is_space_lower c : is_space (lower_ascii c) = is_space c.
Proof. destruct c as [[] [] [] [] [] [] [] []]; reflexivity. Qed.

Lemma lower_lower c : lower_ascii (lower_ascii c) = lower_ascii c.
Proof. destruct c as [[] [] [] [] [] [] [] []]; reflexivity. Qed.

Lemma toLowerCase_idempotent s : toLowerCase (toLowerCase s) = toLowerCase s.
Proof. induction s as [|c s IH]; simpl; [done | by rewrite lower_lower, IH]. Qed.

Lemma trimStart_lower s : trimStart (toLowerCase s) = toLowerCase (trimStart s).
Proof.
  induction s as [|c s IH]; simpl; [done |].
  rewrite is_space_lower. by destruct (is_space c).
Qed.

Lemma trimEnd_lower s : trimEnd (toLowerCase s) = toLowerCase (trimEnd s).
Proof.
  induction s as [|c s IH]; simpl; [done |].
  rewrite IH, is_space_lower.
  destruct (trimEnd s) as [|c' r]; simpl; [by destruct (is_space c) | done].
Qed.

Lemma trim_lower s : trim (toLowerCase s) = toLowerCase (trim s).
Proof. unfold trim. by rewrite trimStart_lower, trimEnd_lower. Qed.

Lemma trimStart_idempotent s : trimStart (trimStart s) = trimStart s.
Proof.
  induction s as [|c s IH]; simpl; [done |].
  destruct (is_space c) eqn:Hc; [exact IH | simpl; by rewrite Hc].
Qed.

Lemma trimEnd_idempotent s : trimEnd (trimEnd s) = trimEnd s.
Proof.
  induction s as [|c s IH]; simpl; [done |].
  destruct (trimEnd s) as [|c' r] eqn:Hr.
  - destruct (is_space c) eqn:Hc; simpl; [done | by rewrite Hc].
  - change (trimEnd (String c (String c' r)))
      with (match trimEnd (String c' r) with
            | EmptyString => if is_space c then EmptyString else String c EmptyString
            | r' => String c r'
            end).
    by rewrite IH.
Qed.

(** What is left of a string that does not start with a space still does
    not start with one. *)
Lemma trimStart_trimEnd s :
  trimStart s = s -> trimStart (trimEnd s) = trimEnd s.
Proof.
  destruct s as [|c s]; [done |]. simpl.
  destruct (is_space c) eqn:Hc.
  - intros Heq. exfalso.
    assert (String.length (trimStart s) <= String.length s)%nat as Hlen.
    { clear. induction s as [|c s IH]; simpl; [lia |].
      destruct (is_space c); simpl; lia. }
    rewrite Heq in Hlen. simpl in Hlen. lia.
  - intros _. destruct (trimEnd s); simpl; by rewrite Hc.
Qed.

Lemma trim_idempotent s : trim (trim s) = trim s.
Proof.
  unfold trim.
  rewrite (trimStart_trimEnd (trimStart s) (trimStart_idempotent s)).
  apply trimEnd_idempotent.
Qed.
End StringFacts.

(** The functions of [JsString] keep ASCII strings ASCII. *)
Lemma isAscii_lower s :
  JsString.isAscii s = true -> JsString.isAscii (JsString.toLowerCase s) = true.
Proof.
  induction s as [|c s IH]; simpl; [done |].
  intros [Hc Hs]%andb_true_iff. rewrite (IH Hs), andb_true_r.
  unfold JsString.lower_ascii.
  destruct (Nat.leb 65 (nat_of_ascii c) && Nat.leb (nat_of_ascii c) 90)%bool eqn:Hup;
    [| exact Hc].
  apply andb_true_iff in Hup as [_ Hle]. apply Nat.leb_le in Hle.
  rewrite nat_ascii_embedding by lia. apply Nat.ltb_lt. lia.
Qed.

Lemma isAscii_trimStart s :
  JsString.isAscii s = true -> JsString.isAscii (JsString.trimStart s) = true.
Proof.
  induction s as [|c s IH]; simpl; [done |].
  intros Hcs. destruct (JsString.is_space c); [| exact Hcs].
  apply andb_true_iff in Hcs as [_ Hs]. by apply IH.
Qed.

Lemma isAscii_trimEnd s :
  JsString.isAscii s = true -> JsString.isAscii (JsString.trimEnd s) = true.
Proof.
  induction s as [|c s IH]; simpl; [done |].
  intros [Hc Hs]%andb_true_iff. specialize (IH Hs).
  destruct (JsString.trimEnd s) as [|c' s'].
  - destruct (JsString.is_space c); [done |]. simpl. by rewrite Hc.
  - simpl in *. by rewrite Hc, IH.
Qed.

Lemma isAscii_trim s :
  JsString.isAscii s = true -> JsString.isAscii (JsString.trim s) = true.
Proof. intros Hs. by apply isAscii_trimEnd, isAscii_trimStart. Qed.

(** X16.  For prompts made of ASCII characters (on which [trim],
    [toLowerCase] and [length] are modelled exactly), prompts that differ
    only by case or by surrounding white space share one cache key, and
    neither trimming nor taking the key changes whether a prompt is valid:
    [normalize] is idempotent and absorbs [trim] and [toLowerCase], its
    result is again made of ASCII characters, and [validatePrompt] gives
    the same answer for a prompt, for its trimmed form and for its key. *)
Theorem cache_key_is_canonical (prompt : string) :
  JsString.isAscii prompt = true ->
  JsString.isAscii (ImageGeneration.normalize prompt) = true /\
  ImageGeneration.normalize (ImageGeneration.normalize prompt)
    = ImageGeneration.normalize prompt /\
  ImageGeneration.normalize (JsString.trim prompt) = ImageGeneration.normalize prompt /\
  ImageGeneration.normalize (JsString.toLowerCase prompt)
    = ImageGeneration.normalize prompt /\
  ImageGeneration.validatePrompt (JsString.trim prompt)
    = ImageGeneration.validatePrompt prompt /\
  ImageGeneration.validatePrompt (ImageGeneration.normalize prompt)
    = ImageGeneration.validatePrompt prompt.
Proof.
  intros Hascii.
  unfold ImageGeneration.normalize, ImageGeneration.validatePrompt.
  split_and!.
  - by apply isAscii_lower, isAscii_trim.
  - by rewrite trim_lower, trim_idempotent, toLowerCase_idempotent.
  - by rewrite trim_idempotent.
  - by rewrite trim_lower, toLowerCase_idempotent.
  - by rewrite trim_idempotent.
  - by rewrite trim_lower, trim_idempotent, !toLowerCase_length.
Qed.

Lemma cache_key_is_canonical_witness :
  ImageGeneration.normalize (JsString.trim "  A Cat ")
    = ImageGeneration.normalize "  A Cat " /\
  ImageGeneration.validatePrompt (ImageGeneration.normalize "  A Cat ")
    = ImageGeneration.validatePrompt "  A Cat ".
Proof.
  destruct (cache_key_is_canonical "  A Cat " eq_refl)
    as (_ & _ & Htrim & _ & _ & Hvalid).
  split; [exact Htrim | exact Hvalid].
Defined.

Section CacheRoundTrip.
Import ImageGeneration.

Lemma cache_lookup prompt prompt' result t now h :
  getCachedResult prompt' now (cacheResult prompt result t h) =
  if decide (normalize prompt' = normalize prompt)
  then if now - t <? 300000 then Some (mkEntry result t) else None
  else getCachedResult prompt' now h.
Proof.
  unfold getCachedResult, cacheResult.
  destruct (decide (normalize prompt' = normalize prompt)) as [->|Hne].
  - by rewrite lookup_insert_eq.
  - by rewrite lookup_insert_ne.
Qed.
End CacheRoundTrip.

(** X17.  The cache round trip: after [cacheResult] for a prompt, a lookup
    for any prompt with the same normalized key returns the stored result
    with its timestamp while fewer than 300000 ms have passed and nothing
    from then on; lookups for other keys are not affected. *)
Theorem cache_round_trip (prompt prompt' : string)
    (result : ImageGeneration.GenerationResult) (t now : Z)
    (h : gmap string ImageGeneration.CacheEntry) :
  let h' := ImageGeneration.cacheResult prompt result t h in
  (ImageGeneration.normalize prompt' = ImageGeneration.normalize prompt ->
   (now - t < 300000 ->
    ImageGeneration.getCachedResult prompt' now h'
      = Some (ImageGeneration.mkEntry result t)) /\
   (300000 <= now - t -> ImageGeneration.getCachedResult prompt' now h' = None)) /\
  (ImageGeneration.normalize prompt' <> ImageGeneration.normalize prompt ->
   ImageGeneration.getCachedResult prompt' now h'
     = ImageGeneration.getCachedResult prompt' now h).
Proof.
  intros h'. subst h'. split.
  - intros Hkey. rewrite cache_lookup.
    destruct (decide _); [| contradiction].
    split; intros Ht; destruct (Z.ltb_spec (now - t) 300000); (done || lia).
  - intros Hkey. rewrite cache_lookup. by destruct (decide _).
Qed.

Lemma cache_round_trip_witness :
  ImageGeneration.getCachedResult "  A CAT "%string 200000
    (ImageGeneration.cacheResult "a cat"%string Scenario.cat_result 1000 ∅)
  = Some (ImageGeneration.mkEntry Scenario.cat_result 1000).
Proof.
  destruct (cache_round_trip "a cat"%string "  A CAT "%string Scenario.cat_result
              1000 200000 ∅) as [Hsame _].
  destruct (Hsame eq_refl) as [Hfresh _].
  apply Hfresh. reflexivity.
Defined.

Section GenerateThenHit.
Import Js ImageGeneration.

Lemma finally_ui c st : ui (finally c st) = ui st.
Proof.
  unfold finally. destruct (currentRequest st) as [c'|]; [| done].
  by destruct (c' =? c)%nat.
Qed.

(** A run of [generateFn] that succeeds has cached its result; no run
    changes the prompt shown. *)
Lemma generateFn_success env prompt opts st result st' :
  generateFn env prompt opts st = (inr result, st') ->
  history st' !! normalize prompt
    = Some (mkEntry result (snd (env (List.length (fetches st))))).
Proof.
  unfold generateFn. destruct (env (List.length (fetches st))) as [reply now].
  unfold generateFn_start, generateFn_finish.
  destruct reply as [e0|status statusText errorField|body];
    [discriminate | discriminate |].
  destruct (body_imageUrls body); [| discriminate].
  intros [= <- <-]. rewrite (proj1 (finally_frame _ _)).
  unfold cacheResult. cbn [history snd]. by rewrite lookup_insert_eq.
Qed.

Lemma generateFn_prompt env prompt opts st :
  ui_prompt (ui (snd (generateFn env prompt opts st))) = ui_prompt (ui st).
Proof.
  unfold generateFn. destruct (env (List.length (fetches st))) as [reply now].
  unfold generateFn_start, generateFn_finish.
  destruct reply as [e0|status statusText errorField|body]; cbn [snd];
    rewrite ?finally_ui; try done.
  destruct (body_imageUrls body); cbn [snd]; by rewrite finally_ui.
Qed.

Lemma loop_success maxRetries baseDelay random env prompt opts remaining :
  forall currentAttempt st result,
  fst (fst (ErrorHandler.loop (generateFn env prompt opts) maxRetries true
              baseDelay random remaining currentAttempt st))
    = ErrorHandler.Resolved result ->
  let st' := snd (ErrorHandler.loop (generateFn env prompt opts) maxRetries true
                    baseDelay random remaining currentAttempt st) in
  (exists t, history st' !! normalize prompt = Some (mkEntry result t)) /\
  ui_prompt (ui st') = ui_prompt (ui st).
Proof.
  induction remaining as [|r IH]; intros currentAttempt st result; simpl;
    [discriminate |].
  pose proof (generateFn_success env prompt opts st) as Hok.
  pose proof (generateFn_prompt env prompt opts st) as Hprompt.
  destruct (generateFn env prompt opts st) as [[e|v] st1]; simpl in *.
  - split_retry; [discriminate |].
    specialize (IH (S currentAttempt) st1 result).
    destruct (ErrorHandler.loop (generateFn env prompt opts) maxRetries true
                baseDelay random r (S currentAttempt) st1) as [[out evs] st2].
    simpl in *. intros Hout. destruct (IH Hout) as [Hcached Hp].
    split; [exact Hcached | by rewrite Hp].
  - intros [= <-]. split; [eexists; exact (Hok v st1 eq_refl) | exact Hprompt].
Qed.
End GenerateThenHit.

(** X18.  A generation that succeeds is served from the cache afterwards:
    its result is stored under the normalized key of its prompt, the prompt
    (which has passed validation) becomes the current prompt, and any
    later call for a prompt that passes validation and has the same key
    (in particular a call without an override), made within 300000 ms of
    the storing and without [forceRegenerate], returns that very result
    without calling [fetch]. *)
Theorem generated_result_is_cached (maxRetries : nat) (baseDelay : Q)
    (random : nat -> Q) (env : ImageGeneration.Env)
    (promptOverride : option string) (opts : ImageGeneration.GenOptions)
    (now : Z) (st : ImageGeneration.HookState)
    (result : ImageGeneration.GenerationResult) :
  let prompt := ImageGeneration.promptToUse promptOverride st in
  let r := ImageGeneration.generateImages maxRetries baseDelay random env
             promptOverride opts now st in
  fst (fst r) = ImageGeneration.RetExecuted (ErrorHandler.Resolved result) ->
  ImageGeneration.validatePrompt prompt = None /\
  ImageGeneration.promptToUse None (snd r) = prompt /\
  exists t,
    ImageGeneration.history (snd r) !! ImageGeneration.normalize prompt
      = Some (ImageGeneration.mkEntry result t) /\
    forall maxRetries' baseDelay' random' env' promptOverride' opts' now',
      ImageGeneration.validatePrompt
        (ImageGeneration.promptToUse promptOverride' (snd r)) = None ->
      ImageGeneration.normalize (ImageGeneration.promptToUse promptOverride' (snd r))
        = ImageGeneration.normalize prompt ->
      ImageGeneration.forceRegenerate opts' = false ->
      now' - t < 300000 ->
      let r' := ImageGeneration.generateImages maxRetries' baseDelay' random' env'
                  promptOverride' opts' now' (snd r) in
      fst (fst r') = ImageGeneration.RetCached (ImageGeneration.mkEntry result t) /\
      ImageGeneration.fetches (snd r') = ImageGeneration.fetches (snd r).
Proof.
  intros prompt r Hret.
  destruct (ImageGeneration.precheck promptOverride opts now st)
    as [[ret|p] st0] eqn:Hpre.
  { subst r. unfold ImageGeneration.generateImages in Hret. rewrite Hpre in Hret.
    simpl in Hret. subst ret. exfalso. revert Hpre.
    unfold ImageGeneration.precheck.
    destruct (ImageGeneration.validatePrompt _); [discriminate |].
    destruct (ImageGeneration.getCachedResult _ now _);
      [destruct (ImageGeneration.forceRegenerate opts) |]; discriminate. }
  assert (p = prompt /\ ImageGeneration.validatePrompt prompt = None /\
          ImageGeneration.ui_prompt (ImageGeneration.ui st0) = prompt)
    as (-> & Hvalid & Hui).
  { revert Hpre. unfold ImageGeneration.precheck. fold prompt.
    destruct (ImageGeneration.validatePrompt prompt); [discriminate |].
    destruct (ImageGeneration.getCachedResult prompt now _);
      [destruct (ImageGeneration.forceRegenerate opts) |]; simpl;
      intros [= <- <-]; done. }
  pose proof (loop_success maxRetries baseDelay random env prompt opts
                (S maxRetries) 0%nat st0 result) as Hloop.
  assert (fst (fst r) = ImageGeneration.RetExecuted
            (fst (fst (ErrorHandler.executeWithErrorHandling
                         (ImageGeneration.generateFn env prompt opts) maxRetries
                         true baseDelay random st0))) /\
          ImageGeneration.history (snd r) = ImageGeneration.history
            (snd (ErrorHandler.executeWithErrorHandling
                    (ImageGeneration.generateFn env prompt opts) maxRetries
                    true baseDelay random st0)) /\
          ImageGeneration.ui_prompt (ImageGeneration.ui (snd r)) =
          ImageGeneration.ui_prompt (ImageGeneration.ui
            (snd (ErrorHandler.executeWithErrorHandling
                    (ImageGeneration.generateFn env prompt opts) maxRetries
                    true baseDelay random st0)))) as (Hr & Hh & Hp).
  { subst r. unfold ImageGeneration.generateImages. rewrite Hpre.
    destruct (ErrorHandler.executeWithErrorHandling _ _ _ _ _ _) as [[out evs] st2].
    by destruct out. }
  rewrite Hr in Hret. injection Hret as Hret.
  unfold ErrorHandler.executeWithErrorHandling in *.
  destruct (Hloop Hret) as [[t Hcached] Hprompt].
  split; [exact Hvalid |]. split.
  { unfold ImageGeneration.promptToUse at 1. simpl. by rewrite Hp, Hprompt. }
  exists t. rewrite Hh. split; [exact Hcached |].
  intros maxRetries' baseDelay' random' env' promptOverride' opts' now'
    Hvalid' Hkey Hforce Hfresh.
  unfold ImageGeneration.generateImages, ImageGeneration.precheck.
  rewrite Hvalid'.
  rewrite (getCachedResult_fresh _ now' _ (ImageGeneration.mkEntry result t));
    [| by rewrite Hkey, Hh | done].
  rewrite Hforce. by simpl.
Qed.

Lemma generated_result_is_cached_witness :
  let r := ImageGeneration.generateImages 3 1000%Q (fun _ => 0%Q) Scenario.one_image
             (Some "A dog"%string) (ImageGeneration.mkGenOptions false) 1000
             ImageGeneration.initialState in
  ImageGeneration.promptToUse None (snd r) = "A dog"%string /\
  ImageGeneration.fetches
    (snd (ImageGeneration.generateImages 3 1000%Q (fun _ => 0%Q) Scenario.one_image
            (Some " a DOG "%string) (ImageGeneration.mkGenOptions false) 6000 (snd r)))
  = ImageGeneration.fetches (snd r).
Proof.
  intros r.
  destruct (generated_result_is_cached 3 1000%Q (fun _ => 0%Q) Scenario.one_image
              (Some "A dog"%string) (ImageGeneration.mkGenOptions false) 1000
              ImageGeneration.initialState
              (ImageGeneration.mkResult ["https://img/new"%string]
                 (ImageGeneration.MetaDefault "A dog" 5000)
                 (ImageGeneration.IdGen 5000))
              ltac:(vm_compute; reflexivity))
    as (_ & Hprompt & t & Hcached & Hhit).
  split; [exact Hprompt |].
  assert (t = 5000) as ->.
  { vm_compute in Hcached. congruence. }
  destruct (Hhit 3%nat 1000%Q (fun _ => 0%Q) Scenario.one_image
              (Some " a DOG "%string) (ImageGeneration.mkGenOptions false) 6000
              ltac:(vm_compute; reflexivity) ltac:(vm_compute; reflexivity)
              eq_refl ltac:(lia)) as [_ Hf].
  exact Hf.
Defined.

(** ** The other actions of the hook *)

Section Pending.
Import Js ImageGeneration.

Lemma generateFn_pending env prompt opts st :
  let st' := snd (generateFn env prompt opts st) in
  currentRequest st' = None /\
  nextController st' = S (nextController st) /\
  aborted st' = match currentRequest st with
                | Some previous => aborted st ++ [previous]
                | None => aborted st
                end.
Proof.
  unfold generateFn. destruct (env (List.length (fetches st))) as [reply now].
  unfold generateFn_start, generateFn_finish, finally.
  destruct reply as [e0|status statusText errorField|body]; cbn;
    rewrite ?Nat.eqb_refl; try done.
  destruct (body_imageUrls body); cbn; by rewrite ?Nat.eqb_refl.
Qed.

Lemma loop_pending maxRetries baseDelay random env prompt opts remaining :
  forall currentAttempt st,
  currentRequest st = None ->
  let r := ErrorHandler.loop (generateFn env prompt opts) maxRetries true
             baseDelay random remaining currentAttempt st in
  currentRequest (snd r) = None /\ aborted (snd r) = aborted st /\
  nextController (snd r)
    = (nextController st + ErrorHandler.invocations (ErrorHandler.hook_events r))%nat.
Proof.
  induction remaining as [|r IH]; intros currentAttempt st Hnone; simpl.
  - unfold ErrorHandler.hook_events, ErrorHandler.invocations. simpl.
    split_and!; [done | done | lia].
  - pose proof (generateFn_pending env prompt opts st) as (Hc & Hn & Ha).
    rewrite Hnone in Ha.
    destruct (generateFn env prompt opts st) as [[e|v] st1]; simpl in *.
    + split_retry.
      * simpl. split_and!; [done | done |]. rewrite Hn. count_calls.
      * specialize (IH (S currentAttempt) st1 Hc).
        destruct (ErrorHandler.loop (generateFn env prompt opts) maxRetries true
                    baseDelay random r (S currentAttempt) st1) as [[out evs] st2].
        unfold ErrorHandler.hook_events in *. simpl in *.
        destruct IH as (Hc2 & Ha2 & Hn2).
        split_and!; [done | by rewrite Ha2 |]. rewrite Hn2, Hn. count_calls.
    + split_and!; [done | done |]. rewrite Hn. count_calls.
Qed.
End Pending.

(** X19.  A call of [generateImages] made while no request is pending
    aborts nothing and leaves no request pending when it settles, whether
    the generation succeeds, fails or is answered from the cache; it
    creates one abort controller per call of [fetch]. *)
Theorem call_leaves_nothing_pending (maxRetries : nat) (baseDelay : Q)
    (random : nat -> Q) (env : ImageGeneration.Env)
    (promptOverride : option string) (opts : ImageGeneration.GenOptions)
    (now : Z) (st : ImageGeneration.HookState) :
  ImageGeneration.currentRequest st = None ->
  let r := ImageGeneration.generateImages maxRetries baseDelay random env
             promptOverride opts now st in
  ImageGeneration.currentRequest (snd r) = None /\
  ImageGeneration.aborted (snd r) = ImageGeneration.aborted st /\
  (ImageGeneration.nextController (snd r) + List.length (ImageGeneration.fetches st)
   = ImageGeneration.nextController st + List.length (ImageGeneration.fetches (snd r)))%nat.
Proof.
  intros Hnone r. subst r. unfold ImageGeneration.generateImages.
  destruct (ImageGeneration.precheck promptOverride opts now st)
    as [[ret|prompt] st0] eqn:Hpre.
  - simpl. revert Hpre. unfold ImageGeneration.precheck.
    destruct (ImageGeneration.validatePrompt _); [by intros [= _ <-] |].
    destruct (ImageGeneration.getCachedResult _ now _);
      [destruct (ImageGeneration.forceRegenerate opts) |]; simpl;
      intros [= _ <-]; try done.
  - assert (ImageGeneration.currentRequest st0 = None /\
            ImageGeneration.aborted st0 = ImageGeneration.aborted st /\
            ImageGeneration.nextController st0 = ImageGeneration.nextController st /\
            ImageGeneration.fetches st0 = ImageGeneration.fetches st)
      as (Hc0 & Ha0 & Hn0 & Hf0).
    { revert Hpre. unfold ImageGeneration.precheck.
      destruct (ImageGeneration.validatePrompt _); [discriminate |].
      destruct (ImageGeneration.getCachedResult _ now _);
        [destruct (ImageGeneration.forceRegenerate opts) |]; simpl;
        intros [= _ <-]; done. }
    unfold ErrorHandler.executeWithErrorHandling.
    pose proof (loop_pending maxRetries baseDelay random env prompt opts
                  (S maxRetries) 0%nat st0 Hc0) as (Hc & Ha & Hn).
    pose proof (loop_fetches maxRetries baseDelay random env prompt opts
                  (S maxRetries) 0%nat st0) as Hf.
    destruct (ErrorHandler.loop (ImageGeneration.generateFn env prompt opts)
                maxRetries true baseDelay random (S maxRetries) 0%nat st0)
      as [[out evs] st2].
    unfold ErrorHandler.hook_events in *. simpl in Hc, Ha, Hn, Hf.
    rewrite Hf0 in Hf. rewrite Hn0 in Hn.
    destruct out; simpl; split_and!; try done; try congruence; lia.
Qed.

Lemma call_leaves_nothing_pending_witness :
  let r := ImageGeneration.generateImages 3 1000%Q (fun _ => 0%Q) Scenario.one_image
             (Some "A dog"%string) (ImageGeneration.mkGenOptions false) 1000
             ImageGeneration.initialState in
  ImageGeneration.currentRequest (snd r) = None /\
  ImageGeneration.aborted (snd r) = [].
Proof.
  intros r.
  destruct (call_leaves_nothing_pending 3 1000%Q (fun _ => 0%Q) Scenario.one_image
              (Some "A dog"%string) (ImageGeneration.mkGenOptions false) 1000
              ImageGeneration.initialState eq_refl) as (Hc & Ha & _).
  split; [exact Hc | exact Ha].
Defined.

Section Forget.
Import ImageGeneration HookOps.

Lemma filterIndex_before index images i :
  index < i -> filterIndex i index images = images.
Proof.
  revert i. induction images as [|x l IH]; intros i Hlt; simpl; [done |].
  destruct (Z.eqb_spec i index); [lia |]. f_equal. apply IH. lia.
Qed.

Lemma filterIndex_spec index images : forall i,
  i <= index ->
  filterIndex i index images =
    take (Z.to_nat (index - i)) images ++ drop (S (Z.to_nat (index - i))) images.
Proof.
  induction images as [|image rest IH]; intros i Hle; simpl.
  - by rewrite take_nil.
  - destruct (Z.eqb_spec i index) as [->|Hne].
    + rewrite Z.sub_diag. simpl. rewrite drop_0.
      apply filterIndex_before. lia.
    + rewrite (IH (i + 1)) by lia.
      replace (Z.to_nat (index - i)) with (S (Z.to_nat (index - (i + 1)))) by lia.
      reflexivity.
Qed.
End Forget.

(** X20.  [clearImages] and [reset] forget the cache: afterwards no prompt
    has a cached result, [getStats] reports an empty cache and no image,
    and a call for a valid prompt calls [fetch] even if its result was
    cached before; [reset] also aborts the pending request, if any. *)
Theorem clearing_forgets_cache (maxRetries : nat) (baseDelay : Q)
    (random : nat -> Q) (env : ImageGeneration.Env) (prompt : string)
    (opts : ImageGeneration.GenOptions) (now : Z) (st : ImageGeneration.HookState) :
  ImageGeneration.validatePrompt prompt = None ->
  (forall st', st' = HookOps.clearImages st \/ st' = HookOps.reset st ->
     (forall p t, ImageGeneration.getCachedResult p t (ImageGeneration.history st')
                  = None) /\
     HookOps.cacheSize (HookOps.getStats st') = 0%nat /\
     HookOps.totalImages (HookOps.getStats st') = 0%nat /\
     (List.length (ImageGeneration.fetches st') <
      List.length (ImageGeneration.fetches
                     (snd (ImageGeneration.generateImages maxRetries baseDelay
                             random env (Some prompt) opts now st'))))%nat) /\
  ImageGeneration.currentRequest (HookOps.reset st) = None /\
  (forall c, ImageGeneration.currentRequest st = Some c ->
             c ∈ ImageGeneration.aborted (HookOps.reset st)).
Proof.
  intros Hvalid. split; [| split].
  - intros st' Hst'.
    assert (ImageGeneration.history st' = ∅ /\
            ImageGeneration.ui_images (ImageGeneration.ui st') = []) as [Hh Hi]
      by (destruct Hst' as [-> | ->]; by split).
    assert (forall p t, ImageGeneration.getCachedResult p t
                          (ImageGeneration.history st') = None) as Hmiss.
    { intros p t. unfold ImageGeneration.getCachedResult.
      by rewrite Hh, lookup_empty. }
    split_and!; [exact Hmiss | | |].
    + unfold HookOps.getStats. simpl. by rewrite Hh, map_size_empty.
    + unfold HookOps.getStats. simpl. by rewrite Hi.
    + apply generateImages_fetches.
      * unfold ImageGeneration.promptToUse.
        by rewrite (valid_prompt_truthy prompt Hvalid).
      * left. apply Hmiss.
  - reflexivity.
  - intros c Hc. unfold HookOps.reset, HookOps.cancelGeneration. simpl.
    rewrite Hc. set_solver.
Qed.

Lemma clearing_forgets_cache_witness :
  (List.length (ImageGeneration.fetches (HookOps.clearImages Scenario.cat_cached)) <
   List.length (ImageGeneration.fetches
                  (snd (ImageGeneration.generateImages 3 1000%Q (fun _ => 0%Q)
                          Scenario.one_image (Some "A cat"%string)
                          (ImageGeneration.mkGenOptions false) 1000
                          (HookOps.clearImages Scenario.cat_cached)))))%nat.
Proof.
  destruct (clearing_forgets_cache 3 1000%Q (fun _ => 0%Q) Scenario.one_image
              "A cat"%string (ImageGeneration.mkGenOptions false) 1000
              Scenario.cat_cached eq_refl) as (Hall & _ & _).
  destruct (Hall (HookOps.clearImages Scenario.cat_cached) (or_introl eq_refl))
    as (_ & _ & _ & Hfetch).
  exact Hfetch.
Defined.

(** X21.  [removeImage] removes the image at the given index and no other:
    for an index within the list the images before and after it are kept
    in order, for any other index (negative or past the end) the list is
    unchanged; removing the index just past the old end after [addImages]
    of one image gives the old list back. *)
Theorem remove_image_at_index (index : Z) (image : string)
    (st : ImageGeneration.HookState) :
  let images := ImageGeneration.ui_images (ImageGeneration.ui st) in
  let removed := ImageGeneration.ui_images
                   (ImageGeneration.ui (HookOps.removeImage index st)) in
  (0 <= index < Z.of_nat (List.length images) ->
   removed = take (Z.to_nat index) images ++ drop (S (Z.to_nat index)) images /\
   S (List.length removed) = List.length images) /\
  (index < 0 \/ Z.of_nat (List.length images) <= index -> removed = images) /\
  ImageGeneration.ui_images
    (ImageGeneration.ui
       (HookOps.removeImage (Z.of_nat (List.length images))
          (HookOps.addImages (Some [image]) st))) = images.
Proof.
  intros images removed. subst removed. unfold HookOps.removeImage. simpl.
  fold images. split_and!.
  - intros [Hlo Hhi]. rewrite (filterIndex_spec index images 0 Hlo), Z.sub_0_r.
    split; [reflexivity |].
    rewrite List.length_app, length_take, length_drop. lia.
  - intros [Hneg | Hpast].
    + by apply filterIndex_before.
    + rewrite (filterIndex_spec index images 0 ltac:(lia)), Z.sub_0_r.
      rewrite take_ge, drop_ge by lia. by rewrite app_nil_r.
  - rewrite filterIndex_spec by lia. rewrite Z.sub_0_r.
    rewrite Nat2Z.id, take_app_length.
    rewrite drop_ge by (rewrite List.length_app; simpl; lia).
    by rewrite app_nil_r.
Qed.

Lemma remove_image_at_index_witness :
  ImageGeneration.ui_images
    (ImageGeneration.ui
       (HookOps.removeImage 1
          (HookOps.addImages (Some ["a"; "b"; "c"]%string)
             ImageGeneration.initialState)))
  = ["a"; "c"]%string.
Proof.
  destruct (remove_image_at_index 1 "x"%string
              (HookOps.addImages (Some ["a"; "b"; "c"]%string)
                 ImageGeneration.initialState)) as (Hin & _ & _).
  destruct Hin as [Hremoved _]; [simpl; lia |].
  exact Hremoved.
Defined.

(** ** The retry loop of the current handler *)

Lemma delays_cons attempt k :
  ServerRetry.delays attempt (S k)
  = ServerRetry.sleepBefore attempt ++ ServerRetry.delays (S attempt) k.
Proof. reflexivity. Qed.

Section ServerLoop.
Import Js GenerateImage.
Variable env : Env.
Variable prompt : string.
Variable maxRetries : nat.
Variable timeout : Z.
Variable options : Options.
Variable imagesPerGeneration : Z.

Let n := Z.to_nat (numImages options imagesPerGeneration).

Lemma seedFor_calls index w :
  calls (snd (seedFor env options index w)) = calls w.
Proof. unfold seedFor, randomSeed. by destruct (opt_seed options). Qed.

Lemma fanOut_calls_length inputFor wrap k : forall index w,
  List.length (calls (snd (fanOut env (seedFor env options) inputFor wrap k index w)))
  = (List.length (calls w) + k)%nat.
Proof.
  induction k as [|k IH]; intros index w; simpl; [lia |].
  pose proof (seedFor_calls index w) as Hseed.
  destruct (seedFor env options index w) as [sd w1]. simpl in Hseed.
  specialize (IH (index + 1)
    {| calls := calls w1 ++ [inputFor sd]; draws := draws w1 |}).
  destruct (fanOut env _ inputFor wrap k (index + 1) _) as [ps w3].
  simpl in *. rewrite IH, List.length_app, Hseed. simpl. lia.
Qed.

Lemma attemptFanOut_shape w :
  List.length (fst (attemptFanOut env prompt timeout options imagesPerGeneration w)) = n /\
  List.length (calls (snd (attemptFanOut env prompt timeout options
                             imagesPerGeneration w)))
  = (List.length (calls w) + n)%nat.
Proof.
  unfold attemptFanOut. split; [apply fanOut_length | apply fanOut_calls_length].
Qed.

Lemma extractUrl_nonempty result u : extractUrl result = Some u -> u <> EmptyString.
Proof.
  unfold extractUrl. destruct result as [r|]; [| discriminate].
  destruct (images r) as [[|img rest]|]; try discriminate.
  destruct (url img) as [[|c s]|]; simpl; try discriminate.
  by intros [= <-].
Qed.

Lemma imageUrls_shape results :
  (List.length (imageUrls results) <= List.length results)%nat /\
  Forall (fun u => u <> EmptyString) (imageUrls results).
Proof.
  unfold imageUrls. induction results as [|r rest [IHlen IHall]]; simpl.
  - split; [lia | constructor].
  - destruct (extractUrl r) as [u|] eqn:Hu; simpl.
    + split; [change (list_omap _ _ extractUrl rest) with (omap extractUrl rest); lia |].
      constructor; [by eapply extractUrl_nonempty | exact IHall].
    + split; [change (list_omap _ _ extractUrl rest) with (omap extractUrl rest); lia |].
      exact IHall.
Qed.

Lemma attemptOutcome_urls ps urls :
  attemptOutcome ps = inr urls ->
  (1 <= List.length urls <= List.length ps)%nat /\
  Forall (fun u => u <> EmptyString) urls.
Proof.
  unfold attemptOutcome, promise_all.
  destruct (first_rejection ps) as [[t e]|]; simpl; [discriminate |].
  destruct (Nat.eqb_spec (List.length (imageUrls (fulfilled_value <$> ps))) 0)
    as [|Hpos]; [discriminate |].
  intros [= <-].
  destruct (imageUrls_shape (fulfilled_value <$> ps)) as [Hlen Hall].
  rewrite length_fmap in Hlen. split; [lia | exact Hall].
Qed.

(** The shape of every run of the loop: [k] fan-outs of [n] calls each,
    with the delays of the schedule in between. *)
Lemma server_loop_shape remaining : forall attempt lastError w,
  let r := loop env prompt maxRetries timeout options imagesPerGeneration
             remaining attempt lastError w in
  exists k, (k <= remaining)%nat /\ (0 < remaining -> 0 < k)%nat /\
    snd (fst r) = ServerRetry.delays attempt k /\
    List.length (calls (snd r)) = (List.length (calls w) + k * n)%nat /\
    forall urls, fst (fst r) = inr urls ->
      (1 <= List.length urls <= n)%nat /\
      Forall (fun u => u <> EmptyString) urls.
Proof.
  induction remaining as [|remaining IH]; intros attempt lastError w; simpl.
  - exists 0%nat. split_and!; [lia | lia | done | lia | discriminate].
  - pose proof (attemptFanOut_shape w) as [Hps Hcalls].
    destruct (attemptFanOut env prompt timeout options imagesPerGeneration w)
      as [ps w1]. simpl in Hps, Hcalls.
    fold (ServerRetry.sleepBefore attempt).
    assert (ServerRetry.sleepBefore attempt = ServerRetry.delays attempt 1) as Hone
      by (unfold ServerRetry.delays; simpl; by rewrite app_nil_r).
    assert (forall out : option Thrown + list string,
              (forall urls, out = inr urls -> attemptOutcome ps = inr urls) ->
              exists k, (k <= S remaining)%nat /\ (0 < S remaining -> 0 < k)%nat /\
                ServerRetry.sleepBefore attempt = ServerRetry.delays attempt k /\
                List.length (calls w1) = (List.length (calls w) + k * n)%nat /\
                forall urls, out = inr urls ->
                  (1 <= List.length urls <= n)%nat /\
                  Forall (fun u => u <> EmptyString) urls) as Hstop.
    { intros out Hout. exists 1%nat.
      split_and!; [lia | lia | exact Hone | lia |].
      intros urls Hurls. rewrite <- Hps.
      apply attemptOutcome_urls. by apply Hout. }
    destruct (attemptOutcome ps) as [e|urls] eqn:Hattempt; simpl.
    + destruct (isNonRetryableError e) as [[|]|]; simpl;
        try (apply Hstop; intros urls; discriminate).
      destruct (attempt =? maxRetries)%nat; simpl;
        [apply Hstop; intros urls; discriminate |].
      specialize (IH (S attempt) (Some e) w1).
      destruct (loop env prompt maxRetries timeout options imagesPerGeneration
                  remaining (S attempt) (Some e) w1) as [[out delays] w2].
      simpl in *. destruct IH as (k & Hk & _ & Hdelays & Hcount & Hurls).
      exists (S k). split_and!; [lia | lia | | lia | exact Hurls].
      by rewrite delays_cons, Hdelays.
    + apply Hstop. by intros urls' [= <-].
Qed.

End ServerLoop.

Lemma sleepBefore_bounds attempt :
  Forall (fun d => 1000 <= d <= 5000) (ServerRetry.sleepBefore attempt).
Proof.
  unfold ServerRetry.sleepBefore. destruct (Nat.ltb_spec 0 attempt); [| constructor].
  constructor; [| constructor].
  assert (0 < 2 ^ (Z.of_nat attempt - 1)) by (apply Z.pow_pos_nonneg; lia).
  lia.
Qed.

Lemma delays_bounds attempt k :
  Forall (fun d => 1000 <= d <= 5000) (ServerRetry.delays attempt k).
Proof.
  revert attempt. induction k as [|k IH]; intros attempt; [constructor |].
  rewrite delays_cons. apply Forall_app. split; [apply sleepBefore_bounds | apply IH].
Qed.

Lemma delays_length k : List.length (ServerRetry.delays 0 (S k)) = k.
Proof.
  rewrite delays_cons. simpl.
  assert (forall attempt, List.length (ServerRetry.delays (S attempt) k) = k) as H.
  { induction k as [|k IH]; intros attempt; [done |].
    rewrite delays_cons, List.length_app, IH. reflexivity. }
  apply H.
Qed.


Section Timeouts.
Import Js GenerateImage.
Variable env : Env.
Variable prompt : string.
Variable maxRetries : nat.
Variable timeout : Z.
Variable options : Options.
Variable imagesPerGeneration : Z.
Hypothesis Hlate : ServerRetry.never_in_time env timeout.

Lemma fanOut_timed_out seedFor inputFor k : forall index w,
  fst (fanOut env seedFor inputFor (race_timeout timeout) k index w)
  = repeat (ServerRetry.timedOut timeout) k.
Proof.
  induction k as [|k IH]; intros index w; simpl; [done |].
  destruct (seedFor index w) as [sd w1].
  specialize (IH (index + 1)
    {| calls := calls w1 ++ [inputFor sd]; draws := draws w1 |}).
  destruct (fanOut env seedFor inputFor (race_timeout timeout) k (index + 1) _)
    as [ps w3].
  simpl in *. rewrite IH. f_equal.
  unfold race_timeout.
  specialize (Hlate (List.length (calls w1)) (inputFor sd)).
  by destruct (Z.ltb_spec (settledAt (fal_run env (List.length (calls w1)) (inputFor sd)))
                 timeout); [lia |].
Qed.

Lemma first_rejection_timed_out k :
  first_rejection (repeat (ServerRetry.timedOut timeout) (S k))
  = Some (timeout, ThrownError (newError "Request timeout")).
Proof.
  induction k as [|k IH]; [reflexivity |].
  change (repeat (ServerRetry.timedOut timeout) (S (S k)))
    with (ServerRetry.timedOut timeout :: repeat (ServerRetry.timedOut timeout) (S k)).
  cbn [first_rejection]. rewrite IH. simpl.
  by rewrite Z.ltb_irrefl.
Qed.

Lemma attempt_timed_out w :
  (0 < Z.to_nat (numImages options imagesPerGeneration))%nat ->
  attemptOutcome (fst (attemptFanOut env prompt timeout options imagesPerGeneration w))
  = inl (ThrownError (newError "Request timeout")).
Proof.
  intros Hn. unfold attemptFanOut. rewrite fanOut_timed_out.
  destruct (Z.to_nat (numImages options imagesPerGeneration)) as [|k]; [lia |].
  unfold attemptOutcome, promise_all. by rewrite first_rejection_timed_out.
Qed.

Lemma loop_timed_out remaining : forall attempt lastError w,
  (0 < Z.to_nat (numImages options imagesPerGeneration))%nat ->
  (0 < remaining)%nat -> (attempt + remaining = S maxRetries)%nat ->
  let r := loop env prompt maxRetries timeout options imagesPerGeneration
             remaining attempt lastError w in
  fst (fst r) = inl (Some (ThrownError (newError "Request timeout"))) /\
  snd (fst r) = ServerRetry.delays attempt remaining /\
  List.length (calls (snd r))
  = (List.length (calls w)
     + remaining * Z.to_nat (numImages options imagesPerGeneration))%nat.
Proof.
  induction remaining as [|remaining IH]; intros attempt lastError w Hn Hpos Hsum;
    [lia |].
  cbn [loop]. fold (ServerRetry.sleepBefore attempt).
  pose proof (attempt_timed_out w Hn) as Hout.
  pose proof (attemptFanOut_shape env prompt timeout options imagesPerGeneration w)
    as [_ Hcalls].
  destruct (attemptFanOut env prompt timeout options imagesPerGeneration w)
    as [ps w1]. simpl in Hout, Hcalls. rewrite Hout.
  change (isNonRetryableError (ThrownError (newError "Request timeout")))
    with (Some false).
  cbv iota. destruct (Nat.eqb_spec attempt maxRetries) as [->|Hne].
  - assert (remaining = 0%nat) as -> by lia. simpl.
    split_and!; [done | | lia].
    unfold ServerRetry.delays. simpl. by rewrite app_nil_r.
  - specialize (IH (S attempt) (Some (ThrownError (newError "Request timeout"))) w1
                   Hn ltac:(lia) ltac:(lia)).
    destruct (loop env prompt maxRetries timeout options imagesPerGeneration
                remaining (S attempt) _ w1) as [[out delays] w2].
    simpl in *. destruct IH as (-> & -> & ->).
    split_and!; [done | by rewrite delays_cons | lia].
Qed.
End Timeouts.

(** ** The validators of the server *)

Section ValidationFacts.
Import GenerateImage Validation.

Lemma validatePrompt_data maxPromptLength v data :
  validatePrompt maxPromptLength v = inr data ->
  exists s, v = JsStr s /\ data = JsString.trim s /\
    (0 < String.length data)%nat /\
    Z.of_nat (String.length data) <= maxPromptLength /\
    inappropriate data = false.
Proof.
  unfold validatePrompt. destruct (falsy v); [discriminate |].
  destruct v as [| | |q|s|]; try discriminate.
  destruct (Nat.eqb_spec (String.length (JsString.trim s)) 0); [discriminate |].
  destruct (Z.ltb_spec maxPromptLength (Z.of_nat (String.length (JsString.trim s))));
    [discriminate |].
  destruct (inappropriate (JsString.trim s)) eqn:Hclean; [discriminate |].
  intros [= <-]. exists s. split_and!; try done. lia.
Qed.

(** Validating the validated prompt again changes nothing. *)
Lemma validatePrompt_again maxPromptLength v data :
  validatePrompt maxPromptLength v = inr data ->
  validatePrompt maxPromptLength (JsStr data) = inr data.
Proof.
  intros Hvalid.
  destruct (validatePrompt_data _ _ _ Hvalid) as (s & -> & -> & Hlen & Hmax & Hclean).
  unfold validatePrompt, falsy. rewrite trim_idempotent.
  destruct (Nat.eqb_spec (String.length (JsString.trim s)) 0); [lia |].
  destruct (Z.ltb_spec maxPromptLength (Z.of_nat (String.length (JsString.trim s))));
    [lia |].
  by rewrite Hclean.
Qed.

Lemma validateSeed_bounds seed s : validateSeed seed = inr (Some s) -> 0 <= s.
Proof.
  unfold validateSeed.
  destruct seed; try discriminate;
    (destruct (isInteger _) as [z|]; [| discriminate]);
    (destruct (Z.ltb_spec z 0); [discriminate | intros [= <-]; lia]).
Qed.

Lemma validateNumImages_bounds num_images k :
  validateNumImages num_images = inr (Some k) -> 1 <= k <= 10.
Proof.
  unfold validateNumImages.
  destruct num_images; try discriminate;
    (destruct (isInteger _) as [z|]; [| discriminate]);
    (destruct (Z.ltb_spec z 1); [discriminate |]);
    (destruct (Z.ltb_spec 10 z); [discriminate | intros [= <-]; lia]).
Qed.

Lemma validateImageSize_bounds image_size sz :
  validateImageSize image_size = inr (Some sz) ->
  256 <= width sz <= 2048 /\ 256 <= height sz <= 2048.
Proof.
  assert (forall w h,
    match isInteger w, isInteger h with
    | Some w, Some h =>
        if (w <? 256) || (2048 <? w) || (h <? 256) || (2048 <? h)
        then inl (mkValidationError
                    "Image dimensions must be between 256 and 2048 pixels"
                    (Some "options.image_size"%string) "INVALID_SIZE")
        else inr (Some (mkImageSize w h))
    | _, _ => inl (mkValidationError "Image dimensions must be integers"
                     (Some "options.image_size"%string) "INVALID_DIMENSIONS")
    end = inr (Some sz) ->
    256 <= width sz <= 2048 /\ 256 <= height sz <= 2048) as Hdim.
  { intros w h. destruct (isInteger w) as [a|]; [| discriminate].
    destruct (isInteger h) as [b|]; [| discriminate].
    destruct (Z.ltb_spec a 256); [discriminate |].
    destruct (Z.ltb_spec 2048 a); [discriminate |].
    destruct (Z.ltb_spec b 256); [discriminate |].
    destruct (Z.ltb_spec 2048 b); [discriminate |].
    simpl. intros [= <-]. simpl. lia. }
  unfold validateImageSize. destruct image_size as [| |w h]; [discriminate | |].
  - apply Hdim.
  - apply Hdim.
Qed.

(** What a valid request has been checked for. *)
Lemma valid_request maxPromptLength requestBody prompt options :
  validateGenerateImageRequest maxPromptLength requestBody
    = Some (Valid prompt options) ->
  validatePrompt maxPromptLength (JsStr prompt) = inr prompt /\
  JsString.trim prompt = prompt /\
  (0 < String.length prompt)%nat /\
  Z.of_nat (String.length prompt) <= maxPromptLength /\
  inappropriate prompt = false /\
  (forall s, opt_seed options = Some s -> 0 <= s) /\
  (forall k, opt_num_images options = Some k -> 1 <= k <= 10) /\
  (forall sz, opt_image_size options = Some sz ->
     256 <= width sz <= 2048 /\ 256 <= height sz <= 2048).
Proof.
  unfold validateGenerateImageRequest.
  destruct requestBody as [|p o]; [discriminate |].
  destruct (validatePrompt maxPromptLength p) as [e|data] eqn:Hprompt;
    [discriminate |].
  intros Hvalid.
  assert (prompt = data /\
          (forall s, opt_seed options = Some s -> 0 <= s) /\
          (forall k, opt_num_images options = Some k -> 1 <= k <= 10) /\
          (forall sz, opt_image_size options = Some sz ->
             256 <= width sz <= 2048 /\ 256 <= height sz <= 2048))
    as (-> & Hseed & Hcount & Hsize).
  { destruct o as [| |[|]|seed num_images image_size]; try discriminate.
    - injection Hvalid as <- <-. by split_and!.
    - injection Hvalid as <- <-. by split_and!.
    - destruct (validateSeed seed) as [e|seed'] eqn:Hs; [discriminate |].
      destruct (validateNumImages num_images) as [e|count'] eqn:Hn; [discriminate |].
      destruct (validateImageSize image_size) as [e|size'] eqn:Hz; [discriminate |].
      injection Hvalid as <- <-. simpl. split_and!; [done | | |].
      + intros s ->. by eapply validateSeed_bounds.
      + intros k ->. by eapply validateNumImages_bounds.
      + intros sz ->. by eapply validateImageSize_bounds. }
  pose proof (validatePrompt_again _ _ _ Hprompt) as Hagain.
  destruct (validatePrompt_data _ _ _ Hprompt) as (s & _ & Htrim & Hlen & Hmax & Hclean).
  split_and!; try done.
  rewrite Htrim. apply trim_idempotent.
Qed.

(** A valid request asks for between 1 and 10 images. *)
Lemma valid_request_images maxPromptLength requestBody prompt options :
  validateGenerateImageRequest maxPromptLength requestBody
    = Some (Valid prompt options) ->
  1 <= numImages options Config.app_imagesPerGeneration <= 10.
Proof.
  intros Hvalid.
  destruct (valid_request _ _ _ _ Hvalid) as (_ & _ & _ & _ & _ & _ & Hcount & _).
  unfold numImages, RateLimiter.js_or.
  destruct (opt_num_images options) as [k|]; [| by vm_compute].
  specialize (Hcount k eq_refl).
  destruct (Z.eqb_spec k 0); [lia | lia].
Qed.
End ValidationFacts.

(** X23.  What the server-side validator lets through: a request that
    [validateGenerateImageRequest] accepts has a prompt that is trimmed,
    not empty, at most [maxPromptLength] characters long and free of the
    filtered words, a seed that is not negative, a number of images
    between 1 and 10, and image dimensions between 256 and 2048; the
    accepted prompt passes [validatePrompt] unchanged, and the handler
    will fan out to between 1 and 10 images for it. *)
Theorem accepted_request_in_bounds (maxPromptLength : Z)
    (requestBody : Validation.Body) (prompt : string)
    (options : GenerateImage.Options) :
  Validation.validateGenerateImageRequest maxPromptLength requestBody
    = Some (Validation.Valid prompt options) ->
  Validation.validatePrompt maxPromptLength (Validation.JsStr prompt) = inr prompt /\
  JsString.trim prompt = prompt /\
  (0 < String.length prompt)%nat /\
  Z.of_nat (String.length prompt) <= maxPromptLength /\
  Validation.inappropriate prompt = false /\
  (forall s, GenerateImage.opt_seed options = Some s -> 0 <= s) /\
  (forall k, GenerateImage.opt_num_images options = Some k -> 1 <= k <= 10) /\
  (forall sz, GenerateImage.opt_image_size options = Some sz ->
     256 <= GenerateImage.width sz <= 2048 /\
     256 <= GenerateImage.height sz <= 2048) /\
  1 <= GenerateImage.numImages options Config.app_imagesPerGeneration <= 10.
Proof.
  intros Hvalid.
  pose proof (valid_request _ _ _ _ Hvalid) as (H1 & H2 & H3 & H4 & H5 & H6 & H7 & H8).
  pose proof (valid_request_images _ _ _ _ Hvalid) as H9.
  split_and!; try done; lia.
Qed.

Lemma accepted_request_in_bounds_witness :
  JsString.trim "a red fox" = "a red fox"%string /\
  1 <= GenerateImage.numImages
         {| GenerateImage.opt_seed := Some 7;
            GenerateImage.opt_num_images := Some 2;
            GenerateImage.opt_image_size := None |}
         Config.app_imagesPerGeneration <= 10.
Proof.
  destruct (accepted_request_in_bounds 500
              (Validation.BodyObject (Validation.JsStr "  a red fox ")
                 (Validation.OptObject (Validation.JsNumber 7) (Validation.JsNumber 2)
                    Validation.SizeFalsy))
              "a red fox"%string
              {| GenerateImage.opt_seed := Some 7;
                 GenerateImage.opt_num_images := Some 2;
                 GenerateImage.opt_image_size := None |}
              eq_refl) as (_ & Htrim & _ & _ & _ & _ & _ & _ & Hcount).
  split; [exact Htrim | exact Hcount].
Defined.

(** ** The current handler *)

Section HandlerFacts.
Import Handler.
Variable env : GenerateImage.Env.
Variable falKey : option string.
Variables startTime now endTime : Z.
Variable req : Request.
Variable sv : Server.

Let limited :=
  RateLimiter.checkRateLimit globalRateLimiter RateLimiter.defaultKeyGenerator
    (client req) now (store sv).

Let generated prompt options :=
  GenerateImage.generateImagesWithRetry env prompt Config.fal_retryAttempts
    Config.fal_timeout options Config.app_imagesPerGeneration (world sv).

(** A request that is not a POST is answered at once. *)
Lemma handler_other_method :
  method req <> "POST"%string ->
  handler env falKey startTime now endTime req sv
  = ({| statusCode := if String.eqb (method req) "OPTIONS" then 200 else 405;
        rateLimit := None;
        responseBody :=
          if String.eqb (method req) "OPTIONS" then NoBody
          else Failure {| error := "Method " +:+ method req
                                   +:+ " not allowed. Allowed methods: POST";
                          category := "validation"; retryable := false;
                          field := None; code := None; retryAfter := None;
                          resetTime := None |} |}, sv).
Proof.
  intros Hother. unfold handler, Validation.validateHttpMethod.
  destruct (String.eqb (method req) "OPTIONS"); [reflexivity |].
  destruct (String.eqb_spec (method req) "POST"); [contradiction | reflexivity].
Qed.

(** The four ways a POST can go. *)
Lemma handler_post :
  method req = "POST"%string ->
  let sv' := {| store := snd limited; world := world sv; slept := slept sv |} in
  store (snd (handler env falKey startTime now endTime req sv)) = snd limited /\
  rateLimit (fst (handler env falKey startTime now endTime req sv))
    = Some (fst limited) /\
  ((RateLimiter.allowed (fst limited) = false /\
    snd (handler env falKey startTime now endTime req sv) = sv' /\
    statusCode (fst (handler env falKey startTime now endTime req sv)) = 429 /\
    rateLimited (fst (handler env falKey startTime now endTime req sv)) = true /\
    exists json, responseBody (fst (handler env falKey startTime now endTime req sv))
                 = Failure json) \/
   (RateLimiter.allowed (fst limited) = true /\
    ConfigOps.isConfigured falKey = false /\
    snd (handler env falKey startTime now endTime req sv) = sv' /\
    statusCode (fst (handler env falKey startTime now endTime req sv)) = 500 /\
    rateLimited (fst (handler env falKey startTime now endTime req sv)) = false /\
    exists json, responseBody (fst (handler env falKey startTime now endTime req sv))
                 = Failure json) \/
   (RateLimiter.allowed (fst limited) = true /\
    ConfigOps.isConfigured falKey = true /\
    (Validation.validateGenerateImageRequest ConfigOps.app_maxPromptLength (body req)
       = None /\
     statusCode (fst (handler env falKey startTime now endTime req sv)) = 500 \/
     exists inputError,
       Validation.validateGenerateImageRequest ConfigOps.app_maxPromptLength
         (body req) = Some (Validation.Invalid inputError) /\
       statusCode (fst (handler env falKey startTime now endTime req sv)) = 400) /\
    snd (handler env falKey startTime now endTime req sv) = sv' /\
    rateLimited (fst (handler env falKey startTime now endTime req sv)) = false /\
    exists json, responseBody (fst (handler env falKey startTime now endTime req sv))
                 = Failure json) \/
   (RateLimiter.allowed (fst limited) = true /\
    ConfigOps.isConfigured falKey = true /\
    exists prompt options,
      Validation.validateGenerateImageRequest ConfigOps.app_maxPromptLength
        (body req) = Some (Validation.Valid prompt options) /\
      snd (handler env falKey startTime now endTime req sv)
        = {| store := snd limited; world := snd (generated prompt options);
             slept := slept sv ++ snd (fst (generated prompt options)) |} /\
      fst (handler env falKey startTime now endTime req sv)
        = match fst (fst (generated prompt options)) with
          | inr imageUrls =>
              {| statusCode := 200; rateLimit := Some (fst limited);
                 responseBody := Success imageUrls prompt (endTime - startTime)
                                   (List.length imageUrls) |}
          | inl thrown => catch (Some (fst limited)) thrown
          end)).
Proof.
  intros Hpost sv'. subst sv'. unfold handler. rewrite Hpost.
  change (String.eqb "POST" "OPTIONS") with false.
  change (Validation.validateHttpMethod "POST") with (@None Validation.ValidationError).
  cbv iota. fold limited. destruct limited as [rateLimitResult store'].
  cbn [fst snd].
  destruct (RateLimiter.allowed rateLimitResult); cbn [negb].
  2: { split_and!; [done | done |]. left. split_and!; try done. by eexists. }
  destruct (ConfigOps.isConfigured falKey); cbn [negb].
  2: { split_and!; [done | done |]. right; left. split_and!; try done. by eexists. }
  destruct (Validation.validateGenerateImageRequest ConfigOps.app_maxPromptLength
              (body req)) as [[inputError|prompt options]|] eqn:Hvalid.
  - split_and!; [done | done |]. right; right; left.
    split_and!; try done; [right; by exists inputError | by eexists].
  - subst generated. cbv beta.
    destruct (GenerateImage.generateImagesWithRetry env prompt
                Config.fal_retryAttempts Config.fal_timeout options
                Config.app_imagesPerGeneration (world sv))
      as [[[thrown|urls] delays] w'] eqn:Hgen; cbn [fst snd].
    + split_and!; [done | done |]. right; right; right.
      split_and!; try done. exists prompt, options. by rewrite Hgen.
    + split_and!; [done | done |]. right; right; right.
      split_and!; try done. exists prompt, options. by rewrite Hgen.
  - split_and!; [done | done |]. right; right; left.
    split_and!; try done; [by left | by eexists].
Qed.
End HandlerFacts.

(** X24.  The order of the checks of the handler.  A request that is not
    a POST is answered 200 (OPTIONS) or 405 without touching the rate
    limiter or the provider.  A POST always passes through the rate
    limiter once, so it takes a token even when it is then turned down;
    denied by the limiter it is answered 429, with a missing or
    placeholder API key 500, with an invalid body 400, and in these three
    cases the provider is not called.  The provider is called only for a
    POST that the limiter allowed, on a configured server, with a body that
    the validator accepted. *)
Theorem handler_checks_in_order (env : GenerateImage.Env) (falKey : option string)
    (startTime now endTime : Z) (req : Handler.Request) (sv : Handler.Server) :
  let r := Handler.handler env falKey startTime now endTime req sv in
  let limited := RateLimiter.checkRateLimit Handler.globalRateLimiter
                   RateLimiter.defaultKeyGenerator (Handler.client req) now
                   (Handler.store sv) in
  let validated := Validation.validateGenerateImageRequest
                     ConfigOps.app_maxPromptLength (Handler.body req) in
  (Handler.method req <> "POST"%string ->
   snd r = sv /\ Handler.rateLimit (fst r) = None /\
   Handler.statusCode (fst r)
     = if String.eqb (Handler.method req) "OPTIONS" then 200 else 405) /\
  (Handler.method req = "POST"%string ->
   Handler.store (snd r) = snd limited /\
   Handler.rateLimit (fst r) = Some (fst limited) /\
   (RateLimiter.allowed (fst limited) = false ->
    Handler.statusCode (fst r) = 429 /\ Handler.world (snd r) = Handler.world sv) /\
   (RateLimiter.allowed (fst limited) = true ->
    ConfigOps.isConfigured falKey = false ->
    Handler.statusCode (fst r) = 500 /\ Handler.world (snd r) = Handler.world sv) /\
   (RateLimiter.allowed (fst limited) = true ->
    ConfigOps.isConfigured falKey = true ->
    forall inputError, validated = Some (Validation.Invalid inputError) ->
    Handler.statusCode (fst r) = 400 /\ Handler.world (snd r) = Handler.world sv)) /\
  (Handler.world (snd r) <> Handler.world sv ->
   Handler.method req = "POST"%string /\
   RateLimiter.allowed (fst limited) = true /\
   ConfigOps.isConfigured falKey = true /\
   exists prompt options, validated = Some (Validation.Valid prompt options)).
Proof.
  intros r limited validated.
  destruct (String.eqb_spec (Handler.method req) "POST") as [Hpost|Hother].
  - pose proof (handler_post env falKey startTime now endTime req sv Hpost)
      as (Hstore & Hheaders & Hcases).
    fold r limited validated in Hstore, Hheaders, Hcases.
    split_and!; [done | |].
    + intros _. split_and!; [exact Hstore | exact Hheaders | | |].
      * intros Hdenied.
        destruct Hcases as [(_ & -> & Hs & _)|[(Ha & _)|[(Ha & _)|(Ha & _)]]];
          [done | congruence ..].
      * intros Hallowed Hconf.
        destruct Hcases as [(Ha & _)|[(_ & _ & -> & Hs & _)|[(_ & Hc & _)|(_ & Hc & _)]]];
          [congruence | done | congruence ..].
      * intros Hallowed Hconf inputError Hinvalid.
        destruct Hcases as [(Ha & _)|[(_ & Hc & _)|[(_ & _ & Hv & -> & _)|(_ & _ & Hv)]]];
          [congruence | congruence | |].
        -- destruct Hv as [[Hv _]|(e & Hv & Hs)]; [congruence | done].
        -- destruct Hv as (p & o & Hv & _). congruence.
    + intros Hworld.
      destruct Hcases as [(_ & Hsv & _)|[(_ & _ & Hsv & _)|[(_ & _ & _ & Hsv & _)|
                          (Ha & Hc & p & o & Hv & _)]]];
        [by rewrite Hsv in Hworld ..|].
      split_and!; try done. by exists p, o.
  - pose proof (handler_other_method env falKey startTime now endTime req sv Hother)
      as Hr. fold r in Hr.
    split_and!; [| done |].
    + intros _. rewrite Hr. simpl. by split_and!.
    + intros Hworld. by rewrite Hr in Hworld.
Qed.

Lemma handler_checks_in_order_witness :
  let sv := {| Handler.store :=
                 {[ "10.0.0.1"%string := RateLimiter.mkBucket 0 1000 ]};
               Handler.world := GenerateImage.world0; Handler.slept := [] |} in
  let req := {| Handler.method := "POST";
                Handler.client := RateLimiter.mkRequest None (Some "10.0.0.1"%string)
                                    None None;
                Handler.body := Validation.BodyObject (Validation.JsStr "a cat")
                                  Validation.OptUndefined |} in
  let r := Handler.handler Scenario.one_null_url (Some "key"%string) 2000 2000 2000
             req sv in
  Handler.statusCode (fst r) = 429 /\ Handler.world (snd r) = Handler.world sv.
Proof.
  intros sv req r.
  destruct (handler_checks_in_order Scenario.one_null_url (Some "key"%string)
              2000 2000 2000 req sv) as (_ & Hpost & _).
  destruct (Hpost eq_refl) as (_ & _ & Hdenied & _).
  exact (Hdenied eq_refl).
Defined.

(** X25.  What one request can cost: the handler calls the provider at
    most 40 times for a request (at most 4 fan-outs of at most 10 calls)
    and sleeps at most 3 times, between 1000 and 5000 ms each; a success
    body carries between 1 and 10 URLs, none of them empty, is answered
    with status 200 and [images_count] equal to their number, and was paid
    for with at least one provider call. *)
Theorem handler_request_budget (env : GenerateImage.Env) (falKey : option string)
    (startTime now endTime : Z) (req : Handler.Request) (sv : Handler.Server) :
  let r := Handler.handler env falKey startTime now endTime req sv in
  (Handler.providerCalls sv (snd r) <= 40)%nat /\
  (List.length (GenerateImage.calls (Handler.world sv))
   <= List.length (GenerateImage.calls (Handler.world (snd r))))%nat /\
  (exists delays, Handler.slept (snd r) = Handler.slept sv ++ delays /\
     (List.length delays <= 3)%nat /\
     Forall (fun d => 1000 <= d <= 5000) delays) /\
  (forall imageUrls prompt generation_time images_count,
     Handler.responseBody (fst r)
       = Handler.Success imageUrls prompt generation_time images_count ->
     Handler.statusCode (fst r) = 200 /\
     images_count = List.length imageUrls /\
     generation_time = endTime - startTime /\
     (1 <= List.length imageUrls <= 10)%nat /\
     Forall (fun u => u <> EmptyString) imageUrls /\
     (1 <= Handler.providerCalls sv (snd r))%nat).
Proof.
  intros r. unfold Handler.providerCalls.
  assert (forall sv', snd r = sv' -> Handler.world sv' = Handler.world sv ->
            Handler.slept sv' = Handler.slept sv ->
            (forall u p t c, Handler.responseBody (fst r) <> Handler.Success u p t c) ->
            (List.length (GenerateImage.calls (Handler.world (snd r)))
             - List.length (GenerateImage.calls (Handler.world sv)) <= 40)%nat /\
            (List.length (GenerateImage.calls (Handler.world sv))
             <= List.length (GenerateImage.calls (Handler.world (snd r))))%nat /\
            (exists delays, Handler.slept (snd r) = Handler.slept sv ++ delays /\
               (List.length delays <= 3)%nat /\
               Forall (fun d => 1000 <= d <= 5000) delays) /\
            (forall imageUrls prompt generation_time images_count,
               Handler.responseBody (fst r)
                 = Handler.Success imageUrls prompt generation_time images_count ->
               Handler.statusCode (fst r) = 200 /\
               images_count = List.length imageUrls /\
               generation_time = endTime - startTime /\
               (1 <= List.length imageUrls <= 10)%nat /\
               Forall (fun u => u <> EmptyString) imageUrls /\
               (1 <= List.length (GenerateImage.calls (Handler.world (snd r)))
                     - List.length (GenerateImage.calls (Handler.world sv)))%nat))
    as Hquiet.
  { intros sv' Hsv Hw Hs Hbody. rewrite Hsv, Hw, Hs. split_and!; [lia | lia | |].
    - exists []. rewrite app_nil_r. split_and!; [done | simpl; lia | constructor].
    - intros u p t c Hsuccess. by destruct (Hbody u p t c). }
  destruct (String.eqb_spec (Handler.method req) "POST") as [Hpost|Hother].
  - pose proof (handler_post env falKey startTime now endTime req sv Hpost)
      as (_ & _ & Hcases).
    fold r in Hcases.
    destruct Hcases as [(_ & Hsv & _ & _ & json & Hjson)|
                        [(_ & _ & Hsv & _ & _ & json & Hjson)|
                         [(_ & _ & _ & Hsv & _ & json & Hjson)|
                          (_ & _ & p & o & Hv & Hsv & Hr)]]];
      try (eapply Hquiet; [exact Hsv | done | done |];
           intros u p t c; rewrite Hjson; discriminate).
    clear Hquiet.
    pose proof (valid_request_images _ _ _ _ Hv) as Hn.
    destruct (server_loop_shape env p Config.fal_retryAttempts Config.fal_timeout o
                Config.app_imagesPerGeneration (S Config.fal_retryAttempts) 0%nat
                None (Handler.world sv))
      as (k & Hk & Hpos & Hdelays & Hcalls & Hurls).
    fold (GenerateImage.generateImagesWithRetry env p Config.fal_retryAttempts
            Config.fal_timeout o Config.app_imagesPerGeneration (Handler.world sv))
      in Hdelays, Hcalls, Hurls.
    specialize (Hpos ltac:(lia)).
    assert (List.length (ServerRetry.delays 0 k) = (k - 1)%nat) as Hlen.
    { destruct k as [|k']; [lia |]. rewrite delays_length. lia. }
    pose proof (delays_bounds 0 k) as Hbounds.
    rewrite <- Hdelays in Hlen, Hbounds.
    rewrite Hsv, Hr. cbn [Handler.world Handler.slept].
    unfold Config.fal_retryAttempts in Hk.
    assert (k * Z.to_nat (GenerateImage.numImages o Config.app_imagesPerGeneration)
            <= 40)%nat as Hbudget by nia.
    split_and!; [lia | lia | |].
    + eexists. split_and!; [reflexivity | lia | exact Hbounds].
    + intros u p' t c.
      destruct (fst (fst (GenerateImage.generateImagesWithRetry env p
                            Config.fal_retryAttempts Config.fal_timeout o
                            Config.app_imagesPerGeneration (Handler.world sv))))
        as [thrown|urls] eqn:Hout; [discriminate |].
      intros [= <- <- <- <-]. destruct (Hurls urls eq_refl) as [Hcount Hnonempty].
      split_and!; try done; lia.
  - pose proof (handler_other_method env falKey startTime now endTime req sv Hother)
      as Hr. fold r in Hr.
    eapply Hquiet; [by rewrite Hr | done | done |].
    intros u p t c. rewrite Hr. simpl.
    by destruct (String.eqb (Handler.method req) "OPTIONS").
Qed.



Section Burst.
Import Handler.
Variable env : GenerateImage.Env.
Variable falKey : option string.

(** One POST: the limiter decides whether it is admitted, and only an
    admitted request can cost provider calls. *)
Lemma handler_step startTime now endTime req sv :
  method req = "POST"%string ->
  let r := handler env falKey startTime now endTime req sv in
  let limited := RateLimiter.checkKey globalRateLimiter
                   (RateLimiter.defaultKeyGenerator (client req)) now (store sv) in
  store (snd r) = snd limited /\
  rateLimited (fst r) = negb (RateLimiter.allowed (fst limited)) /\
  (List.length (GenerateImage.calls (world sv))
   <= List.length (GenerateImage.calls (world (snd r))))%nat /\
  (List.length (GenerateImage.calls (world (snd r)))
   <= List.length (GenerateImage.calls (world sv))
      + (if RateLimiter.allowed (fst limited) then 40 else 0))%nat.
Proof.
  intros Hpost r limited.
  pose proof (handler_post env falKey startTime now endTime req sv Hpost)
    as (Hstore & _ & Hcases).
  fold r in Hstore, Hcases.
  change (RateLimiter.checkRateLimit globalRateLimiter RateLimiter.defaultKeyGenerator
            (client req) now (store sv)) with limited in Hstore, Hcases.
  split; [exact Hstore |].
  destruct Hcases as [(-> & -> & _ & Hl & _)|[(-> & _ & -> & _ & Hl & _)|
                      [(-> & _ & _ & -> & Hl & _)|(-> & _ & p & o & Hv & -> & Hr)]]];
    try (cbn [world negb]; split_and!; [exact Hl | lia | lia]).
  pose proof (valid_request_images _ _ _ _ Hv) as Hn.
  destruct (server_loop_shape env p Config.fal_retryAttempts Config.fal_timeout o
              Config.app_imagesPerGeneration (S Config.fal_retryAttempts) 0%nat
              None (world sv)) as (k & Hk & _ & _ & Hcalls & _).
  fold (GenerateImage.generateImagesWithRetry env p Config.fal_retryAttempts
          Config.fal_timeout o Config.app_imagesPerGeneration (world sv)) in Hcalls.
  unfold Config.fal_retryAttempts in Hk. cbn [world negb].
  split_and!; [| lia | nia].
  rewrite Hr.
  by destruct (fst (fst (GenerateImage.generateImagesWithRetry env p
                           Config.fal_retryAttempts Config.fal_timeout o
                           Config.app_imagesPerGeneration (world sv)))).
Qed.

Lemma serve_posts key reqs : forall sv,
  Forall (postFrom key) reqs ->
  let r := serve env falKey reqs sv in
  let rs := RateLimiter.results globalRateLimiter
              (map (pair key) (map limiterClock reqs)) (store sv) in
  admitted (fst r) = RateLimiterOps.count_allowed rs /\
  (List.length (GenerateImage.calls (world sv))
   <= List.length (GenerateImage.calls (world (snd r))))%nat /\
  (List.length (GenerateImage.calls (world (snd r)))
   <= List.length (GenerateImage.calls (world sv))
      + 40 * RateLimiterOps.count_allowed rs)%nat.
Proof.
  induction reqs as [|[[[startTime now] endTime] req] rest IH]; intros sv Hall.
  - simpl. unfold admitted, RateLimiterOps.count_allowed. simpl. lia.
  - inversion Hall as [|? ? Hfirst Hrest]; subst.
    destruct Hfirst as [Hpost Hkey]. simpl in Hpost, Hkey.
    pose proof (handler_step startTime now endTime req sv Hpost)
      as (Hstore & Hlimited & Hlow & Hhigh).
    rewrite Hkey in Hstore, Hlimited, Hhigh.
    cbn [serve map limiterClock fst snd RateLimiter.results].
    destruct (handler env falKey startTime now endTime req sv) as [response sv1].
    destruct (RateLimiter.checkKey globalRateLimiter key now (store sv))
      as [res store1].
    cbn [fst snd] in *.
    specialize (IH sv1 Hrest). rewrite Hstore in IH.
    destruct (serve env falKey rest sv1) as [responses sv2].
    cbn [fst snd] in *. destruct IH as (Hcount & Hlow2 & Hhigh2).
    unfold admitted, RateLimiterOps.count_allowed in *.
    cbn [List.filter]. rewrite Hlimited.
    destruct (RateLimiter.allowed res); cbn [negb List.length];
      split_and!; lia.
Qed.
End Burst.

(** X27.  A burst of one client: when a client without a bucket sends
    [n] POSTs within the minute that its first one opens, the handler
    admits exactly [min 10 n] of them and answers the others from the rate
    limiter; together they cost at most [40 * min 10 n] provider calls, so
    never more than 400. *)
Theorem client_burst_limited (env : GenerateImage.Env) (falKey : option string)
    (key : string) (first : Z * Z * Z * Handler.Request)
    (rest : list (Z * Z * Z * Handler.Request)) (sv : Handler.Server) :
  Handler.store sv !! key = None ->
  Forall (Handler.postFrom key) (first :: rest) ->
  Forall (fun entry => Handler.limiterClock entry
                       < Handler.limiterClock first + 60000) rest ->
  let r := Handler.serve env falKey (first :: rest) sv in
  Handler.admitted (fst r) = Nat.min 10 (S (List.length rest)) /\
  (Handler.providerCalls sv (snd r) <= 40 * Nat.min 10 (S (List.length rest)))%nat /\
  (Handler.providerCalls sv (snd r) <= 400)%nat.
Proof.
  intros Hfresh Hposts Hwindow r.
  pose proof (serve_posts env falKey key (first :: rest) sv Hposts)
    as (Hadmitted & Hlow & Hhigh).
  fold r in Hadmitted, Hlow, Hhigh.
  assert (RateLimiterOps.count_allowed
            (RateLimiter.results Handler.globalRateLimiter
               (map (pair key) (map Handler.limiterClock (first :: rest)))
               (Handler.store sv))
          = Nat.min 10 (S (List.length rest))) as Hcount.
  { cbn [map RateLimiter.results].
    rewrite (checkKey_fresh Handler.globalRateLimiter key
               (Handler.limiterClock first) (Handler.store sv)
               ltac:(by vm_compute) ltac:(by vm_compute) Hfresh).
    unfold RateLimiterOps.count_allowed. cbn [List.filter RateLimiter.allowed List.length].
    pose proof (window_count Handler.globalRateLimiter key
                  (Handler.limiterClock first) (map Handler.limiterClock rest) 9
                  (<[key := RateLimiter.mkBucket 9 (Handler.limiterClock first)]>
                     (Handler.store sv))
                  ltac:(by vm_compute) ltac:(by vm_compute) ltac:(lia)
                  (lookup_insert_eq _ _ _)) as Hrest.
    unfold RateLimiterOps.count_allowed in Hrest.
    change (RateLimiter.maxRequests Handler.globalRateLimiter - 1) with 9.
    rewrite Hrest.
    - rewrite length_map. lia.
    - apply Forall_map. eapply Forall_impl; [exact Hwindow |].
      intros entry Hlt. exact Hlt. }
  rewrite Hcount in Hadmitted, Hhigh. unfold Handler.providerCalls.
  split_and!; [exact Hadmitted | lia | lia].
Qed.

Lemma client_burst_limited_witness :
  let req := {| Handler.method := "POST";
                Handler.client := RateLimiter.mkRequest None (Some "10.0.0.1"%string)
                                    None None;
                Handler.body := Validation.BodyObject (Validation.JsStr "a cat")
                                  Validation.OptUndefined |} in
  let sv := {| Handler.store := ∅; Handler.world := GenerateImage.world0;
               Handler.slept := [] |} in
  let entries := map (fun t => (t, t, t + 5, req)) (map Z.of_nat (seq 1 11)) in
  Handler.admitted (fst (Handler.serve Scenario.one_null_url (Some "key"%string)
                           ((0, 0, 5, req) :: entries) sv)) = 10%nat.
Proof.
  intros req sv entries.
  destruct (client_burst_limited Scenario.one_null_url (Some "key"%string)
              "10.0.0.1"%string (0, 0, 5, req) entries sv) as (Hadmitted & _ & _).
  - apply lookup_empty.
  - repeat constructor.
  - repeat constructor.
  - exact Hadmitted.
Defined.

(** ** [memoize] and [deduplicateRequests] *)

Section MemoizeFacts.
Context {Args R : Type}.
Variable fn : Args -> R.
Variable keyGenerator : Args -> string.
Hypothesis Hkey : forall a b, keyGenerator a = keyGenerator b -> fn a = fn b.

Lemma cacheGet_In key (entries : list (string * R)) v :
  Memoize.cacheGet key entries = Some v -> In (key, v) entries.
Proof.
  induction entries as [|[k v'] rest IH]; simpl; [discriminate |].
  destruct (String.eqb_spec k key) as [->|Hne].
  - intros [= ->]. by left.
  - intros Hrest. right. by apply IH.
Qed.

Lemma cacheGet_app_new key (entries : list (string * R)) v :
  Memoize.cacheGet key entries = None ->
  Memoize.cacheGet key (entries ++ [(key, v)]) = Some v.
Proof.
  induction entries as [|[k v'] rest IH]; simpl.
  - by rewrite String.eqb_refl.
  - destruct (String.eqb k key); [discriminate | exact IH].
Qed.

Lemma cacheGet_tl key (entries : list (string * R)) :
  Memoize.cacheGet key entries = None ->
  Memoize.cacheGet key (List.tl entries) = None.
Proof.
  destruct entries as [|[k v] rest]; simpl; [done |].
  by destruct (String.eqb k key).
Qed.

Lemma memoized_sound args st :
  Memoize.cache_sound fn keyGenerator (Memoize.cache st) ->
  (List.length (Memoize.cache st) <= 100)%nat ->
  let r := Memoize.memoized fn keyGenerator args st in
  fst r = fn args /\ Memoize.cache_sound fn keyGenerator (Memoize.cache (snd r)) /\
  (List.length (Memoize.cache (snd r)) <= 100)%nat /\
  (List.length (Memoize.invoked (snd r)) <= S (List.length (Memoize.invoked st)))%nat.
Proof.
  intros Hsound Hsize. unfold Memoize.memoized.
  destruct (Memoize.cacheGet (keyGenerator args) (Memoize.cache st)) as [v|] eqn:Hget;
    cbn [fst snd].
  - split_and!; [| done | done | lia].
    apply cacheGet_In in Hget.
    unfold Memoize.cache_sound in Hsound. rewrite List.Forall_forall in Hsound.
    destruct (Hsound _ Hget) as (a & Ha & Hv). simpl in Ha, Hv. subst v.
    by apply Hkey.
  - cbn [Memoize.cache Memoize.invoked].
    assert (Memoize.cache_sound fn keyGenerator (Memoize.cache st ++ [(keyGenerator args, fn args)]))
      as Hsound'.
    { apply Forall_app. split; [exact Hsound |].
      constructor; [| constructor]. by exists args. }
    rewrite List.length_app. simpl.
    split_and!; [done | | | rewrite List.length_app; simpl; lia].
    + destruct (Nat.ltb_spec 100 (List.length (Memoize.cache st) + 1)); [| done].
      destruct (Memoize.cache st ++ [(keyGenerator args, fn args)]); [constructor |].
      simpl. by inversion Hsound'.
    + destruct (Nat.ltb_spec 100 (List.length (Memoize.cache st) + 1));
        [| rewrite List.length_app; simpl; lia].
      destruct (Memoize.cache st) as [|e rest]; simpl in *; [lia |].
      rewrite List.length_app. simpl. lia.
Qed.

Lemma calls_sound argss : forall st,
  Memoize.cache_sound fn keyGenerator (Memoize.cache st) ->
  (List.length (Memoize.cache st) <= 100)%nat ->
  let r := Memoize.calls fn keyGenerator argss st in
  fst r = map fn argss /\ Memoize.cache_sound fn keyGenerator (Memoize.cache (snd r)) /\
  (List.length (Memoize.cache (snd r)) <= 100)%nat /\
  (List.length (Memoize.invoked (snd r))
   <= List.length (Memoize.invoked st) + List.length argss)%nat.
Proof.
  induction argss as [|args rest IH]; intros st Hsound Hsize; simpl.
  - split_and!; [done | done | done | lia].
  - pose proof (memoized_sound args st Hsound Hsize) as (Hr & Hsound1 & Hsize1 & Hinv1).
    destruct (Memoize.memoized fn keyGenerator args st) as [v st1].
    cbn [fst snd] in *.
    specialize (IH st1 Hsound1 Hsize1).
    destruct (Memoize.calls fn keyGenerator rest st1) as [vs st2].
    cbn [fst snd] in *. destruct IH as (-> & Hsound2 & Hsize2 & Hinv2).
    split_and!; [by rewrite Hr | done | done | lia].
Qed.
End MemoizeFacts.

(** A call repeated at once finds its key in the cache. *)
Lemma memoized_again {Args R : Type} (fn : Args -> R) (keyGenerator : Args -> string)
    (args : Args) (st : Memoize.State (Args := Args) (R := R)) :
  let once := Memoize.memoized fn keyGenerator args st in
  Memoize.memoized fn keyGenerator args (snd once) = (fst once, snd once).
Proof.
  cbv zeta. unfold Memoize.memoized.
  destruct (Memoize.cacheGet (keyGenerator args) (Memoize.cache st)) as [v|] eqn:Hget;
    cbn [fst snd Memoize.cache].
  - by rewrite Hget.
  - cbn [Memoize.cache].
    assert (Memoize.cacheGet (keyGenerator args)
              (if (100 <? List.length (Memoize.cache st ++ [(keyGenerator args, fn args)]))%nat
               then List.tl (Memoize.cache st ++ [(keyGenerator args, fn args)])
               else Memoize.cache st ++ [(keyGenerator args, fn args)])
            = Some (fn args)) as ->; [| reflexivity].
    destruct (Nat.ltb_spec 100
                (List.length (Memoize.cache st ++ [(keyGenerator args, fn args)])))
      as [Hfull|_]; [| by apply cacheGet_app_new].
    rewrite List.length_app in Hfull. simpl in Hfull.
    pose proof (cacheGet_tl _ _ Hget) as Htl.
    destruct (Memoize.cache st) as [|e rest]; [simpl in Hfull; lia |].
    simpl in Htl |- *. by apply cacheGet_app_new.
Qed.

(** X28.  [memoize] is transparent for a key generator that determines
    the result (equal keys, equal values of [fn]): starting from the empty
    cache, every call returns what [fn] returns for its arguments, the
    cache never holds more than 100 entries, [fn] is invoked at most once
    per call, and a call that is repeated at once is answered from the
    cache without invoking [fn]. *)
Theorem memoize_transparent {Args R : Type} (fn : Args -> R)
    (keyGenerator : Args -> string) (argss : list Args) (args : Args) :
  (forall a b, keyGenerator a = keyGenerator b -> fn a = fn b) ->
  let r := Memoize.calls fn keyGenerator argss Memoize.empty in
  let once := Memoize.memoized fn keyGenerator args (snd r) in
  fst r = map fn argss /\
  (List.length (Memoize.cache (snd r)) <= 100)%nat /\
  (List.length (Memoize.invoked (snd r)) <= List.length argss)%nat /\
  fst once = fn args /\
  Memoize.memoized fn keyGenerator args (snd once) = (fn args, snd once).
Proof.
  intros Hkey r once.
  destruct (calls_sound fn keyGenerator Hkey argss Memoize.empty)
    as (Hresults & Hsound & Hsize & Hinvoked);
    [constructor | simpl; lia |].
  fold r in Hresults, Hsound, Hsize, Hinvoked.
  destruct (memoized_sound fn keyGenerator Hkey args (snd r) Hsound Hsize)
    as (Honce & _).
  fold once in Honce.
  split_and!; [exact Hresults | exact Hsize | exact Hinvoked | exact Honce |].
  subst once. rewrite memoized_again. by rewrite Honce.
Qed.

Lemma memoize_transparent_witness :
  fst (Memoize.calls (fun n : nat => (n * n)%nat) (fun n => pretty n)
         [3; 4; 3; 3]%nat Memoize.empty) = [9; 16; 9; 9]%nat.
Proof.
  destruct (memoize_transparent (fun n : nat => (n * n)%nat) (fun n => pretty n)
              [3; 4; 3; 3]%nat 3%nat) as (Hresults & _).
  - intros a b Hab. apply (inj pretty) in Hab. by subst.
  - exact Hresults.
Defined.

Section DeduplicateFacts.
Context {Args : Type}.
Variable keyGenerator : Args -> string.

Lemma deduplicatedRequest_ok args st :
  Deduplicate.pending_ok keyGenerator st ->
  let r := Performance.deduplicatedRequest keyGenerator args st in
  Deduplicate.pending_ok keyGenerator (snd r) /\
  (exists made, Performance.requests (snd r) = Performance.requests st ++ made /\
                (List.length made <= 1)%nat) /\
  exists args', Performance.requests (snd r) !! fst r = Some args' /\
                keyGenerator args' = keyGenerator args.
Proof.
  intros Hok. unfold Performance.deduplicatedRequest.
  destruct (Performance.pendingRequests st !! keyGenerator args) as [i|] eqn:Hpending;
    cbn [fst snd].
  - split_and!; [exact Hok | | exact (Hok _ _ Hpending)].
    exists []. rewrite app_nil_r. split; [done | simpl; lia].
  - cbn [Performance.requests Performance.pendingRequests]. split_and!.
    + intros key i. cbn [Performance.requests Performance.pendingRequests].
      destruct (decide (key = keyGenerator args)) as [->|Hne].
      * rewrite lookup_insert_eq. intros [= <-]. exists args.
        split; [| done]. by rewrite lookup_app_r, Nat.sub_diag.
      * rewrite lookup_insert_ne by done. intros Hi.
        destruct (Hok key i Hi) as (a & Ha & Hk). exists a. split; [| done].
        by apply lookup_app_l_Some.
    + exists [args]. split; [done | simpl; lia].
    + exists args. split; [| done]. by rewrite lookup_app_r, Nat.sub_diag.
Qed.

Lemma settled_ok args st :
  Deduplicate.pending_ok keyGenerator st ->
  Deduplicate.pending_ok keyGenerator (Performance.settled keyGenerator args st).
Proof.
  intros Hok key i. unfold Performance.settled.
  cbn [Performance.requests Performance.pendingRequests].
  intros Hi. apply lookup_delete_Some in Hi as [_ Hi]. by apply Hok.
Qed.

Lemma run_ok events : forall st,
  Deduplicate.pending_ok keyGenerator st ->
  let r := Deduplicate.run keyGenerator events st in
  Deduplicate.pending_ok keyGenerator (snd r) /\
  (exists made, Performance.requests (snd r) = Performance.requests st ++ made /\
                (List.length made <= List.length (Deduplicate.callArgs events))%nat) /\
  Forall2 (fun args requestPromise =>
             exists args', Performance.requests (snd r) !! requestPromise = Some args' /\
                           keyGenerator args' = keyGenerator args)
          (Deduplicate.callArgs events) (fst r).
Proof.
  induction events as [|[args|args] rest IH]; intros st Hok.
  - simpl. split_and!; [done | | constructor].
    exists []. by rewrite app_nil_r.
  - cbn [Deduplicate.run Deduplicate.callArgs].
    pose proof (deduplicatedRequest_ok args st Hok)
      as (Hok1 & (made1 & Hmade1 & Hlen1) & a & Ha & Hk).
    destruct (Performance.deduplicatedRequest keyGenerator args st) as [i st1].
    cbn [fst snd] in *.
    specialize (IH st1 Hok1).
    destruct (Deduplicate.run keyGenerator rest st1) as [promises st2].
    cbn [fst snd] in *. destruct IH as (Hok2 & (made2 & Hmade2 & Hlen2) & Hall).
    split_and!; [exact Hok2 | |].
    + exists (made1 ++ made2). rewrite Hmade2, Hmade1, <- app_assoc.
      split; [done |]. rewrite List.length_app. simpl. lia.
    + constructor; [| exact Hall].
      exists a. split; [| done]. rewrite Hmade2. by apply lookup_app_l_Some.
  - cbn [Deduplicate.run Deduplicate.callArgs].
    exact (IH _ (settled_ok args st Hok)).
Qed.

(** Calls for one key while its request is pending add no request. *)
Lemma run_shared key i argss : forall st,
  Performance.pendingRequests st !! key = Some i ->
  Forall (fun args => keyGenerator args = key) argss ->
  Deduplicate.run keyGenerator (map Deduplicate.Call argss) st
  = (repeat i (List.length argss), st).
Proof.
  induction argss as [|args rest IH]; intros st Hpending Hall; [done |].
  inversion Hall as [|? ? Hk Hrest]; subst.
  cbn [map Deduplicate.run]. unfold Performance.deduplicatedRequest.
  rewrite Hpending. by rewrite (IH st Hpending Hrest).
Qed.
End DeduplicateFacts.

(** X29.  [deduplicateRequests] over any history of calls and
    settlements, starting with nothing pending: every caller gets the
    promise of a request that was made for the key of its own arguments,
    and [requestFn] is invoked at most once per call.  While the request
    of a key is pending, any number of further calls for that key get its
    promise and invoke nothing; once it has settled, the next call for the
    key invokes [requestFn] again. *)
Theorem deduplicated_requests_shared {Args : Type} (keyGenerator : Args -> string)
    (events : list (Deduplicate.Event (Args := Args))) (args : Args)
    (argss : list Args) :
  Forall (fun args' => keyGenerator args' = keyGenerator args) argss ->
  let r := Deduplicate.run keyGenerator events Performance.empty in
  let first := Performance.deduplicatedRequest keyGenerator args (snd r) in
  let after := Performance.settled keyGenerator args (snd first) in
  Forall2 (fun args' requestPromise =>
             exists made, Performance.requests (snd r) !! requestPromise = Some made /\
                          keyGenerator made = keyGenerator args')
          (Deduplicate.callArgs events) (fst r) /\
  (List.length (Performance.requests (snd r))
   <= List.length (Deduplicate.callArgs events))%nat /\
  Deduplicate.run keyGenerator (map Deduplicate.Call argss) (snd first)
    = (repeat (fst first) (List.length argss), snd first) /\
  Performance.requests
    (snd (Performance.deduplicatedRequest keyGenerator args after))
    = Performance.requests (snd first) ++ [args].
Proof.
  intros Hsame r first after.
  destruct (run_ok keyGenerator events Performance.empty)
    as (Hok & (made & Hmade & Hlen) & Hall);
    [intros key i; unfold Performance.empty; simpl; by rewrite lookup_empty |].
  fold r in Hok, Hmade, Hall.
  split_and!; [exact Hall | rewrite Hmade; simpl; lia | |].
  - apply run_shared with (key := keyGenerator args); [| exact Hsame].
    subst first. unfold Performance.deduplicatedRequest.
    destruct (Performance.pendingRequests (snd r) !! keyGenerator args) as [i|] eqn:Hp;
      cbn [fst snd Performance.pendingRequests]; [exact Hp |].
    apply lookup_insert_eq.
  - subst after. unfold Performance.deduplicatedRequest at 1, Performance.settled.
    cbn [Performance.pendingRequests Performance.requests].
    by rewrite lookup_delete_eq.
Qed.

Lemma deduplicated_requests_shared_witness :
  let first := Performance.deduplicatedRequest (fun a : string => a) "k"%string
                 Performance.empty in
  Deduplicate.run (fun a : string => a)
    (map Deduplicate.Call ["k"; "k"; "k"]%string) (snd first)
  = ([0; 0; 0]%nat, snd first).
Proof.
  intros first.
  destruct (deduplicated_requests_shared (fun a : string => a) [] "k"%string
              ["k"; "k"; "k"]%string) as (_ & _ & Hshared & _).
  - repeat constructor.
  - exact Hshared.
Defined.

(** ** The content filter of the server *)

Section ContentFilter.
Import Validation.

Lemma is_word_lower c : is_word (JsString.lower_ascii c) = is_word c.
Proof. destruct c as [[] [] [] [] [] [] [] []]; reflexivity. Qed.

Lemma allWord_lower s : allWord (JsString.toLowerCase s) = allWord s.
Proof.
  induction s as [|c s IH]; simpl; [done |]. by rewrite is_word_lower, IH.
Qed.

Lemma allWord_get s : forall n,
  allWord s = true -> (n < String.length s)%nat -> wordish (String.get n s) = true.
Proof.
  induction s as [|c s IH]; intros n Hall Hn; simpl in *; [lia |].
  apply andb_true_iff in Hall as [Hc Hs].
  destruct n as [|n]; [exact Hc |]. apply IH; [exact Hs | lia].
Qed.

Lemma toLowerCase_app a b :
  JsString.toLowerCase (a ++ b) = (JsString.toLowerCase a ++ JsString.toLowerCase b)%string.
Proof. induction a as [|c a IH]; simpl; [done | by rewrite IH]. Qed.

Lemma startsWith_app p s : JsString.startsWith p (p ++ s) = true.
Proof.
  induction p as [|c p IH]; simpl; [by destruct s |]. by rewrite Ascii.eqb_refl.
Qed.

Lemma startsWith_includes p s :
  JsString.startsWith p s = true -> JsString.includes s p = true.
Proof. intros H. destruct s; simpl; by rewrite H. Qed.

Lemma includes_cons c s p :
  JsString.includes s p = true -> JsString.includes (String c s) p = true.
Proof.
  intros H. cbn [JsString.includes]. by destruct (JsString.startsWith p (String c s)).
Qed.

(** A match of the pattern at the end of [before] is found by [test]. *)
Lemma test_at words before : forall prev s,
  matchHere words (lastChar prev before) s = true ->
  test words prev (before ++ s) = true.
Proof.
  induction before as [|c before IH]; intros prev s Hmatch.
  - simpl in *. destruct s; simpl; by rewrite Hmatch.
  - simpl. rewrite (IH (Some c) s Hmatch). apply orb_true_r.
Qed.

(** A word of the pattern between two characters that are not word
    characters is matched. *)
Lemma matchHere_word words word after prev :
  In (JsString.toLowerCase word) words ->
  allWord word = true -> word <> EmptyString ->
  wordish prev = false -> wordish (String.get 0 after) = false ->
  matchHere words prev (word ++ after) = true.
Proof.
  intros Hin Hall Hne Hprev Hafter. unfold matchHere.
  assert (0 < String.length word)%nat as Hlen
    by (destruct word; [done | simpl; lia]).
  apply andb_true_iff. split.
  - unfold boundary. rewrite Hprev.
    rewrite <- (append_correct1 word after 0 Hlen).
    by rewrite (allWord_get word 0 Hall Hlen).
  - apply existsb_exists. exists (JsString.toLowerCase word). split; [exact Hin |].
    rewrite toLowerCase_app, startsWith_app, toLowerCase_length. simpl.
    unfold boundary.
    rewrite <- (append_correct1 word after (String.length word - 1)) by lia.
    rewrite (allWord_get word _ Hall) by lia.
    replace (String.get (String.length word) (word ++ after))
      with (String.get 0 after)
      by (rewrite (append_correct2 word after 0); reflexivity).
    by rewrite Hafter.
Qed.

(** A match of the pattern contains one of its words. *)
Lemma test_includes words s : forall prev,
  test words prev s = true ->
  exists word, In word words /\
               JsString.includes (JsString.toLowerCase s) word = true.
Proof.
  assert (forall prev s', matchHere words prev s' = true ->
            exists word, In word words /\
                         JsString.includes (JsString.toLowerCase s') word = true)
    as Hhere.
  { intros prev s' Hmatch. unfold matchHere in Hmatch.
    apply andb_true_iff in Hmatch as [_ Hex].
    apply existsb_exists in Hex as (word & Hin & Hword).
    apply andb_true_iff in Hword as [Hstarts _].
    exists word. split; [exact Hin | by apply startsWith_includes]. }
  induction s as [|c s IH]; intros prev Htest.
  - simpl in Htest. rewrite orb_false_r in Htest. by eapply Hhere.
  - cbn [test] in Htest. apply orb_true_iff in Htest as [Hmatch|Hrest].
    + by eapply Hhere.
    + destruct (IH _ Hrest) as (word & Hin & Hinc).
      exists word. split; [exact Hin |]. simpl. by apply includes_cons.
Qed.

Lemma filtered_words word :
  In word (concat inappropriatePatterns) ->
  allWord word = true /\ word <> EmptyString.
Proof.
  simpl. intros H.
  repeat (destruct H as [<-|H]; [split; [reflexivity | discriminate] |]).
  contradiction.
Qed.

Lemma trim_nonempty s :
  JsString.trim s <> EmptyString -> (String.length s =? 0)%nat = false.
Proof. destruct s; [by intros [] | done]. Qed.
End ContentFilter.

(** X30.  The content filter of the server rejects whole words only, in
    any case.  If the trimmed prompt contains one of the nine filtered
    words, written in any mix of upper and lower case, between two
    characters that are not word characters (or at an end), then
    [validatePrompt] answers INAPPROPRIATE_CONTENT, provided the prompt is
    not too long.  If the lower-cased trimmed prompt contains none of the
    words even as a substring, the filter lets it pass. *)
Theorem content_filter_whole_words (maxPromptLength : Z) (prompt : string) :
  (forall before word after,
     JsString.trim prompt = (before ++ word ++ after)%string ->
     In (JsString.toLowerCase word) (concat Validation.inappropriatePatterns) ->
     Validation.wordish (Validation.lastChar None before) = false ->
     Validation.wordish (String.get 0 after) = false ->
     Z.of_nat (String.length (JsString.trim prompt)) <= maxPromptLength ->
     Validation.validatePrompt maxPromptLength (Validation.JsStr prompt)
       = inl Validation.inappropriateContent) /\
  (JsString.trim prompt <> EmptyString ->
   Z.of_nat (String.length (JsString.trim prompt)) <= maxPromptLength ->
   (forall word, In word (concat Validation.inappropriatePatterns) ->
      JsString.includes (JsString.toLowerCase (JsString.trim prompt)) word = false) ->
   Validation.validatePrompt maxPromptLength (Validation.JsStr prompt)
     = inr (JsString.trim prompt)).
Proof.
  split.
  - intros before word after Htrim Hin Hbefore Hafter Hmax.
    destruct (filtered_words _ Hin) as [Hall Hne].
    rewrite allWord_lower in Hall.
    assert (word <> EmptyString) as Hword by (intros ->; by apply Hne).
    assert (JsString.trim prompt <> EmptyString) as Hnonempty.
    { rewrite Htrim. destruct before; simpl; [| done].
      destruct word; [done | done]. }
    unfold Validation.validatePrompt, Validation.falsy.
    rewrite (trim_nonempty _ Hnonempty).
    destruct (Nat.eqb_spec (String.length (JsString.trim prompt)) 0) as [Hzero|_].
    { destruct (JsString.trim prompt); [done | discriminate]. }
    destruct (Z.ltb_spec maxPromptLength
                (Z.of_nat (String.length (JsString.trim prompt)))); [lia |].
    assert (Validation.inappropriate (JsString.trim prompt) = true) as ->;
      [| reflexivity].
    unfold Validation.inappropriate. apply existsb_exists.
    apply in_concat in Hin as (pattern & Hpattern & Hin).
    exists pattern. split; [exact Hpattern |].
    rewrite Htrim. apply test_at. by apply matchHere_word.
  - intros Hnonempty Hmax Hclean.
    unfold Validation.validatePrompt, Validation.falsy.
    rewrite (trim_nonempty _ Hnonempty).
    destruct (Nat.eqb_spec (String.length (JsString.trim prompt)) 0) as [Hzero|_].
    { destruct (JsString.trim prompt); [done | discriminate]. }
    destruct (Z.ltb_spec maxPromptLength
                (Z.of_nat (String.length (JsString.trim prompt)))); [lia |].
    assert (Validation.inappropriate (JsString.trim prompt) = false) as ->;
      [| reflexivity].
    apply not_true_is_false. intros Hbad.
    unfold Validation.inappropriate in Hbad.
    apply existsb_exists in Hbad as (pattern & Hpattern & Htest).
    destruct (test_includes _ _ _ Htest) as (word & Hin & Hinc).
    rewrite Hclean in Hinc; [discriminate |].
    apply in_concat. by exists pattern.
Qed.

Lemma content_filter_whole_words_witness :
  Validation.validatePrompt 500 (Validation.JsStr " a pool of BLOOD, at night ")
  = inl Validation.inappropriateContent.
Proof.
  destruct (content_filter_whole_words 500 " a pool of BLOOD, at night ") as [Hword _].
  apply (Hword "a pool of " "BLOOD" ", at night")%string.
  - reflexivity.
  - simpl. tauto.
  - reflexivity.
  - reflexivity.
  - vm_compute. discriminate.
Defined.
